(** * pprlblock: privacy-preserving blocking for two-party record linkage

    A shallow embedding of [pprl2partyknnsorted.py] (sorted-neighbourhood
    k-anonymous blocking) and [pprlpsig.py] (probability-signature Bloom
    filter blocking), and the properties of them that the specification
    states.

    Conventions of the embedding.
    - A Python [str] is a [string]; comparison is [String.ltb]/[String.leb]
      (lexicographic on character codes, as in Python).
    - A Python [int] is a [Z]; list positions and lengths are [nat].
    - A [dict] whose iteration order the code relies on (bucket tables,
      n-gram tables, the record table) is an insertion-ordered association
      list ([dict_get], [dict_set], [dict_del]); a [dict] that is only
      looked up by key is a [gmap]; a [set] is a [gset].
    - A [float] similarity is a rational: the code only compares them.
    - A Python exception is [Raise e]; a loop that never ends is [Diverge].
    - [config.py] is not part of the sources: its constants
      ([SORTED_FIRST_VAL], [QGRAM_LEN], [QGRAM_PADDING], the padding
      characters) are section variables; so are the two [hashlib] digests. *)

From Stdlib Require Import ZArith QArith String Ascii List DecimalString DecimalZ Lia.
From Stdlib Require OrderedTypeEx.
From stdpp Require Import gmap strings list sorting.

Local Open Scope string_scope.
Local Open Scope list_scope.
Local Open Scope Z_scope.
Local Open Scope nat_scope.
Local Open Scope stdpp_scope.

(** ** Python results: a value, an exception, or no return *)

Inductive exn : Set :=
  | StopIteration | KeyError | IndexError | ValueError
  | AttributeError | AssertionError | ZeroDivisionError.

Inductive result (A : Type) : Type :=
  | Ok (a : A)
  | Raise (e : exn)
  | Diverge.
Arguments Ok {A} a.
Arguments Raise {A} e.
Arguments Diverge {A}.

#[global] Instance result_ret : MRet result := fun A a => Ok a.
#[global] Instance result_bind : MBind result := fun A B f m =>
  match m with
  | Ok a => f a
  | Raise e => Raise e
  | Diverge => Diverge
  end.

(** ** The Python runtime pieces the two files use *)

Module Py.

(** [d[k]] on a key-only dictionary: [KeyError] when absent. *)
Definition getitem `{Countable K} {V} (d : gmap K V) (key : K) : result V :=
  match d !! key with
  | Some v => Ok v
  | None => Raise KeyError
  end.

(** [l[i]] for [i >= 0]: [IndexError] when out of range. *)
Definition index {A} (l : list A) (i : nat) : result A :=
  match l !! i with
  | Some v => Ok v
  | None => Raise IndexError
  end.

Section dict.
Context {K V : Type} `{EqDecision K}.

(** [d.get(k)] *)
Fixpoint dict_get (d : list (K * V)) (key : K) : option V :=
  match d with
  | [] => None
  | (k', v) :: d' => if decide (key = k') then Some v else dict_get d' key
  end.

(** [d[k]] *)
Definition dict_getitem (d : list (K * V)) (key : K) : result V :=
  match dict_get d key with
  | Some v => Ok v
  | None => Raise KeyError
  end.

(** [d[k] = v]: an existing key keeps its place, a new key goes last. *)
Fixpoint dict_set (d : list (K * V)) (key : K) (v : V) : list (K * V) :=
  match d with
  | [] => [(key, v)]
  | (k', v') :: d' =>
      if decide (key = k') then (key, v) :: d'
      else (k', v') :: dict_set d' key v
  end.

(** [del d[k]] for a key that is present. *)
Fixpoint dict_del (d : list (K * V)) (key : K) : list (K * V) :=
  match d with
  | [] => []
  | (k', v') :: d' =>
      if decide (key = k') then d' else (k', v') :: dict_del d' key
  end.

(** [next(k for (k, v) in d.items() if p k)] *)
Fixpoint next_key (p : K → bool) (d : list (K * V)) : result K :=
  match d with
  | [] => Raise StopIteration
  | (k', _) :: d' => if p k' then Ok k' else next_key p d'
  end.

(** Keys of a Python dictionary are pairwise distinct. *)
Definition dict_wf (d : list (K * V)) : Prop := NoDup (d.*1).
End dict.

(** [l.remove(x)]: drops the first occurrence, [ValueError] if none. *)
Fixpoint list_remove `{EqDecision A} (l : list A) (x : A) : result (list A) :=
  match l with
  | [] => Raise ValueError
  | y :: l' =>
      if decide (x = y) then Ok l'
      else l'' ← list_remove l' x; Ok (y :: l'')
  end.

(** [l.index(x)] *)
Fixpoint list_index `{EqDecision A} (l : list A) (x : A) : result nat :=
  match l with
  | [] => Raise ValueError
  | y :: l' =>
      if decide (x = y) then Ok 0
      else n ← list_index l' x; Ok (S n)
  end.

(** [str(n)] for an integer. *)
Definition str (n : Z) : string := NilZero.string_of_int (Z.to_int n).

(** [int(s)] for a decimal numeral. *)
Definition int (s : string) : result Z :=
  match NilZero.int_of_string s with
  | Some d => Ok (Z.of_int d)
  | None => Raise ValueError
  end.

(** [a in b] on strings, for a non-empty [a]. *)
Definition str_in (a b : string) : bool :=
  match String.index 0 a b with
  | Some _ => true
  | None => false
  end.

(** [s.split(c)] for a one-character separator. *)
Fixpoint split (c : ascii) (s : string) : list string :=
  match s with
  | EmptyString => [EmptyString]
  | String a s' =>
      if decide (a = c) then EmptyString :: split c s'
      else match split c s' with
           | [] => [String a EmptyString]
           | x :: xs => String a x :: xs
           end
  end.

(** [c * n]: a string repeated; empty for [n <= 0]. *)
Fixpoint repeat_str (c : string) (n : nat) : string :=
  match n with
  | O => EmptyString
  | S n' => c +:+ repeat_str c n'
  end.

Definition str_le (a b : string) : Prop := String.leb a b = true.

#[global] Instance str_le_dec a b : Decision (str_le a b).
Proof. unfold str_le. apply _. Defined.

(** [sorted(l)] on strings. *)
Definition sorted (l : list string) : list string := merge_sort str_le l.

(** [bisect.bisect(a, x)] (that is, [bisect_right]): the binary search of
    the standard library, [lo = 0], [hi = len(a)],
    [while lo < hi: mid = (lo+hi)//2; if x < a[mid]: hi = mid else: lo = mid+1]. *)
Fixpoint bisect_loop (fuel : nat) (a : list string) (x : string)
    (lo hi : nat) : nat :=
  match fuel with
  | O => lo
  | S fuel' =>
      if lo <? hi then
        let mid := (lo + hi) `div` 2 in
        match a !! mid with
        | Some y =>
            if String.ltb x y then bisect_loop fuel' a x lo mid
            else bisect_loop fuel' a x (mid + 1) hi
        | None => lo
        end
      else lo
  end.

Definition bisect (a : list string) (x : string) : nat :=
  bisect_loop (length a) a x 0 (length a).

End Py.
Import Py.


(** ** Sorted-neighbourhood k-anonymous blocking ([pprl2partyknnsorted.py]) *)

Module SNN.

Definition rec_id : Type := string.

(** A party's record table: record id to attribute values, in loading order. *)
Definition RecordTable : Type := list (rec_id * list string).

(** Bucket key (["b_0_1_2_"]) to the record ids of the bucket. *)
Definition PartyIndex : Type := list (string * list rec_id).

(** Candidate id to (Alice record ids, Bob record ids). *)
Definition CandidateBlockTable : Type :=
  list (nat * (list rec_id * list rec_id)).

Inductive mode : Set := SIM | SIZE.

(** The instance attributes of [PPRLIndex2PartyKAnonymousSortedNeighbour].
    [__init__] assigns [k] to [bob_rep_index]; the record tables are
    assigned by the loader of the base class ([None] until then); an
    attribute that no method has assigned yet is [None] here and reading
    it is an [AttributeError]. *)
Record t : Type := mk {
  k : Z;
  w : Z;
  sim_measure : string → string → Q;
  min_sim_threshold : Q;
  sim_or_size : mode;
  ref_val_list_alice : option (list string);
  ref_val_list_bob : option (list string);
  ref_ind_dict_alice : option (gmap Z string);
  ref_ind_dict_bob : option (gmap Z string);
  alice_rep_vals : list string;
  bob_rep_vals : list string;
  alice_rep_index : gmap string string;
  bob_rep_index : gmap string string;
  sort_ref_val_list_alice : option (list string);
  sort_ref_val_list_bob : option (list string);
  rec_dict_alice : option RecordTable;
  rec_dict_bob : option RecordTable;
  attr_select_list_alice : option (list nat);
  attr_select_list_bob : option (list nat);
  index_alice : option PartyIndex;
  index_bob : option PartyIndex;
  block_dict : option CandidateBlockTable
}.

(** [__init__(k, w, sim_measure, min_sim_threshold, overlap, sim_or_size)];
    the record tables are what the loader has stored, if anything. *)
Definition init (k0 w0 : Z) (sim : string → string → Q) (thr : Q) (m : mode)
    (recs_alice recs_bob : option RecordTable) : t :=
  {| k := k0; w := w0; sim_measure := sim; min_sim_threshold := thr;
     sim_or_size := m;
     ref_val_list_alice := None; ref_val_list_bob := None;
     ref_ind_dict_alice := None; ref_ind_dict_bob := None;
     alice_rep_vals := []; bob_rep_vals := [];
     alice_rep_index := ∅; bob_rep_index := ∅;
     sort_ref_val_list_alice := None; sort_ref_val_list_bob := None;
     rec_dict_alice := recs_alice; rec_dict_bob := recs_bob;
     attr_select_list_alice := None; attr_select_list_bob := None;
     index_alice := None; index_bob := None; block_dict := None |}.

Section with_config.
(** [config.SORTED_FIRST_VAL]: the smallest possible value. *)
Variable SORTED_FIRST_VAL : string.

(** *** [__sort_ref_values_alice__] / [__sort_ref_values_bob__] *)

(** [ind = 1; for ref_val in l: d[ind] = ref_val; ind += 1] *)
Fixpoint assign_positions (ind : Z) (l : list string)
    (d : gmap Z string) : gmap Z string :=
  match l with
  | [] => d
  | ref_val :: l' => assign_positions (ind + 1)%Z l' (<[ind := ref_val]> d)
  end.

(** Returns the new [(ref_ind_dict, sort_ref_val_list)] of the party. *)
Definition sort_ref_values (ref_val_list : option (list string))
    : result (gmap Z string * list string) :=
  match ref_val_list with
  | None => Raise AssertionError
  | Some l =>
      let sort_ref_val_list := sorted l in
      Ok (assign_positions 1%Z sort_ref_val_list {[ 0%Z := SORTED_FIRST_VAL ]},
          sort_ref_val_list)
  end.

(** *** [__generate_sorted_index__] *)

(** [sk_val = ''; for col_num in attr_select_list: sk_val += rec_list[col_num]] *)
Fixpoint sort_key (attr_select_list : list nat) (rec_list : list string)
    (sk_val : string) : result string :=
  match attr_select_list with
  | [] => Ok sk_val
  | col_num :: rest =>
      v ← index rec_list col_num;
      sort_key rest rec_list (sk_val +:+ v)
  end.

(** [ref_val_dict[SORTED_FIRST_VAL] = []; for ref_val in ...: ref_val_dict[ref_val] = []] *)
Definition empty_ref_val_dict (sort_ref_val_list : list string)
    : gmap string (list rec_id) :=
  foldl (fun d ref_val => <[ref_val := []]> d)
        (<[SORTED_FIRST_VAL := []]> ∅) sort_ref_val_list.

(** The loop over [rec_dict.items()] that files every record id under the
    reference value at its bisect position. *)
Fixpoint insert_records (attr_select_list : list nat)
    (sort_ref_val_list : list string) (ref_ind_dict : gmap Z string)
    (items : RecordTable) (ref_val_dict : gmap string (list rec_id))
    : result (gmap string (list rec_id)) :=
  match items with
  | [] => Ok ref_val_dict
  | (rid, rec_list) :: rest =>
      sk_val ← sort_key attr_select_list rec_list "";
      let pos := bisect sort_ref_val_list sk_val in
      ref_val ← getitem ref_ind_dict (Z.of_nat pos);
      skvs_list ← getitem ref_val_dict ref_val;
      insert_records attr_select_list sort_ref_val_list ref_ind_dict rest
        (<[ref_val := skvs_list ++ [rid]]> ref_val_dict)
  end.

Section sweep.
Variable self : t.
Variable ref_ind_dict : gmap Z string.
Variable ref_val_dict : gmap string (list rec_id).
Variable len_sort_ref_list : nat.

(** The inner [while]: grows the working group from position [i + j].
    Returns [j] and [this_blk_elements_list]. One unit of [fuel] per
    evaluation of the loop condition. *)
Fixpoint grow (fuel : nat) (i j num_elements : nat)
    (this_blk_elements_list : list rec_id) (sim_val : Q)
    : result (nat * list rec_id) :=
  match fuel with
  | O => Diverge
  | S fuel' =>
      if ((Z.of_nat num_elements <=? k self)%Z
            && (i + j <? len_sort_ref_list))
         || (Qle_bool (min_sim_threshold self) sim_val
            && (i + j <? len_sort_ref_list))
      then
        this_ref_val ← getitem ref_ind_dict (Z.of_nat (i + j));
        this_element_list ← getitem ref_val_dict this_ref_val;
        sim_val' ←
          (if negb (i + j + 1 =? len_sort_ref_list) then
             next_ref_val ← getitem ref_ind_dict (Z.of_nat (i + j + 1));
             Ok (sim_measure self this_ref_val next_ref_val)
           else Ok sim_val);
        grow fuel' i (j + 1) (num_elements + length this_element_list)
             (this_blk_elements_list ++ this_element_list) sim_val'
      else Ok (j, this_blk_elements_list)
  end.

(** [for b in range(j): block_id += str(i + b) + '_'] *)
Definition extend_block_id (block_id : string) (i j : nat) : string :=
  foldl (fun id b => id +:+ str (Z.of_nat (i + b)) +:+ "_")
        block_id (seq 0 j).

(** An undersized group takes over the bucket whose key holds position
    [i - 1]. Returns the key prefix, the merged id list, and the table
    and key list without the absorbed bucket. *)
Definition merge_with_previous (i : nat)
    (this_blk_elements_list : list rec_id)
    (block_dict : PartyIndex) (blk_keys : list string)
    : result (string * list rec_id * PartyIndex * list string) :=
  let prev_blk_str := "_" +:+ str (Z.of_nat i - 1) +:+ "_" in
  prev_blk_id ← next_key (str_in prev_blk_str) block_dict;
  prev_blk_elements_list ← dict_getitem block_dict prev_blk_id;
  blk_keys' ← list_remove blk_keys prev_blk_id;
  Ok (prev_blk_id, this_blk_elements_list ++ prev_blk_elements_list,
      dict_del block_dict prev_blk_id, blk_keys').

(** The outer [while i < len_sort_ref_list]. One unit of [fuel] per
    evaluation of its condition. *)
Fixpoint sweep (fuel : nat) (i : nat) (block_dict : PartyIndex)
    (blk_keys : list string) : result PartyIndex :=
  match fuel with
  | O => Diverge
  | S fuel' =>
      if i <? len_sort_ref_list then
        '(j, this_blk_elements_list) ←
           grow (S len_sort_ref_list) i 0 0 [] 0%Q;
        '(block_id, this_blk_elements_list, block_dict, blk_keys) ←
           (if (Z.of_nat (length this_blk_elements_list) <? k self)%Z
            then merge_with_previous i this_blk_elements_list
                   block_dict blk_keys
            else Ok ("b_", this_blk_elements_list, block_dict, blk_keys));
        let block_id := extend_block_id block_id i j in
        sweep fuel' (i + j)
              (dict_set block_dict block_id this_blk_elements_list)
              (blk_keys ++ [block_id])
      else Ok block_dict
  end.
End sweep.

Definition generate_sorted_index (self : t) (rec_dict : option RecordTable)
    (attr_select_list : list nat) (sort_ref_val_list : list string)
    (ref_ind_dict : option (gmap Z string)) : result PartyIndex :=
  match rec_dict, ref_ind_dict with
  | Some rec_dict, Some ref_ind_dict =>
      ref_val_dict ←
        insert_records attr_select_list sort_ref_val_list ref_ind_dict
          rec_dict (empty_ref_val_dict sort_ref_val_list);
      let len_sort_ref_list := length sort_ref_val_list in
      match sim_or_size self with
      | SIM =>
          sweep self ref_ind_dict ref_val_dict len_sort_ref_list
                (S len_sort_ref_list) 0 [] []
      | SIZE => Ok []
      end
  | _, _ => Raise AssertionError
  end.

(** *** [__select_rep_ref_vals__] *)

(** [[int(i) for i in key.split('_')[1:-1]]] *)
Definition ref_nums_of_key (key : string) : result (list Z) :=
  mapM int (removelast (tail (split "_" key))).

(** [for ref_num in rep_refs: ... if ref_val not in rep_index: rep_index[ref_val] = key] *)
Fixpoint register_refs (ref_ind_dict : gmap Z string) (key : string)
    (rep_refs : list Z) (rep_index : gmap string string)
    : result (gmap string string) :=
  match rep_refs with
  | [] => Ok rep_index
  | ref_num :: rest =>
      ref_val ← getitem ref_ind_dict ref_num;
      register_refs ref_ind_dict key rest
        (match rep_index !! ref_val with
         | None => <[ref_val := key]> rep_index
         | Some _ => rep_index
         end)
  end.

(** The loop over [keys_list]; the policy in force exposes every
    reference position of a bucket ([rep_refs = ref_nums]). *)
Fixpoint select_loop (ref_ind_dict : gmap Z string) (keys_list : list string)
    (rep_ref_vals : list Z) (rep_index : gmap string string)
    : result (list Z * gmap string string) :=
  match keys_list with
  | [] => Ok (rep_ref_vals, rep_index)
  | key :: rest =>
      ref_nums ← ref_nums_of_key key;
      let rep_refs := ref_nums in
      rep_index' ← register_refs ref_ind_dict key rep_refs rep_index;
      select_loop ref_ind_dict rest (rep_ref_vals ++ ref_nums) rep_index'
  end.

Definition select_rep_ref_vals (block_index : PartyIndex)
    (ref_ind_dict : gmap Z string) : result (list Z * gmap string string) :=
  select_loop ref_ind_dict (block_index.*1) [] ∅.

(** *** [build_index_alice] / [build_index_bob]

    The value is the instance after the call. What follows the last
    assignment in the source ([block_stats] of the base class and the
    line appended to the log file) assigns no attribute and is left out.
    An exception loses nothing that a later theorem reads. *)

(** [for rep_val in rep_vals_in_clust: rep_vals.append(ref_ind_dict[rep_val])] *)
Fixpoint append_rep_vals (ref_ind_dict : gmap Z string)
    (rep_vals_in_clust : list Z) (rep_vals : list string)
    : result (list string) :=
  match rep_vals_in_clust with
  | [] => Ok rep_vals
  | rep_val :: rest =>
      v ← getitem ref_ind_dict rep_val;
      append_rep_vals ref_ind_dict rest (rep_vals ++ [v])
  end.

Definition build_index_alice (self : t) (attr_select_list : list nat)
    : result t :=
  '(ref_ind_dict, sort_ref_val_list) ←
     sort_ref_values (ref_val_list_alice self);
  match rec_dict_alice self with
  | None => Raise AssertionError
  | Some _ =>
      index ← generate_sorted_index self (rec_dict_alice self)
                 attr_select_list sort_ref_val_list (Some ref_ind_dict);
      '(rep_vals_in_clust_alice, rep_index) ←
         select_rep_ref_vals index ref_ind_dict;
      rep_vals ← append_rep_vals ref_ind_dict rep_vals_in_clust_alice
                    (alice_rep_vals self);
      Ok {| k := k self; w := w self; sim_measure := sim_measure self;
            min_sim_threshold := min_sim_threshold self;
            sim_or_size := sim_or_size self;
            ref_val_list_alice := ref_val_list_alice self;
            ref_val_list_bob := ref_val_list_bob self;
            ref_ind_dict_alice := Some ref_ind_dict;
            ref_ind_dict_bob := ref_ind_dict_bob self;
            alice_rep_vals := rep_vals;
            bob_rep_vals := bob_rep_vals self;
            alice_rep_index := rep_index;
            bob_rep_index := bob_rep_index self;
            sort_ref_val_list_alice := Some sort_ref_val_list;
            sort_ref_val_list_bob := sort_ref_val_list_bob self;
            rec_dict_alice := rec_dict_alice self;
            rec_dict_bob := rec_dict_bob self;
            attr_select_list_alice := Some attr_select_list;
            attr_select_list_bob := attr_select_list_bob self;
            index_alice := Some index;
            index_bob := index_bob self;
            block_dict := block_dict self |}
  end.

Definition build_index_bob (self : t) (attr_select_list : list nat)
    : result t :=
  '(ref_ind_dict, sort_ref_val_list) ←
     sort_ref_values (ref_val_list_bob self);
  match rec_dict_bob self with
  | None => Raise AssertionError
  | Some _ =>
      index ← generate_sorted_index self (rec_dict_bob self)
                 attr_select_list sort_ref_val_list (Some ref_ind_dict);
      '(rep_vals_in_clust_bob, rep_index) ←
         select_rep_ref_vals index ref_ind_dict;
      rep_vals ← append_rep_vals ref_ind_dict rep_vals_in_clust_bob
                    (bob_rep_vals self);
      Ok {| k := k self; w := w self; sim_measure := sim_measure self;
            min_sim_threshold := min_sim_threshold self;
            sim_or_size := sim_or_size self;
            ref_val_list_alice := ref_val_list_alice self;
            ref_val_list_bob := ref_val_list_bob self;
            ref_ind_dict_alice := ref_ind_dict_alice self;
            ref_ind_dict_bob := Some ref_ind_dict;
            alice_rep_vals := alice_rep_vals self;
            bob_rep_vals := rep_vals;
            alice_rep_index := alice_rep_index self;
            bob_rep_index := rep_index;
            sort_ref_val_list_alice := sort_ref_val_list_alice self;
            sort_ref_val_list_bob := Some sort_ref_val_list;
            rec_dict_alice := rec_dict_alice self;
            rec_dict_bob := rec_dict_bob self;
            attr_select_list_alice := attr_select_list_alice self;
            attr_select_list_bob := Some attr_select_list;
            index_alice := index_alice self;
            index_bob := Some index;
            block_dict := block_dict self |}
  end.

(** *** [__window__] *)

(** [zip(first, *rest)]: one row per round, until an iterator is exhausted. *)
Fixpoint zip_rows {A} (first : list A) (rest : list (list A))
    : list (list A) :=
  match first with
  | [] => []
  | x :: first' =>
      match mapM head rest with
      | Some row => (x :: row) :: zip_rows first' (tail <$> rest)
      | None => []
      end
  end.

Definition zip_star {A} (iters : list (list A)) : list (list A) :=
  match iters with
  | [] => []
  | first :: rest => zip_rows first rest
  end.

(** [iters = tee(iterable, size)]; the nested loop advances the [m]-th
    copy [m] times; the result is [zip( *iters)]. *)
Definition window {A} (iterable : list A) (size : nat) : list (list A) :=
  zip_star ((fun m => drop m iterable) <$> seq 0 size).

(** *** [generate_blocks] *)

(** The counters and lists of one window:
    [(num_alice_ref, num_bob_ref, this_win_alice_ref, this_win_bob_ref)]. *)
Definition win_state : Type := nat * nat * list string * list string.

(** The classification of one value, as written twice in the source
    (for the window's own values and for an appended one). *)
Definition classify (alice_rep_vals bob_rep_vals : list string)
    (st : win_state) (val : string) : win_state :=
  let '(num_alice_ref, num_bob_ref, this_win_alice_ref, this_win_bob_ref) := st in
  let '(num_alice_ref, this_win_alice_ref) :=
    if bool_decide (val ∈ alice_rep_vals) then
      (num_alice_ref + 1,
       if bool_decide (val ∈ this_win_alice_ref) then this_win_alice_ref
       else this_win_alice_ref ++ [val])
    else (num_alice_ref, this_win_alice_ref) in
  let '(num_bob_ref, this_win_bob_ref) :=
    if bool_decide (val ∈ bob_rep_vals) then
      (num_bob_ref + 1,
       if bool_decide (val ∈ this_win_bob_ref) then this_win_bob_ref
       else this_win_bob_ref ++ [val])
    else (num_bob_ref, this_win_bob_ref) in
  (num_alice_ref, num_bob_ref, this_win_alice_ref, this_win_bob_ref).

(** [while num_alice_ref < w or num_bob_ref < w: ...], with its [break]
    when the sorted union has no next element. One unit of [fuel] per
    evaluation of the condition. *)
Fixpoint extend_window (w0 : Z) (alice_rep_vals bob_rep_vals : list string)
    (rep_val_list : list string) (fuel : nat)
    (this_window_list : list string) (st : win_state)
    : result (list string * win_state) :=
  match fuel with
  | O => Diverge
  | S fuel' =>
      let '(num_alice_ref, num_bob_ref, _, _) := st in
      if (Z.of_nat num_alice_ref <? w0)%Z || (Z.of_nat num_bob_ref <? w0)%Z
      then
        last_ele_this_list ←
          index this_window_list (length this_window_list - 1);
        current_pos ← list_index rep_val_list last_ele_this_list;
        if current_pos + 1 <? length rep_val_list then
          next_element ← index rep_val_list (current_pos + 1);
          extend_window w0 alice_rep_vals bob_rep_vals rep_val_list fuel'
            (this_window_list ++ [next_element])
            (classify alice_rep_vals bob_rep_vals st next_element)
        else Ok (this_window_list, st)
      else Ok (this_window_list, st)
  end.

(** The body of [for each in self.__window__(rep_val_list, skip)] up to
    the pair emission. *)
Definition process_window (w0 : Z) (alice_rep_vals bob_rep_vals : list string)
    (rep_val_list : list string) (each : list string)
    : result (list string * win_state) :=
  let this_window_list := each in
  let st := foldl (classify alice_rep_vals bob_rep_vals)
                  (0, 0, [], []) this_window_list in
  extend_window w0 alice_rep_vals bob_rep_vals rep_val_list
    (length rep_val_list) this_window_list st.

(** [for a in this_win_alice_ref: for b in this_win_bob_ref:
       if [a, b] not in cand_ref_list: cand_ref_list.append([a, b])] *)
Definition emit_pairs (this_win_alice_ref this_win_bob_ref : list string)
    (cand_ref_list : list (string * string)) : list (string * string) :=
  foldl (fun cand this_alice_ref =>
           foldl (fun cand this_bob_ref =>
                    if bool_decide ((this_alice_ref, this_bob_ref) ∈ cand)
                    then cand
                    else cand ++ [(this_alice_ref, this_bob_ref)])
                 cand this_win_bob_ref)
        cand_ref_list this_win_alice_ref.

Fixpoint window_loop (w0 : Z) (alice_rep_vals bob_rep_vals : list string)
    (rep_val_list : list string) (windows : list (list string))
    (cand_ref_list : list (string * string))
    : result (list (string * string)) :=
  match windows with
  | [] => Ok cand_ref_list
  | each :: rest =>
      '(_, (_, _, this_win_alice_ref, this_win_bob_ref)) ←
         process_window w0 alice_rep_vals bob_rep_vals rep_val_list each;
      window_loop w0 alice_rep_vals bob_rep_vals rep_val_list rest
        (emit_pairs this_win_alice_ref this_win_bob_ref cand_ref_list)
  end.

(** The sorted union of the exposed values, without the sentinel. *)
Definition rep_val_union (alice_rep_vals bob_rep_vals : list string)
    : result (list string) :=
  let rep_val_set : gset string :=
    list_to_set alice_rep_vals ∪ list_to_set bob_rep_vals in
  let rep_val_list := sorted (elements rep_val_set) in
  if bool_decide (SORTED_FIRST_VAL ∈ rep_val_list)
  then list_remove rep_val_list SORTED_FIRST_VAL
  else Ok rep_val_list.

(** The candidate value pairs of a run ([cand_ref_list]). [tee] rejects a
    negative number of copies. *)
Definition candidate_pairs (w0 : Z) (alice_rep_vals bob_rep_vals : list string)
    : result (list (string * string)) :=
  rep_val_list ← rep_val_union alice_rep_vals bob_rep_vals;
  let skip := (w0 * 2)%Z in
  if (skip <? 0)%Z then Raise ValueError
  else
    window_loop w0 alice_rep_vals bob_rep_vals rep_val_list
      (window rep_val_list (Z.to_nat skip)) [].

(** [for cand_pair in cand_ref_list: ... block_dict[cand_blk_key] = ...;
    cand_blk_key += 1] *)
Fixpoint assemble (index_alice index_bob : PartyIndex)
    (alice_rep_index bob_rep_index : gmap string string)
    (cand_ref_list : list (string * string)) (cand_blk_key : nat)
    (block_dict : CandidateBlockTable) : result CandidateBlockTable :=
  match cand_ref_list with
  | [] => Ok block_dict
  | (alice_rep, bob_rep) :: rest =>
      alice_block ← getitem alice_rep_index alice_rep;
      alice_rec_ids ← dict_getitem index_alice alice_block;
      bob_block ← getitem bob_rep_index bob_rep;
      bob_rec_ids ← dict_getitem index_bob bob_block;
      assemble index_alice index_bob alice_rep_index bob_rep_index rest
        (cand_blk_key + 1)
        (dict_set block_dict cand_blk_key (alice_rec_ids, bob_rec_ids))
  end.

Definition set_block_dict (self : t) (bd : CandidateBlockTable) : t :=
  {| k := k self; w := w self; sim_measure := sim_measure self;
     min_sim_threshold := min_sim_threshold self;
     sim_or_size := sim_or_size self;
     ref_val_list_alice := ref_val_list_alice self;
     ref_val_list_bob := ref_val_list_bob self;
     ref_ind_dict_alice := ref_ind_dict_alice self;
     ref_ind_dict_bob := ref_ind_dict_bob self;
     alice_rep_vals := alice_rep_vals self;
     bob_rep_vals := bob_rep_vals self;
     alice_rep_index := alice_rep_index self;
     bob_rep_index := bob_rep_index self;
     sort_ref_val_list_alice := sort_ref_val_list_alice self;
     sort_ref_val_list_bob := sort_ref_val_list_bob self;
     rec_dict_alice := rec_dict_alice self;
     rec_dict_bob := rec_dict_bob self;
     attr_select_list_alice := attr_select_list_alice self;
     attr_select_list_bob := attr_select_list_bob self;
     index_alice := index_alice self;
     index_bob := index_bob self;
     block_dict := Some bd |}.

(** Returns the instance with [block_dict] assigned and [len(block_dict)]
    (the elapsed time of the source's pair is not modelled). *)
Definition generate_blocks (self : t) : result (t * nat) :=
  match index_alice self with
  | None => Raise AttributeError
  | Some index_alice =>
      match index_bob self with
      | None => Raise AttributeError
      | Some index_bob =>
          cand_ref_list ←
            candidate_pairs (w self) (alice_rep_vals self) (bob_rep_vals self);
          block_dict ←
            assemble index_alice index_bob (alice_rep_index self)
              (bob_rep_index self) cand_ref_list 0 [];
          Ok (set_block_dict self block_dict, length block_dict)
      end
  end.

End with_config.
End SNN.

(** ** Probability-signature Bloom-filter blocking ([pprlpsig.py]) *)

Module PSig.

Definition rec_id : Type := string.
Definition RecordTable : Type := list (rec_id * list string).

(** n-gram to the ids of the records that contain it, in order of first
    occurrence. *)
Definition NGramIndex : Type := list (string * list rec_id).

Definition CandidateBlockTable : Type :=
  list (nat * (list rec_id * list rec_id)).

(** The instance attributes of [PPRLIndexPSignature]; the conventions for
    the record tables and for [index_alice], [index_bob] and [block_dict]
    are those of [SNN.t]. *)
Record t : Type := mk {
  num_hash_funct : nat;
  bf_len : Z;
  bf_cache : gmap string (gset Z);
  alice_bf : option (gset Z);
  bob_bf : option (gset Z);
  common_bf : option (gset Z);
  ngram_alice_dict : NGramIndex;
  ngram_bob_dict : NGramIndex;
  rec_dict_alice : option RecordTable;
  rec_dict_bob : option RecordTable;
  index_alice : option NGramIndex;
  index_bob : option NGramIndex;
  block_dict : option CandidateBlockTable
}.

(** [__init__(num_hash_funct, bf_len)] *)
Definition init (h : nat) (len : Z) (recs_alice recs_bob : option RecordTable)
    : t :=
  {| num_hash_funct := h; bf_len := len; bf_cache := ∅;
     alice_bf := None; bob_bf := None; common_bf := None;
     ngram_alice_dict := []; ngram_bob_dict := [];
     rec_dict_alice := recs_alice; rec_dict_bob := recs_bob;
     index_alice := None; index_bob := None; block_dict := None |}.

Section with_config.
(** The constants imported from [config.py]. *)
Variable QGRAM_LEN : nat.
Variable QGRAM_PADDING : bool.
Variable PADDING_START_CHAR : string.
Variable PADDING_END_CHAR : string.

(** [int(hashlib.sha1(s.encode('utf-8')).hexdigest(), 16)] and the same
    with [hashlib.md5]. *)
Variable h1 : string → Z.
Variable h2 : string → Z.

(** [for i in range(num_hash_funct): gi = int1 + i*int2;
     gi = int(gi % bf_len); bloom_set.add(gi)] *)
Fixpoint bloom_loop (int1 int2 len : Z) (range : list nat)
    (bloom_set : gset Z) : result (gset Z) :=
  match range with
  | [] => Ok bloom_set
  | i :: rest =>
      let gi := (int1 + Z.of_nat i * int2)%Z in
      if (len =? 0)%Z then Raise ZeroDivisionError
      else bloom_loop int1 int2 len rest (bloom_set ∪ {[ (gi `mod` len)%Z ]})
  end.

(** *** [ngram2bf] *)
Definition ngram2bf (self : t) (ngram : string) : result (gset Z) :=
  let int1 := h1 ngram in
  let int2 := h2 ngram in
  bloom_loop int1 int2 (bf_len self) (seq 0 (num_hash_funct self)) ∅.

(** [[ps[i:i+QGRAM_LEN] for i in range(len(ps) - q_minus_1)]] *)
Definition q_grams (ps : string) : list string :=
  let q_minus_1 := (Z.of_nat QGRAM_LEN - 1)%Z in
  (fun i => substring i QGRAM_LEN ps)
    <$> seq 0 (Z.to_nat (Z.of_nat (String.length ps) - q_minus_1)).

(** The padded string of [__str2bf__]. *)
Definition pad (s : string) : string :=
  let q_minus_1 := Z.to_nat (Z.of_nat QGRAM_LEN - 1) in
  if QGRAM_PADDING then
    repeat_str PADDING_START_CHAR q_minus_1 +:+ s
      +:+ repeat_str PADDING_END_CHAR q_minus_1
  else s.

(** *** [__str2bf__]: returns the filter and the cache after the call. *)
Definition str2bf (self : t) (s : string) (do_cache : bool)
    : result (gset Z * gmap string (gset Z)) :=
  match bf_cache self !! s with
  | Some bf => Ok (bf, bf_cache self)
  | None =>
      let ps := pad s in
      let q_gram_list := q_grams ps in
      bloom_set ←
        foldl (fun acc q =>
                 bloom_set ← acc;
                 bloom_loop (h1 q) (h2 q) (bf_len self)
                   (seq 0 (num_hash_funct self)) bloom_set)
              (Ok ∅) q_gram_list;
      Ok (bloom_set,
          if do_cache then <[s := bloom_set]> (bf_cache self)
          else bf_cache self)
  end.

(** *** [create_bloom_filter] *)
Definition create_bloom_filter (self : t) (ngrams : gset string)
    : result (gset Z) :=
  foldl (fun acc gram =>
           bloom ← acc;
           bloom_set ← ngram2bf self gram;
           Ok (bloom ∪ bloom_set))
        (Ok ∅) (elements ngrams).

(** *** [get_ngram] *)

(** The loop over the grams of one record. *)
Definition add_grams (key : rec_id) (grams : list string)
    (acc : gset string * NGramIndex) : gset string * NGramIndex :=
  foldl (fun '(ngrams, ngram_dict) gram =>
           ({[ gram ]} ∪ ngrams,
            match dict_get ngram_dict gram with
            | Some ids => dict_set ngram_dict gram (ids ++ [key])
            | None => dict_set ngram_dict gram [key]
            end))
        acc grams.

Fixpoint get_ngram_loop (attr_list : list nat) (items : RecordTable)
    (acc : gset string * NGramIndex) : result (gset string * NGramIndex) :=
  match items with
  | [] => Ok acc
  | (key, rec) :: rest =>
      value ← mapM (index rec) attr_list;
      let ps := String.concat "" value in
      get_ngram_loop attr_list rest (add_grams key (q_grams ps) acc)
  end.

Definition get_ngram (records : option RecordTable) (ngram_dict : NGramIndex)
    (attr_list : list nat) : result (gset string * NGramIndex) :=
  match records with
  | None => Raise AttributeError
  | Some records => get_ngram_loop attr_list records (∅, ngram_dict)
  end.

Definition set_alice (self : t) (bf : gset Z) (d : NGramIndex) : t :=
  {| num_hash_funct := num_hash_funct self; bf_len := bf_len self;
     bf_cache := bf_cache self;
     alice_bf := Some bf; bob_bf := bob_bf self; common_bf := common_bf self;
     ngram_alice_dict := d; ngram_bob_dict := ngram_bob_dict self;
     rec_dict_alice := rec_dict_alice self; rec_dict_bob := rec_dict_bob self;
     index_alice := index_alice self; index_bob := index_bob self;
     block_dict := block_dict self |}.

Definition set_bob (self : t) (bf : gset Z) (d : NGramIndex) : t :=
  {| num_hash_funct := num_hash_funct self; bf_len := bf_len self;
     bf_cache := bf_cache self;
     alice_bf := alice_bf self; bob_bf := Some bf; common_bf := common_bf self;
     ngram_alice_dict := ngram_alice_dict self; ngram_bob_dict := d;
     rec_dict_alice := rec_dict_alice self; rec_dict_bob := rec_dict_bob self;
     index_alice := index_alice self; index_bob := index_bob self;
     block_dict := block_dict self |}.

(** *** [alice_bloom_filter] / [bob_bloom_filter] *)
Definition alice_bloom_filter (self : t) (attr_list : list nat)
    : result (t * gset Z) :=
  '(ngrams, ngram_dict) ←
     get_ngram (rec_dict_alice self) (ngram_alice_dict self) attr_list;
  bf ← create_bloom_filter self ngrams;
  Ok (set_alice self bf ngram_dict, bf).

Definition bob_bloom_filter (self : t) (attr_list : list nat)
    : result (t * gset Z) :=
  '(ngrams, ngram_dict) ←
     get_ngram (rec_dict_bob self) (ngram_bob_dict self) attr_list;
  bf ← create_bloom_filter self ngrams;
  Ok (set_bob self bf ngram_dict, bf).

Definition set_common_bf (self : t) (bf : gset Z) : t :=
  {| num_hash_funct := num_hash_funct self; bf_len := bf_len self;
     bf_cache := bf_cache self;
     alice_bf := alice_bf self; bob_bf := bob_bf self; common_bf := Some bf;
     ngram_alice_dict := ngram_alice_dict self;
     ngram_bob_dict := ngram_bob_dict self;
     rec_dict_alice := rec_dict_alice self; rec_dict_bob := rec_dict_bob self;
     index_alice := index_alice self; index_bob := index_bob self;
     block_dict := block_dict self |}.

(** *** [common_bloom_filter] *)
Definition common_bloom_filter (self : t) (attr_list : list nat)
    : result (t * gset Z) :=
  self ←
    (match alice_bf self, bob_bf self with
     | Some _, Some _ => Ok self
     | _, _ =>
         '(self, _) ← alice_bloom_filter self attr_list;
         '(self, _) ← bob_bloom_filter self attr_list;
         Ok self
     end);
  match alice_bf self, bob_bf self with
  | Some a, Some b =>
      let common := a ∩ b in
      Ok (set_common_bf self common, common)
  | _, _ => Raise AttributeError
  end.

(** *** [microblocks] *)
Fixpoint microblocks_loop (self : t) (common : gset Z)
    (items : NGramIndex) (revert_index : NGramIndex) : result NGramIndex :=
  match items with
  | [] => Ok revert_index
  | (ngram, value) :: rest =>
      bf ← ngram2bf self ngram;
      microblocks_loop self common rest
        (if bool_decide (bf ∩ common = bf)
         then dict_set revert_index ngram value
         else revert_index)
  end.

Definition microblocks (self : t) (common : gset Z) (ngram_dict : NGramIndex)
    : result NGramIndex :=
  microblocks_loop self common ngram_dict [].

Definition set_index_alice (self : t) (ix : NGramIndex) : t :=
  {| num_hash_funct := num_hash_funct self; bf_len := bf_len self;
     bf_cache := bf_cache self;
     alice_bf := alice_bf self; bob_bf := bob_bf self;
     common_bf := common_bf self;
     ngram_alice_dict := ngram_alice_dict self;
     ngram_bob_dict := ngram_bob_dict self;
     rec_dict_alice := rec_dict_alice self; rec_dict_bob := rec_dict_bob self;
     index_alice := Some ix; index_bob := index_bob self;
     block_dict := block_dict self |}.

Definition set_index_bob (self : t) (ix : NGramIndex) : t :=
  {| num_hash_funct := num_hash_funct self; bf_len := bf_len self;
     bf_cache := bf_cache self;
     alice_bf := alice_bf self; bob_bf := bob_bf self;
     common_bf := common_bf self;
     ngram_alice_dict := ngram_alice_dict self;
     ngram_bob_dict := ngram_bob_dict self;
     rec_dict_alice := rec_dict_alice self; rec_dict_bob := rec_dict_bob self;
     index_alice := index_alice self; index_bob := Some ix;
     block_dict := block_dict self |}.

(** *** [build_index_alice] / [build_index_bob]: the instance after the
    call (the statistics of [block_stats] assign nothing). *)
Definition build_index_alice (self : t) : result t :=
  match rec_dict_alice self, common_bf self with
  | Some _, Some common =>
      revert_index ← microblocks self common (ngram_alice_dict self);
      Ok (set_index_alice self revert_index)
  | _, _ => Raise AssertionError
  end.

Definition build_index_bob (self : t) : result t :=
  match rec_dict_bob self, common_bf self with
  | Some _, Some common =>
      revert_index ← microblocks self common (ngram_bob_dict self);
      Ok (set_index_bob self revert_index)
  | _, _ => Raise AssertionError
  end.

(** *** [generate_blocks] *)

(** The loop over [index_alice.items()]. *)
Fixpoint join_loop (index_bob : NGramIndex) (items : NGramIndex)
    (cand_blk_key : nat) (block_dict : CandidateBlockTable)
    : CandidateBlockTable :=
  match items with
  | [] => block_dict
  | (block_id, block_vals) :: rest =>
      match dict_get index_bob block_id with
      | Some bob_block_vals =>
          join_loop index_bob rest (cand_blk_key + 1)
            (dict_set block_dict cand_blk_key (block_vals, bob_block_vals))
      | None => join_loop index_bob rest cand_blk_key block_dict
      end
  end.

Definition set_block_dict (self : t) (bd : CandidateBlockTable) : t :=
  {| num_hash_funct := num_hash_funct self; bf_len := bf_len self;
     bf_cache := bf_cache self;
     alice_bf := alice_bf self; bob_bf := bob_bf self;
     common_bf := common_bf self;
     ngram_alice_dict := ngram_alice_dict self;
     ngram_bob_dict := ngram_bob_dict self;
     rec_dict_alice := rec_dict_alice self; rec_dict_bob := rec_dict_bob self;
     index_alice := index_alice self; index_bob := index_bob self;
     block_dict := Some bd |}.

Definition generate_blocks (self : t) : result (t * nat) :=
  match index_alice self with
  | None => Raise AttributeError
  | Some index_alice =>
      match index_bob self with
      | None => Raise AttributeError
      | Some index_bob =>
          let block_dict := join_loop index_bob index_alice 0 [] in
          Ok (set_block_dict self block_dict, length block_dict)
      end
  end.

End with_config.
End PSig.

(** * Worked inputs

    The reference values of the specification's first scenario, with a few
    records per party. *)

Module Ex.

(** Similarity 1.0 for equal strings and 0.0 otherwise. *)
Definition exact_match (a b : string) : Q :=
  if decide (a = b) then 1%Q else 0%Q.

Definition refs_alice : list string := ["bob"; "rob"; "cat"].
Definition refs_bob : list string := ["bob"; "rod"; "cat"].

Definition recs_alice : SNN.RecordTable :=
  [("a1", ["bob"]); ("a2", ["cat"]); ("a3", ["rob"]); ("a4", ["aaa"]);
   ("a5", ["bz"])].
Definition recs_bob : SNN.RecordTable :=
  [("b1", ["bob"]); ("b2", ["cat"]); ("b3", ["rod"])].

(** An instance after [__init__] and the loading of both parties' records
    and reference values. *)
Definition snn (k0 w0 : Z) (m : SNN.mode) : SNN.t :=
  SNN.mk k0 w0 exact_match 1%Q m (Some refs_alice) (Some refs_bob)
    None None [] [] ∅ ∅ None None (Some recs_alice) (Some recs_bob)
    None None None None None.

(** Alice's position index: the sentinel, then her sorted reference values. *)
Definition positions_alice : gmap Z string :=
  SNN.assign_positions 1%Z (sorted refs_alice) {[ 0%Z := "" ]}.

(** The instance after [build_index_alice([0])] and [build_index_bob([0])]
    with [k = 1], [w = 1] in SIM mode. *)
Definition built : SNN.t :=
  match (self ← SNN.build_index_alice "" (snn 1 1 SNN.SIM) [0];
         SNN.build_index_bob "" self [0]) with
  | Ok self => self
  | _ => snn 1 1 SNN.SIM
  end.

(** Two integer-valued functions of a string, standing in for the two
    digests where a computation needs them. *)
Definition code (s : string) : Z :=
  fold_right (fun c acc => (Z.of_nat (nat_of_ascii c) + 256 * acc)%Z) 0%Z
             (list_ascii_of_string s).
Definition digest1 (s : string) : Z := (code s * 7 + 3)%Z.
Definition digest2 (s : string) : Z := (code s * 13 + 5)%Z.

(** The second scenario: one record per party, three hash functions and
    1800 bits. *)
Definition psig : PSig.t :=
  PSig.init 3 1800 (Some [("1", ["smith"])]) (Some [("1", ["smyth"])]).

(** Alice's n-gram table for bigrams of attribute 0, and the common
    signature of the two parties. *)
Definition ngrams_alice : PSig.NGramIndex :=
  [("sm", ["1"]); ("mi", ["1"]); ("it", ["1"]); ("th", ["1"])].
Definition common : gset Z :=
  match PSig.common_bloom_filter 2 digest1 digest2 psig [0] with
  | Ok (_, bf) => bf
  | _ => ∅
  end.

(** The sorted-neighbourhood instance after both builds, for any [k] and
    [w] (SIM mode). *)
Definition built_with (k0 w0 : Z) : SNN.t :=
  match (self ← SNN.build_index_alice "" (snn k0 w0 SNN.SIM) [0];
         SNN.build_index_bob "" self [0]) with
  | Ok self => self
  | _ => snn k0 w0 SNN.SIM
  end.

(** The p-sig instance after [common_bloom_filter([0])] on bigrams, and
    after the two [build_index] calls that follow. *)
Definition psig_common : PSig.t :=
  match PSig.common_bloom_filter 2 digest1 digest2 psig [0] with
  | Ok (self, _) => self
  | _ => psig
  end.
Definition psig_built : PSig.t :=
  match (self ← PSig.build_index_alice digest1 digest2 psig_common;
         PSig.build_index_bob digest1 digest2 self) with
  | Ok self => self
  | _ => psig_common
  end.

End Ex.

(** * Properties *)

(** ** The runtime pieces *)

Example str_neg : str (-1) = "-1". Proof. reflexivity. Qed.
Example split_key : split "_" "b_0_12_" = ["b"; "0"; "12"; ""]. Proof. reflexivity. Qed.
Example bisect_upper : bisect ["bob"; "cat"; "rob"] "cat" = 2. Proof. reflexivity. Qed.
Example sorted_refs : sorted ["rob"; "bob"; "cat"] = ["bob"; "cat"; "rob"].
Proof. reflexivity. Qed.

Lemma bind_Ok {A B} (m : result A) (f : A → result B) (b : B) :
  m ≫= f = Ok b → ∃ a, m = Ok a ∧ f a = Ok b.
Proof. destruct m as [a| |]; simpl; intros H; try discriminate. by exists a. Qed.

Ltac inv_bind H :=
  let x := fresh "x" in
  let Hx := fresh "Hx" in
  apply bind_Ok in H; destruct H as (x & Hx & H).

(** Decides a closed decidable proposition by evaluation. *)
Ltac by_eval := apply (bool_decide_unpack _); vm_compute; exact I.

Section dict_facts.
Context {K V : Type} `{EqDecision K}.
Implicit Types (d : list (K * V)) (key : K) (v : V).

Lemma dict_get_elem_of d key v : dict_get d key = Some v → (key, v) ∈ d.
Proof.
  induction d as [|[k' v'] d IH]; simpl; [done|].
  destruct (decide (key = k')) as [->|Hne].
  - intros [= ->]. apply list_elem_of_here.
  - intros Hg. apply list_elem_of_further; auto.
Qed.

Lemma dict_getitem_Ok d key v : dict_getitem d key = Ok v → dict_get d key = Some v.
Proof. unfold dict_getitem. destruct (dict_get d key); by intros [= ->]. Qed.

Lemma dict_get_None d key : dict_get d key = None ↔ key ∉ d.*1.
Proof.
  induction d as [|[k' v'] d IH]; simpl.
  - split; [intros _; apply not_elem_of_nil | done].
  - destruct (decide (key = k')) as [->|Hne].
    + split; [done|]. intros Hn. exfalso. apply Hn, list_elem_of_here.
    + rewrite IH, not_elem_of_cons. split; [by intros ?|by intros [_ ?]].
Qed.

Lemma dict_get_wf d key v : dict_wf d → (key, v) ∈ d → dict_get d key = Some v.
Proof.
  unfold dict_wf. induction d as [|[k' v'] d IH]; simpl.
  - intros _ Hin. by apply elem_of_nil in Hin.
  - intros Hnd Hin. apply NoDup_cons in Hnd as [Hk' Hnd].
    apply elem_of_cons in Hin as [[= -> ->]|Hin].
    + by rewrite decide_True.
    + destruct (decide (key = k')) as [->|Hne]; [|auto].
      exfalso. apply Hk'. apply list_elem_of_fmap. by exists (k', v).
Qed.

Lemma dict_set_elem_of d key v key' v' :
  (key', v') ∈ dict_set d key v → (key', v') = (key, v) ∨ (key', v') ∈ d.
Proof.
  induction d as [|[k0 v0] d IH]; simpl.
  - intros Hin. apply list_elem_of_singleton in Hin. by left.
  - destruct (decide (key = k0)) as [->|Hne]; intros Hin;
      apply elem_of_cons in Hin as [Heq|Hin]; auto.
    + right. by apply list_elem_of_further.
    + right. rewrite Heq. apply list_elem_of_here.
    + destruct (IH Hin); auto. right. by apply list_elem_of_further.
Qed.

Lemma dict_del_elem_of d key key' v' :
  (key', v') ∈ dict_del d key → (key', v') ∈ d.
Proof.
  induction d as [|[k0 v0] d IH]; simpl; [done|].
  destruct (decide (key = k0)) as [->|Hne]; intros Hin.
  - by apply list_elem_of_further.
  - apply elem_of_cons in Hin as [->|Hin]; [apply list_elem_of_here|].
    apply list_elem_of_further; auto.
Qed.

Lemma dict_set_fresh d key v : key ∉ d.*1 → dict_set d key v = d ++ [(key, v)].
Proof.
  induction d as [|[k0 v0] d IH]; simpl; [done|].
  intros Hn. apply not_elem_of_cons in Hn as [Hne Hn].
  rewrite decide_False by done. by rewrite IH.
Qed.
End dict_facts.

(** ** Sorted-neighbourhood blocking: bucket sizes *)

Section bucket_size.
Variable SORTED_FIRST_VAL : string.
Variable self : SNN.t.
Variable ref_ind_dict : gmap Z string.
Variable ref_val_dict : gmap string (list SNN.rec_id).
Variable len_sort_ref_list : nat.

(** Every bucket of a table holds at least [k] record ids. *)
Local Abbreviation all_at_least_k block_dict :=
  (∀ key ids, (key, ids) ∈ (block_dict : SNN.PartyIndex) →
     (SNN.k self ≤ Z.of_nat (length ids))%Z).

Lemma merge_with_previous_size i blk block_dict blk_keys id blk' block_dict' keys' :
  all_at_least_k block_dict →
  SNN.merge_with_previous i blk block_dict blk_keys
    = Ok (id, blk', block_dict', keys') →
  all_at_least_k block_dict' ∧ (SNN.k self ≤ Z.of_nat (length blk'))%Z.
Proof.
  intros Hall Hm. unfold SNN.merge_with_previous in Hm.
  inv_bind Hm. inv_bind Hm. inv_bind Hm. injection Hm as <- <- <- <-.
  apply dict_getitem_Ok, dict_get_elem_of, Hall in Hx0.
  split.
  - intros key ids Hin. eapply dict_del_elem_of in Hin. by eapply Hall.
  - rewrite length_app. lia.
Qed.

Lemma sweep_size fuel i block_dict blk_keys idx :
  all_at_least_k block_dict →
  SNN.sweep self ref_ind_dict ref_val_dict len_sort_ref_list
    fuel i block_dict blk_keys = Ok idx →
  all_at_least_k idx.
Proof.
  revert i block_dict blk_keys.
  induction fuel as [|fuel IH]; intros i block_dict blk_keys Hall; simpl; [done|].
  destruct (i <? len_sort_ref_list); [|by intros [= <-]].
  intros Hs. inv_bind Hs. destruct x as [j blk]. simpl in Hs.
  inv_bind Hs. destruct x as [[[id blk'] block_dict'] keys']. simpl in Hs.
  refine (IH _ _ _ _ Hs). clear IH Hs.
  assert (all_at_least_k block_dict'
          ∧ (SNN.k self ≤ Z.of_nat (length blk'))%Z) as [Hall' Hblk].
  { destruct (Z.of_nat (length blk) <? SNN.k self)%Z eqn:Hlt.
    - by eapply merge_with_previous_size.
    - injection Hx0 as <- <- <- <-. split; [done|]. apply Z.ltb_ge in Hlt. lia. }
  intros key ids Hin. apply dict_set_elem_of in Hin as [[= -> ->]|Hin]; [done|].
  by eapply Hall'.
Qed.
End bucket_size.

(** C1. In SIM mode every bucket of the index that
    [__generate_sorted_index__] returns holds at least [k] record ids (the
    length of its id list). An undersized trailing group is merged into an
    earlier bucket; when there is none to merge into, the call raises
    [StopIteration] and returns no index, so no returned bucket is ever
    undersized, also when the party has fewer than [k] records. *)
Theorem generate_sorted_index_min_bucket_size
    (SORTED_FIRST_VAL : string) (self : SNN.t)
    (rec_dict : option SNN.RecordTable) (attr_select_list : list nat)
    (sort_ref_val_list : list string) (ref_ind_dict : option (gmap Z string))
    (idx : SNN.PartyIndex) :
  SNN.sim_or_size self = SNN.SIM →
  SNN.generate_sorted_index SORTED_FIRST_VAL self rec_dict attr_select_list
    sort_ref_val_list ref_ind_dict = Ok idx →
  ∀ key ids, (key, ids) ∈ idx → (SNN.k self ≤ Z.of_nat (length ids))%Z.
Proof.
  intros Hmode Hg. unfold SNN.generate_sorted_index in Hg.
  destruct rec_dict as [recs|]; [|done].
  destruct ref_ind_dict as [d|]; [|done].
  inv_bind Hg. rewrite Hmode in Hg.
  eapply sweep_size; [|exact Hg].
  intros key ids Hin. by apply elem_of_nil in Hin.
Qed.

Lemma generate_sorted_index_min_bucket_size_witness :
  SNN.generate_sorted_index "" (Ex.snn 2 1 SNN.SIM) (Some Ex.recs_alice) [0]
    ["bob"; "cat"; "rob"] (Some Ex.positions_alice)
    = Ok [("b_0_1_2_", ["a2"; "a4"; "a1"; "a5"])]
  ∧ (2 ≤ Z.of_nat (length ["a2"; "a4"; "a1"; "a5"]))%Z.
Proof.
  assert (SNN.generate_sorted_index "" (Ex.snn 2 1 SNN.SIM) (Some Ex.recs_alice)
            [0] ["bob"; "cat"; "rob"] (Some Ex.positions_alice)
          = Ok [("b_0_1_2_", ["a2"; "a4"; "a1"; "a5"])]) as Hrun
    by (vm_compute; reflexivity).
  split; [exact Hrun|].
  apply (generate_sorted_index_min_bucket_size "" (Ex.snn 2 1 SNN.SIM)
           (Some Ex.recs_alice) [0] ["bob"; "cat"; "rob"]
           (Some Ex.positions_alice) _ eq_refl Hrun "b_0_1_2_").
  apply list_elem_of_here.
Defined.

(** ** Sorted-neighbourhood blocking: which records reach a bucket *)

Lemma getitem_Ok `{Countable K} {V} (d : gmap K V) (key : K) (v : V) :
  getitem d key = Ok v → d !! key = Some v.
Proof. unfold getitem. destruct (d !! key); by intros [= ->]. Qed.

Lemma index_Ok {A} (l : list A) (i : nat) (v : A) :
  index l i = Ok v → l !! i = Some v.
Proof. unfold index. destruct (l !! i); by intros [= ->]. Qed.

(** A value that no element exceeds is inserted after the last element. *)
Lemma bisect_loop_at_end fuel a x lo :
  (∀ y, y ∈ a → String.ltb x y = false) →
  lo ≤ length a → length a - lo ≤ fuel →
  bisect_loop fuel a x lo (length a) = length a.
Proof.
  intros Hge. revert lo.
  induction fuel as [|fuel IH]; intros lo Hlo Hfuel; cbn [bisect_loop].
  - lia.
  - destruct (lo <? length a) eqn:Hlt.
    + apply Nat.ltb_lt in Hlt.
      assert ((lo + length a) `div` 2 < length a) as Hmid
        by (apply Nat.Div0.div_lt_upper_bound; lia).
      assert (lo ≤ (lo + length a) `div` 2) as Hmid'
        by (apply Nat.div_le_lower_bound; lia).
      destruct (lookup_lt_is_Some_2 a _ Hmid) as [y Hy]. rewrite Hy.
      rewrite (Hge y) by (eapply list_elem_of_lookup_2; exact Hy).
      apply IH; lia.
    + apply Nat.ltb_ge in Hlt. lia.
Qed.

Lemma bisect_at_end a x :
  (∀ y, y ∈ a → String.ltb x y = false) → bisect a x = length a.
Proof. intros Hge. unfold bisect. apply bisect_loop_at_end; [done|lia|lia]. Qed.

(** Position [ind + n] receives the [n]-th value of the list. *)
Lemma assign_positions_lookup l ind d (z : Z) :
  SNN.assign_positions ind l d !! z =
    if decide (ind ≤ z < ind + Z.of_nat (length l))%Z
    then l !! Z.to_nat (z - ind) else d !! z.
Proof.
  revert ind d. induction l as [|v l IH]; intros ind d; simpl.
  - rewrite decide_False by lia. done.
  - rewrite IH. destruct (decide (ind + 1 ≤ z < ind + 1 + Z.of_nat (length l))%Z).
    + rewrite decide_True by lia.
      replace (Z.to_nat (z - ind)) with (S (Z.to_nat (z - (ind + 1)))) by lia. done.
    + destruct (decide (z = ind)) as [->|Hne].
      * rewrite decide_True by lia. rewrite lookup_insert_eq.
        by replace (Z.to_nat (ind - ind)) with 0 by lia.
      * rewrite decide_False by lia. by rewrite lookup_insert_ne.
Qed.

(** The position index of a party is the sentinel followed by the sorted
    reference values. *)
Lemma sort_ref_values_lookup SENT refs d srt (p : nat) :
  SNN.sort_ref_values SENT (Some refs) = Ok (d, srt) →
  d !! Z.of_nat p = (SENT :: srt) !! p ∧ srt = sorted refs.
Proof.
  intros [= <- <-]. split; [|done]. rewrite assign_positions_lookup.
  destruct p as [|p].
  - rewrite decide_False by lia. change (Z.of_nat 0) with 0%Z.
    by rewrite lookup_singleton_eq.
  - change ((SENT :: sorted refs) !! S p) with (sorted refs !! p).
    destruct (decide _) as [Hin|Hout].
    + f_equal. lia.
    + rewrite lookup_singleton_ne by lia. symmetry. apply lookup_ge_None. lia.
Qed.

Lemma empty_ref_val_dict_lookup SENT srt v ids :
  SNN.empty_ref_val_dict SENT srt !! v = Some ids → ids = [].
Proof.
  unfold SNN.empty_ref_val_dict.
  assert (∀ d0 : gmap string (list SNN.rec_id),
            (∀ v ids, d0 !! v = Some ids → ids = []) →
            ∀ v ids, foldl (fun d ref_val => <[ref_val := []]> d) d0 srt !! v
                     = Some ids → ids = []) as Hgen.
  { induction srt as [|r srt IH]; intros d0 Hd0; simpl; [done|].
    apply IH. intros v' ids'. destruct (decide (r = v')) as [->|Hne].
    - rewrite lookup_insert_eq. by intros [= <-].
    - rewrite lookup_insert_ne by done. apply Hd0. }
  apply Hgen. intros v' ids'. destruct (decide (SENT = v')) as [->|Hne].
  - rewrite lookup_insert_eq. by intros [= <-].
  - rewrite lookup_insert_ne by done. by rewrite lookup_empty.
Qed.

Section coverage.
Variable self : SNN.t.
Variable attr_select_list : list nat.
Variable sort_ref_val_list : list string.
Variable ref_ind_dict : gmap Z string.
Variable rec_dict : SNN.RecordTable.

(** Every id filed under a reference value belongs to a record of the table
    whose sort key bisects to a position holding that value. *)
Local Abbreviation filed_by_bisect ref_val_dict :=
  (∀ v ids x, (ref_val_dict : gmap string (list SNN.rec_id)) !! v = Some ids →
     x ∈ ids →
     ∃ rec_list sk, (x, rec_list) ∈ rec_dict
       ∧ SNN.sort_key attr_select_list rec_list "" = Ok sk
       ∧ ref_ind_dict !! Z.of_nat (bisect sort_ref_val_list sk) = Some v).

Lemma insert_records_filed items d d' :
  (∀ item, item ∈ items → item ∈ rec_dict) →
  filed_by_bisect d →
  SNN.insert_records attr_select_list sort_ref_val_list ref_ind_dict items d
    = Ok d' →
  filed_by_bisect d'.
Proof.
  revert d. induction items as [|[rid rec_list] items IH]; intros d Hsub Hd; simpl.
  - by intros [= <-].
  - intros Hi. inv_bind Hi. inv_bind Hi. inv_bind Hi.
    apply getitem_Ok in Hx0, Hx1.
    refine (IH _ _ _ Hi).
    + intros item Hin. apply Hsub. by apply list_elem_of_further.
    + intros v ids y. destruct (decide (x0 = v)) as [->|Hne].
      * rewrite lookup_insert_eq. intros [= <-] Hy.
        apply elem_of_app in Hy as [Hy|Hy]; [by eapply Hd|].
        apply list_elem_of_singleton in Hy as ->.
        exists rec_list, x. split; [apply Hsub, list_elem_of_here|done].
      * rewrite lookup_insert_ne by done. apply Hd.
Qed.

Variable ref_val_dict : gmap string (list SNN.rec_id).
Variable len_sort_ref_list : nat.

(** Every id of a group was filed under the value of a swept position. *)
Local Abbreviation from_swept_positions blk :=
  (∀ x, x ∈ (blk : list SNN.rec_id) →
     ∃ p v ids, p < len_sort_ref_list
       ∧ ref_ind_dict !! Z.of_nat p = Some v
       ∧ ref_val_dict !! v = Some ids ∧ x ∈ ids).

Lemma grow_from_swept fuel i j num blk sim j' blk' :
  from_swept_positions blk →
  SNN.grow self ref_ind_dict ref_val_dict len_sort_ref_list
    fuel i j num blk sim = Ok (j', blk') →
  from_swept_positions blk'.
Proof.
  revert j num blk sim. induction fuel as [|fuel IH];
    intros j num blk sim Hblk; simpl; [done|].
  destruct (_ || _) eqn:Hcond; [|by intros [= <- <-]].
  assert (i + j < len_sort_ref_list) as Hlt.
  { apply orb_true_iff in Hcond as [Hc|Hc];
      apply andb_true_iff in Hc as [_ Hc]; by apply Nat.ltb_lt in Hc. }
  intros Hg. inv_bind Hg. inv_bind Hg. inv_bind Hg.
  apply getitem_Ok in Hx, Hx0.
  refine (IH _ _ _ _ _ Hg).
  intros y Hy. apply elem_of_app in Hy as [Hy|Hy]; [by apply Hblk|].
  by exists (i + j), x, x0.
Qed.

#[local] Arguments SNN.grow : simpl never.

Lemma sweep_from_swept fuel i block_dict blk_keys idx :
  (∀ key ids, (key, ids) ∈ block_dict → from_swept_positions ids) →
  SNN.sweep self ref_ind_dict ref_val_dict len_sort_ref_list
    fuel i block_dict blk_keys = Ok idx →
  ∀ key ids, (key, ids) ∈ idx → from_swept_positions ids.
Proof.
  revert i block_dict blk_keys.
  induction fuel as [|fuel IH]; intros i block_dict blk_keys Hall; simpl; [done|].
  destruct (i <? len_sort_ref_list); [|by intros [= <-]].
  intros Hs. inv_bind Hs. destruct x as [j blk]. simpl in Hs.
  inv_bind Hs. destruct x as [[[id blk'] block_dict'] keys']. simpl in Hs.
  refine (IH _ _ _ _ Hs). clear IH Hs.
  assert (from_swept_positions blk) as Hgrow.
  { eapply grow_from_swept; [|exact Hx]. intros y Hy. by apply elem_of_nil in Hy. }
  assert ((∀ key ids, (key, ids) ∈ block_dict' → from_swept_positions ids)
          ∧ from_swept_positions blk') as [Hall' Hblk].
  { destruct (Z.of_nat (length blk) <? SNN.k self)%Z.
    - unfold SNN.merge_with_previous in Hx0.
      inv_bind Hx0. inv_bind Hx0. inv_bind Hx0. injection Hx0 as <- <- <- <-.
      apply dict_getitem_Ok, dict_get_elem_of in Hx2. split.
      + intros key ids Hin. eapply dict_del_elem_of in Hin. by eapply Hall.
      + intros y Hy. apply elem_of_app in Hy as [Hy|Hy]; [by apply Hgrow|].
        by eapply Hall.
    - by injection Hx0 as <- <- <- <-. }
  intros key ids Hin. apply dict_set_elem_of in Hin as [[= -> ->]|Hin]; [done|].
  by eapply Hall'.
Qed.
End coverage.

(** C3. The returned index need not cover the record table. A record whose
    sort key is not below any reference value is filed at position [N], the
    bucket of the largest reference value; the sweep visits positions [0] to
    [N - 1] only, so when that value is held by no earlier position (the
    reference values are pairwise distinct and differ from the sentinel) the
    record id is in no bucket of the index. *)
Theorem record_at_last_position_in_no_bucket
    (SORTED_FIRST_VAL : string) (self : SNN.t) (refs : list string)
    (rec_dict : SNN.RecordTable) (attr_select_list : list nat)
    (rid : SNN.rec_id) (rec_list : list string) (sk : string)
    (ref_ind_dict : gmap Z string) (sort_ref_val_list : list string)
    (idx : SNN.PartyIndex) :
  NoDup (SORTED_FIRST_VAL :: refs) →
  dict_wf rec_dict →
  (rid, rec_list) ∈ rec_dict →
  SNN.sort_key attr_select_list rec_list "" = Ok sk →
  (∀ r, r ∈ refs → String.ltb sk r = false) →
  SNN.sort_ref_values SORTED_FIRST_VAL (Some refs)
    = Ok (ref_ind_dict, sort_ref_val_list) →
  SNN.generate_sorted_index SORTED_FIRST_VAL self (Some rec_dict)
    attr_select_list sort_ref_val_list (Some ref_ind_dict) = Ok idx →
  ∀ key ids, (key, ids) ∈ idx → rid ∉ ids.
Proof.
  intros Hnd Hwf Hrec Hsk Hge Hsort Hg key ids Hin Hrid.
  unfold SNN.generate_sorted_index in Hg. inv_bind Hg.
  destruct (SNN.sim_or_size self).
  2: { injection Hg as <-. by apply elem_of_nil in Hin. }
  destruct (sweep_from_swept _ _ _ _ _ _ _ _ _
              ltac:(intros ? ? H; by apply elem_of_nil in H) Hg _ _ Hin _ Hrid)
    as (p & v & ids' & Hp & Hpv & Hv & Hrid').
  destruct (insert_records_filed attr_select_list sort_ref_val_list ref_ind_dict
              rec_dict rec_dict _ x ltac:(done)
              ltac:(intros ? ? ? H%empty_ref_val_dict_lookup ?;
                    subst; by apply elem_of_nil in H0)
              Hx _ _ _ Hv Hrid')
    as (rl & sk' & Hrl & Hsk' & Hpos).
  apply (dict_get_wf _ _ _ Hwf) in Hrl, Hrec.
  rewrite Hrl in Hrec. injection Hrec as ->.
  rewrite Hsk in Hsk'. injection Hsk' as <-.
  destruct (sort_ref_values_lookup _ _ _ _ p Hsort) as [Hlp Hsrt].
  destruct (sort_ref_values_lookup _ _ _ _ (length sort_ref_val_list) Hsort)
    as [Hln _].
  assert (sort_ref_val_list ≡ₚ refs) as Hperm
    by (rewrite Hsrt; apply merge_sort_Permutation).
  rewrite bisect_at_end in Hpos.
  2: { intros y Hy. apply Hge. by rewrite <- Hperm. }
  rewrite Hlp in Hpv. rewrite Hln in Hpos.
  assert (NoDup (SORTED_FIRST_VAL :: sort_ref_val_list)) as Hnd'
    by (by rewrite Hperm).
  pose proof (NoDup_lookup _ _ _ _ Hnd' Hpv Hpos). lia.
Qed.

Lemma record_at_last_position_in_no_bucket_witness :
  SNN.generate_sorted_index "" (Ex.snn 1 1 SNN.SIM) (Some Ex.recs_alice) [0]
    ["bob"; "cat"; "rob"] (Some Ex.positions_alice)
    = Ok [("b_0_1_", ["a4"; "a1"; "a5"]); ("b_2_", ["a2"])]
  ∧ ("a3" ∉ ["a4"; "a1"; "a5"]) ∧ ("a3" ∉ ["a2"]).
Proof.
  assert (SNN.generate_sorted_index "" (Ex.snn 1 1 SNN.SIM) (Some Ex.recs_alice)
            [0] ["bob"; "cat"; "rob"] (Some Ex.positions_alice)
          = Ok [("b_0_1_", ["a4"; "a1"; "a5"]); ("b_2_", ["a2"])]) as Hrun
    by (vm_compute; reflexivity).
  assert (∀ key ids,
            (key, ids) ∈ [("b_0_1_", ["a4"; "a1"; "a5"]); ("b_2_", ["a2"])] →
            "a3" ∉ ids) as Habsent.
  { apply (record_at_last_position_in_no_bucket "" (Ex.snn 1 1 SNN.SIM)
             Ex.refs_alice Ex.recs_alice [0] "a3" ["rob"] "rob"
             Ex.positions_alice ["bob"; "cat"; "rob"]).
    - by_eval.
    - unfold dict_wf. by_eval.
    - by_eval.
    - reflexivity.
    - apply Forall_forall. by_eval.
    - reflexivity.
    - exact Hrun. }
  split; [exact Hrun|]. split.
  - apply (Habsent "b_0_1_"). by_eval.
  - apply (Habsent "b_2_"). by_eval.
Defined.

(** ** The sliding window: every row is a segment of the list *)

Section window_facts.
Context {A : Type}.
Implicit Types (l : list A).

Lemma tail_drop l m : tail (drop m l) = drop (S m) l.
Proof.
  revert l. induction m as [|m IH]; intros [|x l]; by simpl.
Qed.

Lemma mapM_head_drops l s n r :
  mapM head ((fun m => drop m l) <$> seq s n) = Some r →
  r = take n (drop s l) ∧ length r = n.
Proof.
  revert s r. induction n as [|n IH]; intros s r; simpl.
  - intros [= <-]. by rewrite take_0.
  - destruct (head (drop s l)) as [y|] eqn:Hy; simpl; [|done].
    destruct (mapM head _) as [ys|] eqn:Hys; simpl; [|done].
    intros [= <-]. apply IH in Hys as [-> Hlen].
    rewrite head_lookup, lookup_drop, Nat.add_0_r in Hy.
    rewrite (drop_S _ _ _ Hy). simpl. by rewrite Hlen.
Qed.

Lemma zip_rows_segments l n row :
  row ∈ SNN.zip_rows l ((fun m => drop (S m) l) <$> seq 0 n) →
  ∃ t, row = take (S n) (drop t l) ∧ t + S n ≤ length l.
Proof.
  revert row. induction l as [|x l IH]; intros row; simpl.
  - intros H. by apply elem_of_nil in H.
  - destruct (mapM head _) as [r|] eqn:Hr; [|intros H; by apply elem_of_nil in H].
    apply mapM_head_drops in Hr as [-> Hlen]. rewrite drop_0 in *.
    intros Hin. apply elem_of_cons in Hin as [->|Hin].
    + exists 0. split; [done|]. rewrite length_take in Hlen. simpl. lia.
    + rewrite <- list_fmap_compose in Hin.
      rewrite (list_fmap_ext _ (fun m => drop (S m) l) (seq 0 n)) in Hin
        by (intros; simpl; apply tail_drop).
      apply IH in Hin as (t & -> & Ht). exists (S t). split; [done|]. simpl. lia.
Qed.

Lemma window_segments l size row :
  row ∈ SNN.window l size →
  ∃ t n, size = S n ∧ row = take (S n) (drop t l) ∧ t + S n ≤ length l.
Proof.
  unfold SNN.window. destruct size as [|n]; simpl.
  - intros H. by apply elem_of_nil in H.
  - rewrite drop_0, <- fmap_S_seq, <- list_fmap_compose. intros Hin.
    apply zip_rows_segments in Hin as (t & -> & Ht). by exists t, n.
Qed.
End window_facts.

(** ** One window of [generate_blocks] *)

Lemma list_index_lookup `{EqDecision A} (l : list A) (i : nat) (x : A) :
  NoDup l → l !! i = Some x → list_index l x = Ok i.
Proof.
  revert i. induction l as [|y l IH]; intros i Hnd Hi; [done|].
  apply NoDup_cons in Hnd as [Hy Hnd]. simpl.
  destruct i as [|i]; simpl in Hi.
  - injection Hi as ->. by rewrite decide_True.
  - rewrite decide_False.
    + by rewrite (IH i Hnd Hi).
    + intros ->. apply Hy. by eapply list_elem_of_lookup_2.
Qed.

Lemma list_remove_NoDup `{EqDecision A} (l l' : list A) (x : A) :
  list_remove l x = Ok l' → NoDup l → NoDup l'.
Proof.
  revert l'. induction l as [|y l IH]; intros l'; simpl; [done|].
  intros Hr Hnd. apply NoDup_cons in Hnd as [Hy Hnd].
  destruct (decide (x = y)) as [->|Hne]; [by injection Hr as <-|].
  inv_bind Hr. injection Hr as <-.
  assert (∀ l0 l1, list_remove l0 x = Ok l1 → ∀ z, z ∈ l1 → z ∈ l0) as Hsub.
  { clear. induction l0 as [|a l0 IH0]; intros l1; simpl; [done|].
    destruct (decide (x = a)) as [->|Hne].
    - intros [= <-] z Hz. by apply list_elem_of_further.
    - intros Hr. inv_bind Hr. injection Hr as <-. intros z Hz.
      apply elem_of_cons in Hz as [->|Hz]; [apply list_elem_of_here|].
      apply list_elem_of_further. by eapply IH0. }
  apply NoDup_cons. split; [|by apply IH].
  intros Hin. apply Hy. by eapply Hsub.
Qed.

Lemma rep_val_union_NoDup SENT alice bob rep :
  SNN.rep_val_union SENT alice bob = Ok rep → NoDup rep.
Proof.
  unfold SNN.rep_val_union.
  set (l := sorted (elements _)).
  assert (NoDup l) as Hl.
  { unfold l, sorted. rewrite merge_sort_Permutation. apply NoDup_elements. }
  destruct (bool_decide _); [|by intros [= <-]].
  intros Hr. by eapply list_remove_NoDup.
Qed.

Section one_window.
Variable w0 : Z.
Variable alice_rep_vals bob_rep_vals : list string.
Variable rep_val_list : list string.
Hypothesis rep_NoDup : NoDup rep_val_list.

(** The counters count the window's values on each side, and the two lists
    hold exactly those values, each once. *)
Local Abbreviation classified win st :=
  (let '(num_alice_ref, num_bob_ref, this_win_alice_ref, this_win_bob_ref) :=
     (st : SNN.win_state) in
   num_alice_ref = length this_win_alice_ref
   ∧ num_bob_ref = length this_win_bob_ref
   ∧ NoDup this_win_alice_ref ∧ NoDup this_win_bob_ref
   ∧ (∀ x, x ∈ this_win_alice_ref ↔ x ∈ (win : list string) ∧ x ∈ alice_rep_vals)
   ∧ (∀ x, x ∈ this_win_bob_ref ↔ x ∈ win ∧ x ∈ bob_rep_vals)).

Lemma classify_step win st val :
  classified win st → val ∉ win →
  classified (win ++ [val]) (SNN.classify alice_rep_vals bob_rep_vals st val).
Proof.
  destruct st as [[[na nb] wa] wb]. intros (Hna & Hnb & Hda & Hdb & Ha & Hb) Hval.
  unfold SNN.classify.
  assert (val ∉ wa) as Hva by (intros H; apply Ha in H; tauto).
  assert (val ∉ wb) as Hvb by (intros H; apply Hb in H; tauto).
  rewrite (bool_decide_eq_false_2 (val ∈ wa)) by done.
  rewrite (bool_decide_eq_false_2 (val ∈ wb)) by done.
  assert (∀ (side wl : list string),
            (∀ x, x ∈ wl ↔ x ∈ win ∧ x ∈ side) →
            (val ∈ side → ∀ x, x ∈ wl ++ [val] ↔ x ∈ win ++ [val] ∧ x ∈ side)
            ∧ (val ∉ side → ∀ x, x ∈ wl ↔ x ∈ win ++ [val] ∧ x ∈ side)) as Hmem.
  { intros side wl Hwl. split; intros Hs x;
      rewrite ?elem_of_app, ?list_elem_of_singleton, Hwl;
      intuition (subst; auto; done). }
  destruct (Hmem _ _ Ha) as [Ha1 Ha2]. destruct (Hmem _ _ Hb) as [Hb1 Hb2].
  destruct (bool_decide (val ∈ alice_rep_vals)) eqn:Hia;
    [apply bool_decide_eq_true_1 in Hia|apply bool_decide_eq_false_1 in Hia];
  (destruct (bool_decide (val ∈ bob_rep_vals)) eqn:Hib;
    [apply bool_decide_eq_true_1 in Hib|apply bool_decide_eq_false_1 in Hib]);
  rewrite ?length_app; simpl;
  repeat split; auto; try lia;
  try (apply NoDup_app; repeat split; auto using NoDup_singleton;
       intros x Hx Hx'; apply list_elem_of_singleton in Hx'; by subst);
  try (by apply Ha1); try (by apply Ha2); try (by apply Hb1); try (by apply Hb2).
Qed.

Lemma classify_fold pre l st :
  classified pre st → NoDup (pre ++ l) →
  classified (pre ++ l) (foldl (SNN.classify alice_rep_vals bob_rep_vals) st l).
Proof.
  revert pre st. induction l as [|val l IH]; intros pre st Hst Hnd; simpl.
  - by rewrite app_nil_r.
  - rewrite (assoc_L (++) pre [val] l : pre ++ val :: l = (pre ++ [val]) ++ l) in *.
    apply IH; [|done]. apply classify_step; [done|].
    apply NoDup_app in Hnd as [Hnd _]. apply NoDup_app in Hnd as (_ & Hnd & _).
    intros Hin. apply (Hnd _ Hin), list_elem_of_here.
Qed.

Lemma NoDup_segment t m : NoDup (take m (drop t rep_val_list)).
Proof.
  pose proof rep_NoDup as Hnd.
  rewrite <- (take_drop t rep_val_list) in Hnd. apply NoDup_app in Hnd as (_ & _ & Hnd).
  rewrite <- (take_drop m (drop t rep_val_list)) in Hnd.
  by apply NoDup_app in Hnd as (Hnd & _ & _).
Qed.

(** The loop stops with both counters at [w] or more, or with the window
    reaching the end of the sorted union; enough fuel is the number of
    values behind the window plus one. *)
Lemma extend_window_result fuel t m st :
  1 ≤ m → t + m ≤ length rep_val_list →
  length rep_val_list - (t + m) < fuel →
  classified (take m (drop t rep_val_list)) st →
  ∃ m' st',
    SNN.extend_window w0 alice_rep_vals bob_rep_vals rep_val_list fuel
      (take m (drop t rep_val_list)) st
      = Ok (take m' (drop t rep_val_list), st')
    ∧ m ≤ m' ∧ t + m' ≤ length rep_val_list
    ∧ classified (take m' (drop t rep_val_list)) st'
    ∧ ((w0 ≤ Z.of_nat st'.1.1.1 ∧ w0 ≤ Z.of_nat st'.1.1.2)%Z
       ∨ t + m' = length rep_val_list).
Proof.
  revert m st. induction fuel as [|fuel IH]; intros m st Hm Htm Hfuel Hst; [lia|].
  destruct st as [[[na nb] wa] wb]. cbn [SNN.extend_window].
  destruct (_ || _) eqn:Hcond.
  2: { exists m, (na, nb, wa, wb). apply orb_false_iff in Hcond as [H1 H2].
       apply Z.ltb_ge in H1, H2.
       split; [done|]. split; [done|]. split; [done|]. split; [exact Hst|].
       left. by split. }
  assert (length (take m (drop t rep_val_list)) = m) as Hlen
    by (rewrite length_take, length_drop; lia).
  destruct (lookup_lt_is_Some_2 rep_val_list (t + (m - 1))) as [e He]; [lia|].
  assert (take m (drop t rep_val_list) !! (m - 1) = Some e) as Hlast.
  { rewrite lookup_take_lt by lia. by rewrite lookup_drop. }
  assert (index (take m (drop t rep_val_list)) (m - 1) = Ok e) as Hlast'
    by (unfold index; by rewrite Hlast).
  rewrite Hlen, Hlast'. cbn [mbind result_bind].
  rewrite (list_index_lookup _ _ _ rep_NoDup He). cbn [mbind result_bind].
  destruct (t + (m - 1) + 1 <? length rep_val_list) eqn:Hnext.
  - apply Nat.ltb_lt in Hnext.
    destruct (lookup_lt_is_Some_2 rep_val_list (t + (m - 1) + 1)) as [nx Hnx];
      [lia|].
    assert (index rep_val_list (t + (m - 1) + 1) = Ok nx) as Hnx0
      by (unfold index; by rewrite Hnx).
    rewrite Hnx0. cbn [mbind result_bind].
    assert (drop t rep_val_list !! m = Some nx) as Hnx'.
    { rewrite lookup_drop. rewrite <- Hnx. f_equal. lia. }
    rewrite <- (take_S_r _ _ _ Hnx').
    destruct (IH (S m) (SNN.classify alice_rep_vals bob_rep_vals
                          (na, nb, wa, wb) nx)) as (m' & st' & Hrun & Hmm & Hrest);
      [lia|lia|lia| |exists m', st'; split; [done|]; split; [lia|done]].
    rewrite (take_S_r _ _ _ Hnx'). apply classify_step; [done|].
    pose proof (NoDup_segment t (S m)) as Hnd.
    rewrite (take_S_r _ _ _ Hnx') in Hnd.
    apply NoDup_app in Hnd as (_ & Hnd & _).
    intros Hin. apply (Hnd _ Hin), list_elem_of_here.
  - apply Nat.ltb_ge in Hnext. exists m, (na, nb, wa, wb).
    split; [done|]. split; [done|]. split; [done|]. split; [exact Hst|].
    right. lia.
Qed.
End one_window.

(** C6, as the code has it. Every window of the sorted union is processed
    to the end of its [while] loop, which appends next elements of the
    sorted union to it. At that point the two lists hold exactly the
    window's distinct Alice-side and Bob-side values, and either each holds
    at least [w] of them or the window has been extended to the end of the
    sorted union (the [break]). *)
Theorem window_extended_until_w_or_exhausted
    (SORTED_FIRST_VAL : string) (w0 : Z)
    (alice_rep_vals bob_rep_vals rep_val_list each : list string) :
  SNN.rep_val_union SORTED_FIRST_VAL alice_rep_vals bob_rep_vals
    = Ok rep_val_list →
  each ∈ SNN.window rep_val_list (Z.to_nat (w0 * 2)) →
  ∃ win num_alice_ref num_bob_ref this_win_alice_ref this_win_bob_ref,
    SNN.process_window w0 alice_rep_vals bob_rep_vals rep_val_list each
      = Ok (win, (num_alice_ref, num_bob_ref,
                  this_win_alice_ref, this_win_bob_ref))
    ∧ each `prefix_of` win
    ∧ num_alice_ref = length this_win_alice_ref
    ∧ num_bob_ref = length this_win_bob_ref
    ∧ NoDup this_win_alice_ref ∧ NoDup this_win_bob_ref
    ∧ (∀ x, x ∈ this_win_alice_ref ↔ x ∈ win ∧ x ∈ alice_rep_vals)
    ∧ (∀ x, x ∈ this_win_bob_ref ↔ x ∈ win ∧ x ∈ bob_rep_vals)
    ∧ ((w0 ≤ Z.of_nat (length this_win_alice_ref)
        ∧ w0 ≤ Z.of_nat (length this_win_bob_ref))%Z
       ∨ win `suffix_of` rep_val_list).
Proof.
  intros Hrep Heach. apply rep_val_union_NoDup in Hrep.
  apply window_segments in Heach as (t & n & _ & -> & Htn).
  unfold SNN.process_window.
  destruct (extend_window_result w0 alice_rep_vals bob_rep_vals rep_val_list
              Hrep (length rep_val_list) t (S n)
              (foldl (SNN.classify alice_rep_vals bob_rep_vals) (0, 0, [], [])
                     (take (S n) (drop t rep_val_list))))
    as (m' & [[[na nb] wa] wb] & Hrun & Hmm & Htm & Hcl & Hend); [lia|lia|lia| |].
  { apply (classify_fold alice_rep_vals bob_rep_vals [] _ (0, 0, [], [])).
    - split; [done|]. split; [done|].
      split; [apply NoDup_nil_2|]. split; [apply NoDup_nil_2|].
      split; intros y; (split; [intros Hy|intros [Hy _]]; by apply elem_of_nil in Hy).
    - apply NoDup_segment, Hrep. }
  destruct Hcl as (Hna & Hnb & Hda & Hdb & Ha & Hb).
  exists (take m' (drop t rep_val_list)), na, nb, wa, wb.
  split; [exact Hrun|]. split.
  { rewrite <- (Nat.min_l (S n) m') at 1 by lia. rewrite <- take_take.
    apply prefix_take. }
  do 6 (split; [done|]).
  destruct Hend as [Hw|Hex]; [left; simpl in Hw; by rewrite <- Hna, <- Hnb|].
  right. rewrite take_ge by (rewrite length_drop; lia). apply suffix_drop.
Qed.

Lemma window_extended_until_w_or_exhausted_witness :
  SNN.process_window 1 ["bob"; "cat"; "rob"] ["bob"; "cat"; "rod"]
    ["bob"; "cat"; "rob"; "rod"] ["cat"; "rob"]
    = Ok (["cat"; "rob"], (2, 1, ["cat"; "rob"], ["cat"]))
  ∧ ((1 ≤ Z.of_nat (length ["cat"; "rob"]) ∧ 1 ≤ Z.of_nat (length ["cat"]))%Z
     ∨ ["cat"; "rob"] `suffix_of` ["bob"; "cat"; "rob"; "rod"]).
Proof.
  destruct (window_extended_until_w_or_exhausted "" 1
              ["bob"; "cat"; "rob"] ["bob"; "cat"; "rod"]
              ["bob"; "cat"; "rob"; "rod"] ["cat"; "rob"])
    as (win & na & nb & wa & wb & Hrun & _ & _ & _ & _ & _ & _ & _ & Hend).
  - vm_compute. reflexivity.
  - by_eval.
  - assert (SNN.process_window 1 ["bob"; "cat"; "rob"] ["bob"; "cat"; "rod"]
              ["bob"; "cat"; "rob"; "rod"] ["cat"; "rob"]
            = Ok (["cat"; "rob"], (2, 1, ["cat"; "rob"], ["cat"]))) as Hval
      by (vm_compute; reflexivity).
    rewrite Hval in Hrun. injection Hrun as <- <- <- <- <-.
    split; [exact Hval|exact Hend].
Defined.

(** C6 as stated fails at the end of the sorted union: with [w = 2], Alice
    exposing [a], [b], [c], [d] and Bob exposing [d] only, the one window
    cannot be extended, holds a single Bob-side value, and its four pairs
    are emitted all the same. *)
Lemma window_emits_with_fewer_than_w :
  SNN.rep_val_union "" ["a"; "b"; "c"; "d"] ["d"] = Ok ["a"; "b"; "c"; "d"]
  ∧ ["a"; "b"; "c"; "d"] ∈ SNN.window ["a"; "b"; "c"; "d"] (Z.to_nat (2 * 2))
  ∧ SNN.process_window 2 ["a"; "b"; "c"; "d"] ["d"] ["a"; "b"; "c"; "d"]
      ["a"; "b"; "c"; "d"]
    = Ok (["a"; "b"; "c"; "d"], (4, 1, ["a"; "b"; "c"; "d"], ["d"]))
  ∧ ¬ (2 ≤ Z.of_nat (length ["a"; "b"; "c"; "d"])
       ∧ 2 ≤ Z.of_nat (length ["d"]))%Z
  ∧ SNN.candidate_pairs "" 2 ["a"; "b"; "c"; "d"] ["d"]
    = Ok [("a", "d"); ("b", "d"); ("c", "d"); ("d", "d")].
Proof.
  split; [vm_compute; reflexivity|]. split; [by_eval|].
  split; [vm_compute; reflexivity|]. split; [simpl; lia|].
  vm_compute; reflexivity.
Qed.

(** ** The candidate table of [generate_blocks] *)

Lemma emit_pairs_NoDup wa wb cand :
  NoDup cand → NoDup (SNN.emit_pairs wa wb cand).
Proof.
  unfold SNN.emit_pairs. revert cand.
  induction wa as [|a wa IHa]; intros cand Hnd; simpl; [done|].
  apply IHa. clear IHa. revert cand Hnd.
  induction wb as [|b wb IHb]; intros cand Hnd; simpl; [done|].
  apply IHb. destruct (bool_decide _) eqn:Hin; [done|].
  apply bool_decide_eq_false_1 in Hin.
  apply NoDup_app. repeat split; [done| |apply NoDup_singleton].
  intros x Hx Hx'. apply list_elem_of_singleton in Hx'. by subst.
Qed.

Lemma window_loop_NoDup w0 alice bob rep windows cand cand' :
  SNN.window_loop w0 alice bob rep windows cand = Ok cand' →
  NoDup cand → NoDup cand'.
Proof.
  revert cand. induction windows as [|each rest IH]; intros cand; simpl.
  - by intros [= <-].
  - intros Hl Hnd. inv_bind Hl. destruct x as [win [[[na nb] wa] wb]].
    simpl in Hl. eapply IH; [exact Hl|]. by apply emit_pairs_NoDup.
Qed.

Lemma candidate_pairs_NoDup SENT w0 alice bob cand :
  SNN.candidate_pairs SENT w0 alice bob = Ok cand → NoDup cand.
Proof.
  unfold SNN.candidate_pairs. intros Hc. inv_bind Hc.
  destruct (_ <? _)%Z; [done|].
  eapply window_loop_NoDup; [exact Hc|apply NoDup_nil_2].
Qed.

(** The assembly loop appends one entry per candidate pair, under the next
    integer id. *)
Lemma assemble_entries ia ib ai bi cand key0
    (bd0 bd : list (nat * (list SNN.rec_id * list SNN.rec_id))) :
  SNN.assemble ia ib ai bi cand key0 bd0 = Ok bd →
  (∀ key v, (key, v) ∈ bd0 → key < key0) →
  length bd = length bd0 + length cand
  ∧ (∀ i, i < length bd0 → bd !! i = bd0 !! i)
  ∧ ∀ i a b, cand !! i = Some (a, b) →
      ∃ ka kb ra rb,
        ai !! a = Some ka ∧ dict_get ia ka = Some ra
        ∧ bi !! b = Some kb ∧ dict_get ib kb = Some rb
        ∧ bd !! (length bd0 + i) = Some (key0 + i, (ra, rb)).
Proof.
  revert key0 bd0. induction cand as [|[a b] cand IH]; intros key0 bd0; simpl.
  - intros [= <-] _. split; [lia|]. split; [done|]. by intros i a b.
  - intros Ha Hkeys. inv_bind Ha. inv_bind Ha. inv_bind Ha. inv_bind Ha.
    apply getitem_Ok in Hx, Hx1. apply dict_getitem_Ok in Hx0, Hx2.
    rewrite dict_set_fresh in Ha.
    2: { intros Hin. apply list_elem_of_fmap in Hin as ([k' v'] & -> & Hin).
         apply Hkeys in Hin. simpl in Hin. lia. }
    apply IH in Ha as (Hlen & Hpre & Hent).
    2: { intros key v Hin. apply elem_of_app in Hin as [Hin|Hin].
         - apply Hkeys in Hin. lia.
         - apply list_elem_of_singleton in Hin as [= -> ->]. lia. }
    rewrite length_app in Hlen, Hpre, Hent. simpl in Hlen, Hpre, Hent.
    split; [lia|]. split.
    + intros i Hi. rewrite Hpre by lia. by rewrite lookup_app_l.
    + intros [|i] a' b' Hi; simpl in Hi.
      * injection Hi as <- <-. exists x, x1, x0, x2. repeat split; try done.
        rewrite Nat.add_0_r, Hpre by lia.
        rewrite lookup_app_r by lia. by rewrite Nat.sub_diag, Nat.add_0_r.
      * destruct (Hent i a' b' Hi) as (ka & kb & ra & rb & ? & ? & ? & ? & Hbd).
        exists ka, kb, ra, rb. repeat split; try done.
        replace (length bd0 + S i) with (length bd0 + 1 + i) by lia.
        by replace (key0 + S i) with (key0 + 1 + i) by lia.
Qed.

(** C8. A run of [generate_blocks] that returns has a candidate list
    without a repeated (Alice value, Bob value) pair, and its table holds
    one entry per pair, in order, under the ids [0], [1], ...: the record
    ids of the buckets that the two representative indexes give for the
    pair's values. *)
Theorem generate_blocks_no_duplicate_pair
    (SORTED_FIRST_VAL : string) (self self' : SNN.t) (n : nat) :
  SNN.generate_blocks SORTED_FIRST_VAL self = Ok (self', n) →
  ∃ cand_ref_list index_alice index_bob
      (block_dict : list (nat * (list SNN.rec_id * list SNN.rec_id))),
    SNN.index_alice self = Some index_alice
    ∧ SNN.index_bob self = Some index_bob
    ∧ SNN.candidate_pairs SORTED_FIRST_VAL (SNN.w self)
        (SNN.alice_rep_vals self) (SNN.bob_rep_vals self) = Ok cand_ref_list
    ∧ NoDup cand_ref_list
    ∧ SNN.block_dict self' = Some block_dict
    ∧ n = length block_dict
    ∧ length block_dict = length cand_ref_list
    ∧ ∀ i alice_rep bob_rep,
        cand_ref_list !! i = Some (alice_rep, bob_rep) →
        ∃ alice_block bob_block alice_rec_ids bob_rec_ids,
          SNN.alice_rep_index self !! alice_rep = Some alice_block
          ∧ dict_get index_alice alice_block = Some alice_rec_ids
          ∧ SNN.bob_rep_index self !! bob_rep = Some bob_block
          ∧ dict_get index_bob bob_block = Some bob_rec_ids
          ∧ block_dict !! i = Some (i, (alice_rec_ids, bob_rec_ids)).
Proof.
  unfold SNN.generate_blocks. intros Hg.
  destruct (SNN.index_alice self) as [ia|]; [|done].
  destruct (SNN.index_bob self) as [ib|]; [|done].
  inv_bind Hg. inv_bind Hg. injection Hg as <- <-.
  rename x into cand, x0 into bd.
  apply assemble_entries in Hx0 as (Hlen & _ & Hent).
  2: { intros key v Hin. by apply elem_of_nil in Hin. }
  exists cand, ia, ib, bd. do 3 (split; [done|]).
  split; [by eapply candidate_pairs_NoDup|]. do 2 (split; [done|]).
  split; [exact Hlen|]. exact Hent.
Qed.

Lemma generate_blocks_no_duplicate_pair_witness :
  ∃ self' bd,
    SNN.generate_blocks "" Ex.built = Ok (self', 4)
    ∧ NoDup [("bob", "bob"); ("bob", "cat"); ("cat", "bob"); ("cat", "cat")]
    ∧ SNN.block_dict self' = Some bd ∧ length bd = 4.
Proof.
  destruct (SNN.generate_blocks "" Ex.built) as [[self' n]| |] eqn:Hrun;
    [|exfalso; vm_compute in Hrun; discriminate
     |exfalso; vm_compute in Hrun; discriminate].
  destruct (generate_blocks_no_duplicate_pair "" Ex.built self' n Hrun)
    as (cand & ia & ib & bd & _ & _ & Hcand & Hnd & Hbd & Hn & Hlen & _).
  assert (SNN.candidate_pairs "" (SNN.w Ex.built) (SNN.alice_rep_vals Ex.built)
            (SNN.bob_rep_vals Ex.built)
          = Ok [("bob", "bob"); ("bob", "cat"); ("cat", "bob"); ("cat", "cat")])
    as Hval by (vm_compute; reflexivity).
  rewrite Hval in Hcand. injection Hcand as <-.
  exists self', bd. simpl in Hlen. subst n. rewrite Hlen.
  split; [reflexivity|]. split; [exact Hnd|]. split; [exact Hbd|reflexivity].
Defined.

(** ** Rebuilding a party's index on the same instance *)

Section same_parameters.
Variable SORTED_FIRST_VAL : string.
Variables a b : SNN.t.
Hypothesis same_k : SNN.k a = SNN.k b.
Hypothesis same_sim : SNN.sim_measure a = SNN.sim_measure b.
Hypothesis same_threshold : SNN.min_sim_threshold a = SNN.min_sim_threshold b.
Hypothesis same_mode : SNN.sim_or_size a = SNN.sim_or_size b.

Lemma grow_same_parameters d rvd len fuel i j num blk sim :
  SNN.grow a d rvd len fuel i j num blk sim
  = SNN.grow b d rvd len fuel i j num blk sim.
Proof.
  revert j num blk sim. induction fuel as [|fuel IH]; intros j num blk sim;
    simpl; [done|].
  rewrite same_k, same_threshold, same_sim.
  destruct (_ || _); [|done].
  destruct (getitem d (Z.of_nat (i + j))) as [v| |]; simpl; try done.
  destruct (getitem rvd v) as [l| |]; simpl; try done.
  destruct (negb _); simpl; [|apply IH].
  destruct (getitem d _) as [v'| |]; by simpl.
Qed.

#[local] Arguments SNN.grow : simpl never.

Lemma sweep_same_parameters d rvd len fuel i bd keys :
  SNN.sweep a d rvd len fuel i bd keys = SNN.sweep b d rvd len fuel i bd keys.
Proof.
  revert i bd keys. induction fuel as [|fuel IH]; intros i bd keys; simpl; [done|].
  destruct (i <? len); [|done].
  rewrite grow_same_parameters, same_k.
  destruct (SNN.grow b d rvd len (S len) i 0 0 [] 0%Q) as [[j blk]| |];
    simpl; try done.
  destruct (if (Z.of_nat (length blk) <? SNN.k b)%Z then _ else _)
    as [[[[id blk'] bd'] keys']| |]; simpl; try done.
Qed.

Lemma generate_sorted_index_same_parameters rec_dict attrs srt d :
  SNN.generate_sorted_index SORTED_FIRST_VAL a rec_dict attrs srt d
  = SNN.generate_sorted_index SORTED_FIRST_VAL b rec_dict attrs srt d.
Proof.
  unfold SNN.generate_sorted_index.
  destruct rec_dict; [|done]. destruct d; [|done].
  rewrite same_mode.
  destruct (SNN.insert_records _ _ _ _ _); cbn [mbind result_bind]; try done.
  destruct (SNN.sim_or_size b); [|done].
  apply sweep_same_parameters.
Qed.
End same_parameters.

Lemma append_rep_vals_app d rep_refs rep_vals rep_vals' :
  SNN.append_rep_vals d rep_refs rep_vals = Ok rep_vals' →
  ∃ exposed, rep_vals' = rep_vals ++ exposed
    ∧ ∀ other, SNN.append_rep_vals d rep_refs other = Ok (other ++ exposed).
Proof.
  revert rep_vals. induction rep_refs as [|r rest IH]; intros rep_vals; simpl.
  - intros [= <-]. exists []. split; [by rewrite app_nil_r|].
    intros other. by rewrite app_nil_r.
  - intros Ha. inv_bind Ha. apply IH in Ha as (exposed & -> & Hother).
    exists (x :: exposed). split; [by rewrite <- app_assoc|].
    intros other. rewrite Hx. simpl. rewrite Hother. by rewrite <- app_assoc.
Qed.

#[local] Arguments SNN.generate_sorted_index : simpl never.
#[local] Arguments SNN.sort_ref_values : simpl never.
#[local] Arguments SNN.select_rep_ref_vals : simpl never.
#[local] Arguments SNN.append_rep_vals : simpl never.

(** C10. [build_index_alice] and [build_index_bob] append the exposed
    reference values to the party's list without clearing it: a second call
    with the same argument on the same instance succeeds, rebuilds the same
    index and the same representative index, and leaves every exposed value
    of the first call in the list once more. *)
Theorem build_index_appends_rep_vals_again
    (SORTED_FIRST_VAL : string) (self : SNN.t) (attr_select_list : list nat) :
  (∀ self1,
     SNN.build_index_alice SORTED_FIRST_VAL self attr_select_list = Ok self1 →
     ∃ exposed self2,
       SNN.alice_rep_vals self1 = SNN.alice_rep_vals self ++ exposed
       ∧ SNN.build_index_alice SORTED_FIRST_VAL self1 attr_select_list = Ok self2
       ∧ SNN.alice_rep_vals self2
         = SNN.alice_rep_vals self ++ exposed ++ exposed
       ∧ SNN.index_alice self2 = SNN.index_alice self1
       ∧ SNN.alice_rep_index self2 = SNN.alice_rep_index self1)
  ∧ (∀ self1,
       SNN.build_index_bob SORTED_FIRST_VAL self attr_select_list = Ok self1 →
       ∃ exposed self2,
         SNN.bob_rep_vals self1 = SNN.bob_rep_vals self ++ exposed
         ∧ SNN.build_index_bob SORTED_FIRST_VAL self1 attr_select_list = Ok self2
         ∧ SNN.bob_rep_vals self2 = SNN.bob_rep_vals self ++ exposed ++ exposed
         ∧ SNN.index_bob self2 = SNN.index_bob self1
         ∧ SNN.bob_rep_index self2 = SNN.bob_rep_index self1).
Proof.
  split; intros self1 Hb.
  - unfold SNN.build_index_alice in Hb. inv_bind Hb. destruct x as [d srt].
    simpl in Hb. destruct (SNN.rec_dict_alice self) as [recs|] eqn:Hrecs; [|done].
    inv_bind Hb. inv_bind Hb. destruct x0 as [rv ri]. simpl in Hb.
    inv_bind Hb. injection Hb as <-.
    destruct (append_rep_vals_app _ _ _ _ Hx2) as (exposed & -> & Hother).
    exists exposed. eexists. split; [done|]. split.
    + unfold SNN.build_index_alice. simpl. rewrite Hx. simpl.
      rewrite (generate_sorted_index_same_parameters _ _ self) by done.
      rewrite Hx0. simpl. rewrite Hx1. simpl. rewrite Hother. simpl. reflexivity.
    + simpl. by rewrite <- app_assoc.
  - unfold SNN.build_index_bob in Hb. inv_bind Hb. destruct x as [d srt].
    simpl in Hb. destruct (SNN.rec_dict_bob self) as [recs|] eqn:Hrecs; [|done].
    inv_bind Hb. inv_bind Hb. destruct x0 as [rv ri]. simpl in Hb.
    inv_bind Hb. injection Hb as <-.
    destruct (append_rep_vals_app _ _ _ _ Hx2) as (exposed & -> & Hother).
    exists exposed. eexists. split; [done|]. split.
    + unfold SNN.build_index_bob. simpl. rewrite Hx. simpl.
      rewrite (generate_sorted_index_same_parameters _ _ self) by done.
      rewrite Hx0. simpl. rewrite Hx1. simpl. rewrite Hother. simpl. reflexivity.
    + simpl. by rewrite <- app_assoc.
Qed.

Lemma build_index_appends_rep_vals_again_witness :
  ∃ self1 self2,
    SNN.build_index_alice "" (Ex.snn 1 1 SNN.SIM) [0] = Ok self1
    ∧ SNN.build_index_alice "" self1 [0] = Ok self2
    ∧ SNN.alice_rep_vals self1 = [""; "bob"; "cat"]
    ∧ SNN.alice_rep_vals self2 = [""; "bob"; "cat"; ""; "bob"; "cat"]
    ∧ SNN.index_alice self2 = SNN.index_alice self1.
Proof.
  destruct (SNN.build_index_alice "" (Ex.snn 1 1 SNN.SIM) [0])
    as [self1| |] eqn:Hrun;
    [|exfalso; vm_compute in Hrun; discriminate
     |exfalso; vm_compute in Hrun; discriminate].
  destruct (proj1 (build_index_appends_rep_vals_again "" (Ex.snn 1 1 SNN.SIM) [0])
              self1 Hrun)
    as (exposed & self2 & Hone & Hagain & Htwo & Hidx & _).
  assert (SNN.alice_rep_vals self1 = [""; "bob"; "cat"]) as Hval.
  { assert (Ok self1 = SNN.build_index_alice "" (Ex.snn 1 1 SNN.SIM) [0])
      as Heq by done.
    vm_compute in Heq. by injection Heq as ->. }
  rewrite Hval in Hone. simpl in Hone. subst exposed. simpl in Htwo.
  by exists self1, self2.
Defined.

(** ** [generate_blocks] without both indexes *)

(** C9. In either class, [generate_blocks] on an instance whose
    [index_alice] or [index_bob] has not been assigned raises (the read of
    the unassigned attribute is an [AttributeError]); it returns no table,
    empty or not. This covers the instance on which one party's index has
    been built and the other party's has not. *)
Theorem generate_blocks_needs_both_indexes :
  (∀ (SORTED_FIRST_VAL : string) (self : SNN.t),
     SNN.index_alice self = None ∨ SNN.index_bob self = None →
     SNN.generate_blocks SORTED_FIRST_VAL self = Raise AttributeError)
  ∧ (∀ (self : PSig.t),
       PSig.index_alice self = None ∨ PSig.index_bob self = None →
       PSig.generate_blocks self = Raise AttributeError).
Proof.
  split.
  - intros SENT self [Ha|Hb]; unfold SNN.generate_blocks.
    + by rewrite Ha.
    + rewrite Hb. by destruct (SNN.index_alice self).
  - intros self [Ha|Hb]; unfold PSig.generate_blocks.
    + by rewrite Ha.
    + rewrite Hb. by destruct (PSig.index_alice self).
Qed.

Lemma generate_blocks_needs_both_indexes_witness :
  ∃ self1,
    SNN.build_index_alice "" (Ex.snn 1 1 SNN.SIM) [0] = Ok self1
    ∧ SNN.index_alice self1
      = Some [("b_0_1_", ["a4"; "a1"; "a5"]); ("b_2_", ["a2"])]
    ∧ SNN.index_bob self1 = None
    ∧ SNN.generate_blocks "" self1 = Raise AttributeError
    ∧ PSig.generate_blocks (PSig.init 3 1800 None None) = Raise AttributeError.
Proof.
  destruct (SNN.build_index_alice "" (Ex.snn 1 1 SNN.SIM) [0])
    as [self1| |] eqn:Hrun;
    [|exfalso; vm_compute in Hrun; discriminate
     |exfalso; vm_compute in Hrun; discriminate].
  assert (Ok self1 = SNN.build_index_alice "" (Ex.snn 1 1 SNN.SIM) [0])
    as Heq by done.
  vm_compute in Heq. injection Heq as Heq.
  assert (SNN.index_bob self1 = None) as Hbob by (by rewrite Heq).
  exists self1. split; [done|]. split; [by rewrite Heq|]. split; [done|]. split.
  - apply (proj1 generate_blocks_needs_both_indexes "" self1). by right.
  - apply (proj2 generate_blocks_needs_both_indexes). by left.
Defined.

(** ** SIZE mode *)

Lemma generate_sorted_index_SIZE SENT self rec_dict attrs srt d idx :
  SNN.sim_or_size self = SNN.SIZE →
  SNN.generate_sorted_index SENT self rec_dict attrs srt d = Ok idx →
  idx = [].
Proof.
  intros Hmode. unfold SNN.generate_sorted_index.
  destruct rec_dict; [|done]. destruct d; [|done].
  intros Hg. inv_bind Hg. rewrite Hmode in Hg. by injection Hg as <-.
Qed.

(** C4 fails on the code. The function has a branch for ['SIM'] only: in
    SIZE mode, which [__init__] accepts and documents as merging blocks
    until each holds [k] record ids, the records are filed and the empty
    table is returned. Here for Alice's five records and [k = 2]. *)
Theorem generate_sorted_index_SIZE_is_empty :
  SNN.generate_sorted_index "" (Ex.snn 2 1 SNN.SIZE) (Some Ex.recs_alice) [0]
    ["bob"; "cat"; "rob"] (Some Ex.positions_alice) = Ok [].
Proof. vm_compute. reflexivity. Qed.

(** ** Bloom signatures *)

Lemma bloom_loop_spec int1 int2 (len : Z) range (bloom_set : gset Z) :
  (0 < len)%Z →
  ∃ bloom_set',
    PSig.bloom_loop int1 int2 len range bloom_set = Ok bloom_set'
    ∧ (∀ x, x ∈ bloom_set' → x ∈ bloom_set ∨ (0 ≤ x < len)%Z)
    ∧ size bloom_set' ≤ size bloom_set + length range.
Proof.
  intros Hlen. revert bloom_set.
  induction range as [|i range IH]; intros bloom_set; simpl.
  - exists bloom_set. split; [done|]. split; [by left|lia].
  - rewrite (proj2 (Z.eqb_neq len 0)) by lia.
    destruct (IH (bloom_set ∪ {[((int1 + Z.of_nat i * int2) `mod` len)%Z]}))
      as (bs & Hrun & Hin & Hsize).
    exists bs. split; [done|]. split.
    + intros x Hx. destruct (Hin x Hx) as [Hu|Hr]; [|by right].
      apply elem_of_union in Hu as [Hu|Hu]; [by left|].
      apply elem_of_singleton in Hu as ->. right. by apply Z.mod_pos_bound.
    + rewrite size_union_alt in Hsize.
      assert (size (({[((int1 + Z.of_nat i * int2) `mod` len)%Z]} : gset Z)
                      ∖ bloom_set) ≤ 1) as Hone.
      { rewrite <- (size_singleton (C := gset Z)
                      ((int1 + Z.of_nat i * int2) `mod` len)%Z).
        apply subseteq_size, subseteq_difference_l. done. }
      lia.
Qed.

(** C7. For a positive filter length, [ngram2bf] returns a set of bit
    positions in [[0, bf_len)] with at most [num_hash_funct] elements, and
    the set depends on the instance through [bf_len] and [num_hash_funct]
    only: whatever else the instance holds (the cache, the tables), the same
    string gives the identical set. *)
Theorem ngram2bf_in_range_small_deterministic
    (h1 h2 : string → Z) (self : PSig.t) (s : string) :
  (0 < PSig.bf_len self)%Z →
  ∃ bf,
    PSig.ngram2bf h1 h2 self s = Ok bf
    ∧ (∀ x, x ∈ bf → (0 ≤ x < PSig.bf_len self)%Z)
    ∧ size bf ≤ PSig.num_hash_funct self
    ∧ ∀ other : PSig.t,
        PSig.bf_len other = PSig.bf_len self →
        PSig.num_hash_funct other = PSig.num_hash_funct self →
        PSig.ngram2bf h1 h2 other s = Ok bf.
Proof.
  intros Hlen. unfold PSig.ngram2bf.
  destruct (bloom_loop_spec (h1 s) (h2 s) (PSig.bf_len self)
              (seq 0 (PSig.num_hash_funct self)) ∅ Hlen)
    as (bf & Hrun & Hin & Hsize).
  exists bf. split; [done|]. split.
  - intros x Hx. destruct (Hin x Hx) as [He|Hr]; [|done].
    by apply elem_of_empty in He.
  - split.
    + rewrite size_empty, length_seq in Hsize. lia.
    + intros other -> ->. exact Hrun.
Qed.

Lemma ngram2bf_in_range_small_deterministic_witness :
  ∃ bf,
    PSig.ngram2bf Ex.digest1 Ex.digest2 Ex.psig "sm" = Ok bf
    ∧ (∀ x, x ∈ bf → (0 ≤ x < 1800)%Z)
    ∧ size bf ≤ 3
    ∧ PSig.ngram2bf Ex.digest1 Ex.digest2
        (PSig.set_common_bf Ex.psig Ex.common) "sm" = Ok bf.
Proof.
  destruct (ngram2bf_in_range_small_deterministic Ex.digest1 Ex.digest2
              Ex.psig "sm") as (bf & Hrun & Hin & Hsize & Hdet); [done|].
  exists bf. split; [done|]. split; [done|]. split; [done|]. by apply Hdet.
Defined.

(** ** Microblocks *)

Section dict_set_facts.
Context {K V : Type} `{EqDecision K}.

Lemma dict_get_set (d : list (K * V)) (key g : K) (v : V) :
  dict_get (dict_set d key v) g
  = if decide (g = key) then Some v else dict_get d g.
Proof.
  induction d as [|[k0 v0] d IH]; simpl.
  - by destruct (decide (g = key)).
  - destruct (decide (key = k0)) as [->|Hne]; simpl.
    + by destruct (decide (g = k0)).
    + rewrite IH. destruct (decide (g = k0)) as [->|Hg]; [|done].
      by rewrite decide_False.
Qed.
End dict_set_facts.

#[local] Arguments PSig.ngram2bf : simpl never.

Lemma microblocks_loop_kept h1 h2 self common
    (items revert_index idx : list (string * list PSig.rec_id)) :
  dict_wf items →
  (∀ g, g ∈ items.*1 → dict_get revert_index g = None) →
  PSig.microblocks_loop h1 h2 self common items revert_index = Ok idx →
  ∀ ngram ids,
    dict_get idx ngram = Some ids
    ↔ dict_get revert_index ngram = Some ids
      ∨ (dict_get items ngram = Some ids
         ∧ ∃ bf, PSig.ngram2bf h1 h2 self ngram = Ok bf ∧ bf ⊆ common).
Proof.
  unfold dict_wf. revert revert_index.
  induction items as [|[ng value] items IH]; intros acc Hwf Hfresh; simpl.
  - intros [= <-] ngram ids. split; [by left|]. by intros [?|[? _]].
  - intros Hm. inv_bind Hm. rename x into bf.
    apply NoDup_cons in Hwf as [Hng Hwf].
    assert (dict_get acc ng = None) as Hacc by apply Hfresh, list_elem_of_here.
    set (acc' := if bool_decide (bf ∩ common = bf)
                 then dict_set acc ng value else acc) in Hm.
    assert (∀ g, g ∈ items.*1 → dict_get acc' g = None) as Hfresh'.
    { intros g Hg. unfold acc'.
      destruct (bool_decide _); [|by apply Hfresh, list_elem_of_further].
      rewrite dict_get_set. destruct (decide (g = ng)) as [->|Hne].
      - by exfalso.
      - by apply Hfresh, list_elem_of_further. }
    apply dict_get_None in Hng. simpl in Hng.
    intros ngram ids. rewrite (IH acc' Hwf Hfresh' Hm ngram ids).
    destruct (decide (ngram = ng)) as [->|Hne].
    + rewrite Hng, Hacc. unfold acc'.
      destruct (bool_decide (bf ∩ common = bf)) eqn:Hsub.
      * apply bool_decide_eq_true_1, subseteq_intersection_2_L in Hsub.
        rewrite dict_get_set, decide_True by done. split.
        -- intros [Hv|[Hv _]]; [|done]. right. split; [done|]. by exists bf.
        -- intros [Hv|[Hv _]]; [done|by left].
      * apply bool_decide_eq_false_1 in Hsub. rewrite Hacc. split.
        -- by intros [?|[? _]].
        -- intros [?|[_ (bf' & Hbf' & Hsub')]]; [done|].
           rewrite Hx in Hbf'. injection Hbf' as <-.
           exfalso. by apply Hsub, subseteq_intersection_1_L.
    + assert (dict_get acc' ngram = dict_get acc ngram) as ->.
      { unfold acc'. destruct (bool_decide _); [|done].
        by rewrite dict_get_set, decide_False. }
      done.
Qed.

(** C2. The table that [microblocks] returns has an entry for an n-gram
    exactly when the party's n-gram table has it and the n-gram's own
    Bloom filter is a subset of the common signature; the entry is then the
    same id list. *)
Theorem microblocks_keeps_exactly_subsets
    (h1 h2 : string → Z) (self : PSig.t) (common : gset Z)
    (ngram_dict idx : list (string * list PSig.rec_id)) :
  dict_wf ngram_dict →
  PSig.microblocks h1 h2 self common ngram_dict = Ok idx →
  ∀ ngram ids,
    dict_get idx ngram = Some ids
    ↔ dict_get ngram_dict ngram = Some ids
      ∧ ∃ bf, PSig.ngram2bf h1 h2 self ngram = Ok bf ∧ bf ⊆ common.
Proof.
  intros Hwf Hm ngram ids. unfold PSig.microblocks in Hm.
  rewrite (microblocks_loop_kept h1 h2 self common ngram_dict [] idx Hwf
             (fun _ _ => eq_refl) Hm).
  simpl. split; [by intros [?|?]|by right].
Qed.

Lemma microblocks_keeps_exactly_subsets_witness :
  PSig.microblocks Ex.digest1 Ex.digest2 Ex.psig Ex.common Ex.ngrams_alice
    = Ok [("sm", ["1"]); ("th", ["1"])]
  ∧ (∃ bf, PSig.ngram2bf Ex.digest1 Ex.digest2 Ex.psig "sm" = Ok bf
           ∧ bf ⊆ Ex.common)
  ∧ ¬ (∃ bf, PSig.ngram2bf Ex.digest1 Ex.digest2 Ex.psig "mi" = Ok bf
             ∧ bf ⊆ Ex.common).
Proof.
  assert (PSig.microblocks Ex.digest1 Ex.digest2 Ex.psig Ex.common
            Ex.ngrams_alice = Ok [("sm", ["1"]); ("th", ["1"])]) as Hrun
    by (vm_compute; reflexivity).
  assert (dict_wf Ex.ngrams_alice) as Hwf by (unfold dict_wf; by_eval).
  pose proof (microblocks_keeps_exactly_subsets Ex.digest1 Ex.digest2 Ex.psig
                Ex.common Ex.ngrams_alice _ Hwf Hrun) as Hkept.
  split; [exact Hrun|]. split.
  - apply (proj1 (Hkept "sm" ["1"])). reflexivity.
  - intros Hsub.
    assert (dict_get [("sm", ["1"]); ("th", ["1"])] "mi" = Some ["1"]) as Hmi
      by (apply (proj2 (Hkept "mi" ["1"])); split; [reflexivity|exact Hsub]).
    vm_compute in Hmi. discriminate.
Defined.

(** With a filter length other than zero every n-gram has a filter, and
    [microblocks] returns a table. *)
Lemma microblocks_returns h1 h2 self common ngram_dict :
  (0 < PSig.bf_len self)%Z →
  ∃ idx, PSig.microblocks h1 h2 self common ngram_dict = Ok idx.
Proof.
  intros Hlen. unfold PSig.microblocks. generalize (@nil (string * list PSig.rec_id)).
  induction ngram_dict as [|[ng value] items IH]; intros acc; simpl.
  - by exists acc.
  - unfold PSig.ngram2bf.
    destruct (bloom_loop_spec (h1 ng) (h2 ng) (PSig.bf_len self)
                (seq 0 (PSig.num_hash_funct self)) ∅ Hlen) as (bf & -> & _).
    simpl. apply IH.
Qed.

(** ** n-gram extraction *)

(** C5 fails on the code. [__str2bf__] pads its string when
    [QGRAM_PADDING] is set, but [get_ngram], which is what
    [alice_bloom_filter] and [bob_bloom_filter] extract with, never reads
    the flag: for bigrams of ["ab"] with padding ["^"] and ["$"] enabled it
    yields ["ab"] alone, where the padded extraction yields three grams. *)
Theorem get_ngram_does_not_pad :
  PSig.get_ngram 2 (Some [("1", ["ab"])]) [] [0]
    = Ok ({[ "ab" ]}, [("ab", ["1"])])
  ∧ PSig.q_grams 2 (PSig.pad 2 true "^" "$" "ab") = ["^a"; "ab"; "b$"].
Proof. split; vm_compute; reflexivity. Qed.

(** * Further properties of the two files *)

(** ** The sliding window, in full *)

Lemma mapM_head_drops_Some {A} (l : list A) s n :
  s + n ≤ length l →
  mapM head ((fun m => drop m l) <$> seq s n) = Some (take n (drop s l)).
Proof.
  revert s. induction n as [|n IH]; intros s Hlen; simpl.
  - by rewrite take_0.
  - assert (s < length l) as Hs by lia.
    destruct (lookup_lt_is_Some_2 l s Hs) as [y Hy].
    rewrite head_lookup, lookup_drop, Nat.add_0_r, Hy. simpl.
    rewrite IH by lia. simpl. by rewrite (drop_S _ _ _ Hy).
Qed.

Lemma mapM_head_drops_None {A} (l : list A) s n :
  length l < s + S n →
  mapM head ((fun m => drop m l) <$> seq s (S n)) = None.
Proof.
  revert s. induction n as [|n IH]; intros s Hlen;
    change (seq s (S ?k)) with (s :: seq (S s) k); rewrite fmap_cons;
    cbn [mapM]; rewrite head_lookup, lookup_drop, Nat.add_0_r.
  - rewrite lookup_ge_None_2 by lia. done.
  - destruct (l !! s) as [y|] eqn:Hy; [|done].
    rewrite IH by lia. done.
Qed.

Lemma zip_rows_all_segments {A} (l : list A) n :
  SNN.zip_rows l ((fun m => drop (S m) l) <$> seq 0 n)
  = (fun t => take (S n) (drop t l)) <$> seq 0 (length l - n).
Proof.
  induction l as [|x l IH]; simpl; [done|].
  destruct (decide (n ≤ length l)) as [Hn|Hn].
  - rewrite mapM_head_drops_Some by (simpl; lia). rewrite drop_0.
    rewrite <- list_fmap_compose.
    rewrite (list_fmap_ext _ (fun m => drop (S m) l) (seq 0 n))
      by (intros; simpl; apply tail_drop).
    rewrite IH. replace (S (length l) - n) with (S (length l - n)) by lia.
    simpl. f_equal. by rewrite <- fmap_S_seq, <- list_fmap_compose.
  - destruct n as [|n]; [lia|].
    rewrite mapM_head_drops_None by (simpl; lia).
    by replace (S (length l) - S n) with 0 by lia.
Qed.

(** X1. [__window__(iterable, size)] yields nothing for [size = 0] and
    otherwise the [len - size + 1] runs of [size] consecutive elements, in
    order of their start (none when the list is shorter than [size]). *)
Theorem window_is_all_segments {A} (l : list A) :
  SNN.window l 0 = []
  ∧ ∀ n, SNN.window l (S n)
         = (fun t => take (S n) (drop t l)) <$> seq 0 (length l - n).
Proof.
  split; [done|]. intros n. unfold SNN.window. simpl.
  rewrite drop_0, <- fmap_S_seq, <- list_fmap_compose.
  apply zip_rows_all_segments.
Qed.

(** ** [generate_blocks]: the window width *)

Lemma list_remove_Ok `{EqDecision A} (l : list A) (x : A) :
  x ∈ l → ∃ l', list_remove l x = Ok l'.
Proof.
  induction l as [|y l IH]; intros Hin; [by apply elem_of_nil in Hin|]. simpl.
  destruct (decide (x = y)) as [->|Hne]; [by eexists|].
  apply elem_of_cons in Hin as [->|Hin]; [done|].
  destruct (IH Hin) as [l' ->]. by eexists.
Qed.

Lemma rep_val_union_Ok SENT alice bob :
  ∃ rep, SNN.rep_val_union SENT alice bob = Ok rep.
Proof.
  unfold SNN.rep_val_union. destruct (bool_decide _) eqn:Hin; [|by eexists].
  apply bool_decide_eq_true_1 in Hin. by apply list_remove_Ok.
Qed.

Lemma window_too_short {A} (l : list A) size :
  length l < size ∨ size = 0 → SNN.window l size = [].
Proof.
  intros Hs. destruct size as [|n]; [done|]. destruct Hs as [Hs|?]; [|done].
  unfold SNN.window. simpl.
  rewrite drop_0, <- fmap_S_seq, <- list_fmap_compose.
  etrans; [apply zip_rows_all_segments|].
  by replace (length l - n) with 0 by lia.
Qed.

(** X2. Once both indexes are assigned, a run in which the sorted union of
    the exposed values (sentinel removed) has fewer than [2w] values, or
    with [w = 0], has no window at all: [generate_blocks] stores the empty
    table and returns 0 without an error. *)
Theorem generate_blocks_without_a_window
    (SORTED_FIRST_VAL : string) (self : SNN.t)
    (index_alice index_bob : SNN.PartyIndex) (rep_val_list : list string) :
  SNN.index_alice self = Some index_alice →
  SNN.index_bob self = Some index_bob →
  SNN.rep_val_union SORTED_FIRST_VAL (SNN.alice_rep_vals self)
    (SNN.bob_rep_vals self) = Ok rep_val_list →
  (0 ≤ SNN.w self)%Z →
  (Z.of_nat (length rep_val_list) < 2 * SNN.w self ∨ SNN.w self = 0)%Z →
  SNN.generate_blocks SORTED_FIRST_VAL self
    = Ok (SNN.set_block_dict self [], 0).
Proof.
  intros Hia Hib Hrep Hw Hfew. unfold SNN.generate_blocks, SNN.candidate_pairs.
  rewrite Hia, Hib, Hrep. cbn [mbind result_bind].
  rewrite (proj2 (Z.ltb_ge (SNN.w self * 2) 0)) by lia.
  rewrite window_too_short by lia. done.
Qed.

Lemma generate_blocks_without_a_window_witness :
  SNN.rep_val_union "" (SNN.alice_rep_vals (Ex.built_with 1 2))
    (SNN.bob_rep_vals (Ex.built_with 1 2)) = Ok ["bob"; "cat"]
  ∧ SNN.generate_blocks "" (Ex.built_with 1 2)
    = Ok (SNN.set_block_dict (Ex.built_with 1 2) [], 0).
Proof.
  assert (SNN.rep_val_union "" (SNN.alice_rep_vals (Ex.built_with 1 2))
            (SNN.bob_rep_vals (Ex.built_with 1 2)) = Ok ["bob"; "cat"]) as Hrep
    by (vm_compute; reflexivity).
  split; [exact Hrep|].
  eapply (generate_blocks_without_a_window "" (Ex.built_with 1 2)).
  - vm_compute. reflexivity.
  - vm_compute. reflexivity.
  - exact Hrep.
  - vm_compute. discriminate.
  - left. vm_compute. reflexivity.
Defined.

(** X3. With both indexes assigned and a negative [w], [generate_blocks]
    raises [ValueError] ([tee] is asked for a negative number of copies)
    and stores no table. *)
Theorem generate_blocks_negative_w
    (SORTED_FIRST_VAL : string) (self : SNN.t)
    (index_alice index_bob : SNN.PartyIndex) :
  SNN.index_alice self = Some index_alice →
  SNN.index_bob self = Some index_bob →
  (SNN.w self < 0)%Z →
  SNN.generate_blocks SORTED_FIRST_VAL self = Raise ValueError.
Proof.
  intros Hia Hib Hw. unfold SNN.generate_blocks, SNN.candidate_pairs.
  rewrite Hia, Hib.
  destruct (rep_val_union_Ok SORTED_FIRST_VAL (SNN.alice_rep_vals self)
              (SNN.bob_rep_vals self)) as [rep ->].
  cbn [mbind result_bind]. by rewrite (proj2 (Z.ltb_lt (SNN.w self * 2) 0)) by lia.
Qed.

Lemma generate_blocks_negative_w_witness :
  SNN.generate_blocks "" (Ex.built_with 1 (-1)) = Raise ValueError.
Proof.
  eapply (generate_blocks_negative_w "" (Ex.built_with 1 (-1))).
  - vm_compute. reflexivity.
  - vm_compute. reflexivity.
  - vm_compute. reflexivity.
Defined.

(** ** Termination of the merge sweep *)

Section sweep_termination.
Variable self : SNN.t.
Variable ref_ind_dict : gmap Z string.
Variable ref_val_dict : gmap string (list SNN.rec_id).
Variable len : nat.

Lemma getitem_not_Diverge `{Countable K} {V} (d : gmap K V) key :
  getitem d key ≠ Diverge.
Proof. unfold getitem. by destruct (d !! key). Qed.

Lemma grow_not_Diverge fuel i j num blk sim :
  len - (i + j) < fuel →
  SNN.grow self ref_ind_dict ref_val_dict len fuel i j num blk sim ≠ Diverge.
Proof.
  revert j num blk sim. induction fuel as [|fuel IH]; intros j num blk sim Hf;
    [lia|]. simpl.
  destruct (_ || _) eqn:Hcond; [|done].
  assert (i + j < len) as Hlt.
  { apply orb_true_iff in Hcond as [Hc|Hc];
      apply andb_true_iff in Hc as [_ Hc]; by apply Nat.ltb_lt in Hc. }
  destruct (getitem ref_ind_dict (Z.of_nat (i + j))) as [v| |] eqn:Hv; simpl;
    [|done|by apply getitem_not_Diverge in Hv].
  destruct (getitem ref_val_dict v) as [l| |] eqn:Hl; simpl;
    [|done|by apply getitem_not_Diverge in Hl].
  destruct (negb _); simpl.
  - destruct (getitem ref_ind_dict (Z.of_nat (i + j + 1))) as [v'| |] eqn:Hv';
      simpl; [|done|by apply getitem_not_Diverge in Hv'].
    apply IH. lia.
  - apply IH. lia.
Qed.

Lemma grow_advances fuel i j num blk sim j' blk' :
  SNN.grow self ref_ind_dict ref_val_dict len fuel i j num blk sim
    = Ok (j', blk') → j ≤ j'.
Proof.
  revert j num blk sim. induction fuel as [|fuel IH]; intros j num blk sim;
    simpl; [done|].
  destruct (_ || _); [|by intros [= <- _]].
  intros Hg. inv_bind Hg. inv_bind Hg. inv_bind Hg. apply IH in Hg. lia.
Qed.

Lemma grow_takes_one fuel i blk sim j' blk' :
  (0 ≤ SNN.k self)%Z → i < len →
  SNN.grow self ref_ind_dict ref_val_dict len fuel i 0 0 blk sim
    = Ok (j', blk') → 1 ≤ j'.
Proof.
  intros Hk Hi. destruct fuel as [|fuel]; [done|]. cbn [SNN.grow].
  change (Z.of_nat 0) with 0%Z.
  rewrite (proj2 (Z.leb_le 0 (SNN.k self)) Hk), Nat.add_0_r.
  rewrite (proj2 (Nat.ltb_lt i len) Hi). cbn [andb orb].
  intros Hg. inv_bind Hg. inv_bind Hg. inv_bind Hg.
  apply grow_advances in Hg. lia.
Qed.

Lemma grow_takes_nothing fuel i :
  (SNN.k self < 0)%Z → Qle_bool (SNN.min_sim_threshold self) 0 = false →
  SNN.grow self ref_ind_dict ref_val_dict len (S fuel) i 0 0 [] 0%Q
    = Ok (0, []).
Proof.
  intros Hk Ht. cbn [SNN.grow]. change (Z.of_nat 0) with 0%Z.
  rewrite Ht. by rewrite (proj2 (Z.leb_gt 0 (SNN.k self))) by lia.
Qed.

#[local] Arguments SNN.grow : simpl never.

Lemma merge_with_previous_not_Diverge i blk bd keys :
  SNN.merge_with_previous i blk bd keys ≠ Diverge.
Proof.
  unfold SNN.merge_with_previous.
  destruct (next_key _ bd) as [id| |] eqn:Hn; simpl; [|done|].
  2: { induction bd as [|[k0 v0] bd IH]; simpl in Hn; [done|].
       destruct (str_in _ k0); [done|auto]. }
  unfold dict_getitem. destruct (dict_get bd id); simpl; [|done].
  destruct (list_remove keys id) as [keys'| |] eqn:Hr; simpl; [done|done|].
  clear -Hr. exfalso. induction keys as [|y keys IH]; simpl in Hr; [done|].
  destruct (decide (id = y)); [done|].
  destruct (list_remove keys id); by simpl in Hr.
Qed.

Lemma sweep_not_Diverge fuel i bd keys :
  (0 ≤ SNN.k self)%Z → len - i < fuel →
  SNN.sweep self ref_ind_dict ref_val_dict len fuel i bd keys ≠ Diverge.
Proof.
  intros Hk. revert i bd keys.
  induction fuel as [|fuel IH]; intros i bd keys Hf; [lia|]. simpl.
  destruct (i <? len) eqn:Hi; [|done]. apply Nat.ltb_lt in Hi.
  destruct (SNN.grow self ref_ind_dict ref_val_dict len (S len) i 0 0 [] 0%Q)
    as [[j blk]| |] eqn:Hg; simpl; [|done|].
  2: { apply grow_not_Diverge in Hg; [done|lia]. }
  apply grow_takes_one in Hg; [|done..].
  destruct (Z.of_nat (length blk) <? SNN.k self)%Z; simpl.
  - destruct (SNN.merge_with_previous i blk bd keys)
      as [[[[id blk'] bd'] keys']| |] eqn:Hm; simpl; [|done|].
    + apply IH. lia.
    + by apply merge_with_previous_not_Diverge in Hm.
  - apply IH. lia.
Qed.

(** A negative [k] with a positive threshold: the inner loop takes nothing,
    the outer loop stays at [i], whatever the fuel. *)
Lemma sweep_stuck fuel i bd keys :
  (SNN.k self < 0)%Z → Qle_bool (SNN.min_sim_threshold self) 0 = false →
  i < len →
  SNN.sweep self ref_ind_dict ref_val_dict len fuel i bd keys = Diverge.
Proof.
  intros Hk Ht Hi. revert bd keys.
  induction fuel as [|fuel IH]; intros bd keys; [done|]. cbn [SNN.sweep].
  rewrite (proj2 (Nat.ltb_lt i len) Hi).
  rewrite grow_takes_nothing by done. cbn [mbind result_bind length].
  change (Z.of_nat 0) with 0%Z.
  rewrite (proj2 (Z.ltb_ge 0 (SNN.k self))) by lia. cbn [mbind result_bind].
  rewrite Nat.add_0_r. apply IH.
Qed.
End sweep_termination.

Lemma insert_records_not_Diverge attrs srt d items rvd :
  SNN.insert_records attrs srt d items rvd ≠ Diverge.
Proof.
  revert rvd. induction items as [|[rid rl] items IH]; intros rvd; simpl; [done|].
  destruct (SNN.sort_key attrs rl "") as [sk| |] eqn:Hsk; simpl; [|done|].
  2: { exfalso. clear -Hsk. revert Hsk. generalize "".
       induction attrs as [|c attrs IH]; intros acc; simpl; [done|].
       unfold index. destruct (rl !! c); simpl; [apply IH|done]. }
  destruct (getitem d _) as [v| |] eqn:Hv; simpl;
    [|done|by apply getitem_not_Diverge in Hv].
  destruct (getitem rvd v) as [l| |] eqn:Hl; simpl;
    [|done|by apply getitem_not_Diverge in Hl].
  apply IH.
Qed.

Lemma generate_sorted_index_not_Diverge SENT self rec_dict attrs srt d :
  (0 ≤ SNN.k self)%Z →
  SNN.generate_sorted_index SENT self rec_dict attrs srt d ≠ Diverge.
Proof.
  intros Hk. unfold SNN.generate_sorted_index.
  destruct rec_dict as [recs|]; [|done]. destruct d as [d|]; [|done].
  destruct (SNN.insert_records _ _ _ _ _) as [rvd| |] eqn:Hi;
    cbn [mbind result_bind]; [|done|].
  - destruct (SNN.sim_or_size self); [|done]. apply sweep_not_Diverge; [done|lia].
  - by apply insert_records_not_Diverge in Hi.
Qed.

(** X4. With [k >= 0], [__generate_sorted_index__] always comes back: it
    returns an index or raises, and its two loops cannot run forever. *)
Theorem generate_sorted_index_terminates
    (SORTED_FIRST_VAL : string) (self : SNN.t)
    (rec_dict : option SNN.RecordTable) (attr_select_list : list nat)
    (sort_ref_val_list : list string) (ref_ind_dict : option (gmap Z string)) :
  (0 ≤ SNN.k self)%Z →
  (∃ idx, SNN.generate_sorted_index SORTED_FIRST_VAL self rec_dict
            attr_select_list sort_ref_val_list ref_ind_dict = Ok idx)
  ∨ (∃ e, SNN.generate_sorted_index SORTED_FIRST_VAL self rec_dict
            attr_select_list sort_ref_val_list ref_ind_dict = Raise e).
Proof.
  intros Hk.
  pose proof (generate_sorted_index_not_Diverge SORTED_FIRST_VAL self rec_dict
                attr_select_list sort_ref_val_list ref_ind_dict Hk) as Hnd.
  destruct (SNN.generate_sorted_index _ _ _ _ _ _) as [idx|e|];
    [left; by exists idx|right; by exists e|done].
Qed.

Lemma generate_sorted_index_terminates_witness :
  (∃ idx, SNN.generate_sorted_index "" (Ex.snn 6 1 SNN.SIM)
            (Some Ex.recs_alice) [0] ["bob"; "cat"; "rob"]
            (Some Ex.positions_alice) = Ok idx)
  ∨ (∃ e, SNN.generate_sorted_index "" (Ex.snn 6 1 SNN.SIM)
            (Some Ex.recs_alice) [0] ["bob"; "cat"; "rob"]
            (Some Ex.positions_alice) = Raise e).
Proof.
  apply (generate_sorted_index_terminates "" (Ex.snn 6 1 SNN.SIM)). done.
Defined.

(** X5. With [k < 0] and a positive similarity threshold the sweep never
    ends once it is at a position below [N]: the inner loop takes no
    position, the outer loop adds [j = 0] to [i] and repeats, for any
    number of steps. *)
Theorem sweep_negative_k_never_ends
    (self : SNN.t) (ref_ind_dict : gmap Z string)
    (ref_val_dict : gmap string (list SNN.rec_id))
    (len_sort_ref_list i : nat) :
  (SNN.k self < 0)%Z →
  Qle_bool (SNN.min_sim_threshold self) 0 = false →
  i < len_sort_ref_list →
  ∀ fuel block_dict blk_keys,
    SNN.sweep self ref_ind_dict ref_val_dict len_sort_ref_list fuel i
      block_dict blk_keys = Diverge.
Proof. intros Hk Ht Hi fuel bd keys. by apply sweep_stuck. Qed.

Lemma sweep_negative_k_never_ends_witness :
  SNN.sweep (Ex.snn (-1) 1 SNN.SIM) Ex.positions_alice ∅ 3 1000 0 [] []
  = Diverge.
Proof.
  apply (sweep_negative_k_never_ends (Ex.snn (-1) 1 SNN.SIM)
           Ex.positions_alice ∅ 3 0); [done|done|lia].
Defined.

(** ** The insertion loop of [__generate_sorted_index__] *)

Section insertion.
Variable attr_select_list : list nat.
Variable sort_ref_val_list : list string.
Variable ref_ind_dict : gmap Z string.

(** The reference value at the bisect position of a record's sort key. *)
Local Abbreviation ref_of r :=
  (match SNN.sort_key attr_select_list (r : SNN.rec_id * list string).2 "" with
   | Ok sk_val => ref_ind_dict !! Z.of_nat (bisect sort_ref_val_list sk_val)
   | _ => None
   end).

Lemma insert_records_filed_exactly (items : list (SNN.rec_id * list string))
    (rvd rvd' : gmap string (list SNN.rec_id)) :
  SNN.insert_records attr_select_list sort_ref_val_list ref_ind_dict items rvd
    = Ok rvd' →
  ∀ v, rvd' !! v
       = (fun ids => ids ++ (filter (fun r => ref_of r = Some v) items).*1)
           <$> rvd !! v.
Proof.
  revert rvd. induction items as [|[rid rl] items IH]; intros rvd Hi v.
  - injection Hi as <-. destruct (rvd !! v); simpl; [|done]. by rewrite app_nil_r.
  - simpl in Hi. inv_bind Hi. inv_bind Hi. inv_bind Hi.
    apply getitem_Ok in Hx0, Hx1. rewrite (IH _ Hi v).
    rewrite filter_cons. cbn [snd]. rewrite Hx, Hx0.
    destruct (decide (x0 = v)) as [->|Hne].
    + rewrite lookup_insert_eq, Hx1. rewrite decide_True by done.
      simpl. by rewrite <- app_assoc.
    + rewrite lookup_insert_ne by done.
      by rewrite decide_False by congruence.
Qed.
End insertion.

(** X6. When the insertion loop of [__generate_sorted_index__] completes,
    the list of every reference value is its earlier list followed by the
    ids, in table order, of exactly the records whose sort key bisects to a
    position holding that value; no reference value is added or removed. *)
Theorem insert_records_files_by_bisect
    (attr_select_list : list nat) (sort_ref_val_list : list string)
    (ref_ind_dict : gmap Z string) (items : list (SNN.rec_id * list string))
    (ref_val_dict ref_val_dict' : gmap string (list SNN.rec_id)) :
  SNN.insert_records attr_select_list sort_ref_val_list ref_ind_dict items
    ref_val_dict = Ok ref_val_dict' →
  ∀ ref_val,
    ref_val_dict' !! ref_val
    = (fun ids =>
         ids ++ (filter
                   (fun r : SNN.rec_id * list string =>
                      match SNN.sort_key attr_select_list r.2 "" with
                      | Ok sk_val =>
                          ref_ind_dict
                            !! Z.of_nat (bisect sort_ref_val_list sk_val)
                      | _ => None
                      end = Some ref_val) items).*1)
        <$> ref_val_dict !! ref_val.
Proof. apply insert_records_filed_exactly. Qed.

Lemma insert_records_files_by_bisect_witness :
  ∃ rvd,
    SNN.insert_records [0] ["bob"; "cat"; "rob"] Ex.positions_alice
      Ex.recs_alice (SNN.empty_ref_val_dict "" ["bob"; "cat"; "rob"]) = Ok rvd
    ∧ rvd !! "bob" = Some ["a1"; "a5"] ∧ rvd !! "" = Some ["a4"]
    ∧ rvd !! "zed" = None.
Proof.
  destruct (SNN.insert_records [0] ["bob"; "cat"; "rob"] Ex.positions_alice
              Ex.recs_alice (SNN.empty_ref_val_dict "" ["bob"; "cat"; "rob"]))
    as [rvd| |] eqn:Hrun;
    [|exfalso; vm_compute in Hrun; discriminate
     |exfalso; vm_compute in Hrun; discriminate].
  exists rvd. split; [done|].
  pose proof (insert_records_files_by_bisect _ _ _ _ _ _ Hrun) as Hfiled.
  rewrite !Hfiled. repeat split; vm_compute; reflexivity.
Defined.

(** ** A party with fewer than [k] records *)

Lemma bisect_loop_bounds fuel a x lo hi :
  lo ≤ hi → lo ≤ bisect_loop fuel a x lo hi ≤ hi.
Proof.
  revert lo hi. induction fuel as [|fuel IH]; intros lo hi Hle;
    cbn [bisect_loop]; [lia|].
  destruct (lo <? hi) eqn:Hlt; [|lia]. apply Nat.ltb_lt in Hlt.
  assert ((lo + hi) `div` 2 < hi) as Hmid
    by (apply Nat.Div0.div_lt_upper_bound; lia).
  assert (lo ≤ (lo + hi) `div` 2) as Hmid'
    by (apply Nat.div_le_lower_bound; lia).
  destruct (a !! _) as [y|]; [|lia].
  destruct (String.ltb x y).
  - specialize (IH lo ((lo + hi) `div` 2) Hmid'). lia.
  - specialize (IH ((lo + hi) `div` 2 + 1) hi ltac:(lia)). lia.
Qed.

Lemma bisect_le_length a x : bisect a x ≤ length a.
Proof. unfold bisect. apply bisect_loop_bounds. lia. Qed.

Lemma empty_ref_val_dict_has SENT srt v :
  v ∈ SENT :: srt → SNN.empty_ref_val_dict SENT srt !! v = Some [].
Proof.
  unfold SNN.empty_ref_val_dict.
  assert (∀ d0 : gmap string (list SNN.rec_id),
            (v ∈ srt ∨ d0 !! v = Some []) →
            foldl (fun d ref_val => <[ref_val := []]> d) d0 srt !! v = Some [])
    as Hgen.
  { induction srt as [|r srt IH]; intros d0 Hv; simpl.
    - destruct Hv as [Hv|Hv]; [by apply elem_of_nil in Hv|done].
    - apply IH. destruct (decide (r = v)) as [->|Hne].
      + right. apply lookup_insert_eq.
      + destruct Hv as [Hv|Hv].
        * apply elem_of_cons in Hv as [->|Hv]; [done|by left].
        * right. by rewrite lookup_insert_ne. }
  intros Hv. apply Hgen. apply elem_of_cons in Hv as [->|Hv]; [|by left].
  right. apply lookup_insert_eq.
Qed.

Lemma insert_records_Ok attrs srt (d : gmap Z string)
    (items : list (SNN.rec_id * list string))
    (rvd : gmap string (list SNN.rec_id)) :
  (∀ r, r ∈ items → ∃ sk, SNN.sort_key attrs r.2 "" = Ok sk) →
  (∀ p, p ≤ length srt → ∃ v, d !! Z.of_nat p = Some v ∧ is_Some (rvd !! v)) →
  ∃ rvd', SNN.insert_records attrs srt d items rvd = Ok rvd'.
Proof.
  revert rvd. induction items as [|[rid rl] items IH]; intros rvd Hsk Hd; simpl.
  - by eexists.
  - destruct (Hsk (rid, rl)) as [sk Hs]; [apply list_elem_of_here|].
    simpl in Hs. rewrite Hs. simpl.
    destruct (Hd (bisect srt sk) (bisect_le_length _ _)) as (v & Hv & [l Hl]).
    unfold getitem. rewrite Hv. simpl. rewrite Hl. simpl.
    apply IH.
    + intros r Hr. apply Hsk. by apply list_elem_of_further.
    + intros p Hp. destruct (Hd p Hp) as (v' & Hv' & Hl').
      exists v'. split; [done|]. destruct (decide (v = v')) as [->|Hne].
      * rewrite lookup_insert_eq. by eexists.
      * by rewrite lookup_insert_ne.
Qed.

(** Distinct reference values share no record: together their lists are no
    longer than the table. *)
Lemma filed_lists_skip {A B C} `{EqDecision B} (f : A → option B) (g : A → C)
    (r : A) (l : list A) (vs : list B) :
  (∀ v, v ∈ vs → f r ≠ Some v) →
  (fun v => g <$> filter (fun r0 => f r0 = Some v) (r :: l)) <$> vs
  = (fun v => g <$> filter (fun r0 => f r0 = Some v) l) <$> vs.
Proof.
  intros Hvs. apply list_fmap_ext. intros i v Hv.
  rewrite filter_cons, decide_False; [done|].
  apply Hvs. by eapply list_elem_of_lookup_2.
Qed.

Lemma filed_lists_step {A B C} `{EqDecision B} (f : A → option B) (g : A → C)
    (r : A) (l : list A) (vs : list B) :
  NoDup vs →
  length (concat ((fun v => g <$> filter (fun r0 => f r0 = Some v) (r :: l))
                    <$> vs))
  ≤ S (length (concat ((fun v => g <$> filter (fun r0 => f r0 = Some v) l)
                         <$> vs))).
Proof.
  induction vs as [|v vs IH]; intros Hnd; [cbn; lia|].
  apply NoDup_cons in Hnd as [Hv Hnd].
  rewrite !fmap_cons. cbn [concat]. rewrite !length_app, filter_cons.
  destruct (decide (f r = Some v)) as [Hr|Hr].
  - rewrite filed_lists_skip; [rewrite fmap_cons; cbn [length]; lia|].
    intros v' Hv' Hr'. rewrite Hr in Hr'. injection Hr' as <-. done.
  - specialize (IH Hnd). lia.
Qed.

Lemma filed_lists_total {A B C} `{EqDecision B} (f : A → option B) (g : A → C)
    (l : list A) (vs : list B) :
  NoDup vs →
  length (concat ((fun v => g <$> filter (fun r => f r = Some v) l) <$> vs))
  ≤ length l.
Proof.
  intros Hnd. induction l as [|r l IH].
  - induction vs as [|v vs IHv]; [done|]. rewrite fmap_cons. cbn [concat].
    rewrite filter_nil. apply IHv. by apply NoDup_cons in Hnd as [_ ?].
  - etrans; [by apply filed_lists_step|]. cbn [length]. lia.
Qed.

Section underflow.
Variable self : SNN.t.
Variable ref_ind_dict : gmap Z string.
Variable ref_val_dict : gmap string (list SNN.rec_id).
Variable len : nat.

(** The id list filed at a position. *)
Local Abbreviation pos_list p :=
  (match ref_ind_dict !! Z.of_nat p with
   | Some v => default [] (ref_val_dict !! v)
   | None => []
   end).

Hypothesis positions_filed :
  ∀ p, p < len →
    ∃ v l, ref_ind_dict !! Z.of_nat p = Some v ∧ ref_val_dict !! v = Some l.

Lemma grow_takes_all fuel j num blk sim :
  len - j < fuel → j ≤ len →
  (Z.of_nat (num + length (concat ((fun p => pos_list p) <$> seq j (len - j))))
     ≤ SNN.k self)%Z →
  SNN.grow self ref_ind_dict ref_val_dict len fuel 0 j num blk sim
  = Ok (len, blk ++ concat ((fun p => pos_list p) <$> seq j (len - j))).
Proof.
  revert j num blk sim. induction fuel as [|fuel IH];
    intros j num blk sim Hf Hj Hk; [lia|]. cbn [SNN.grow]. rewrite Nat.add_0_l.
  destruct (decide (j < len)) as [Hlt|Hge].
  - replace (len - j) with (S (len - S j)) in * by lia.
    cbn [seq fmap list_fmap concat] in *.
    destruct (positions_filed j Hlt) as (v & l & Hv & Hl).
    rewrite Hv, Hl in Hk |- *.
    change (default [] (Some l)) with l in Hk |- *. rewrite length_app in Hk.
    rewrite (proj2 (Z.leb_le (Z.of_nat num) (SNN.k self))) by lia.
    rewrite (proj2 (Nat.ltb_lt j len) Hlt). cbn [andb orb].
    assert (getitem ref_ind_dict (Z.of_nat j) = Ok v) as ->
      by (unfold getitem; by rewrite Hv).
    cbn [mbind result_bind].
    assert (getitem ref_val_dict v = Ok l) as ->
      by (unfold getitem; by rewrite Hl).
    cbn [mbind result_bind].
    assert (∃ sim', (if negb (j + 1 =? len)
                     then getitem ref_ind_dict (Z.of_nat (j + 1))
                          ≫= (fun next_ref_val =>
                                Ok (SNN.sim_measure self v next_ref_val))
                     else Ok sim) = Ok sim') as [sim' ->].
    { destruct (j + 1 =? len) eqn:Hn; simpl; [by eexists|].
      apply Nat.eqb_neq in Hn.
      destruct (positions_filed (j + 1)) as (v' & _ & Hv' & _); [lia|].
      unfold getitem. rewrite Hv'. by eexists. }
    cbn [mbind result_bind]. replace (j + 1) with (S j) by lia.
    rewrite IH by lia. by rewrite <- app_assoc.
  - replace (len - j) with 0 in * by lia. cbn [seq fmap list_fmap concat].
    replace j with len by lia.
    rewrite (proj2 (Nat.ltb_ge len len)) by lia.
    rewrite !andb_false_r. cbn [orb]. by rewrite app_nil_r.
Qed.

Lemma sweep_underflow :
  0 < len →
  (Z.of_nat (length (concat ((fun p => pos_list p) <$> seq 0 len)))
     < SNN.k self)%Z →
  SNN.sweep self ref_ind_dict ref_val_dict len (S len) 0 [] []
  = Raise StopIteration.
Proof.
  intros Hlen Hk. cbn [SNN.sweep]. rewrite (proj2 (Nat.ltb_lt 0 len) Hlen).
  pose proof (grow_takes_all (S len) 0 0 [] 0%Q) as Hg.
  rewrite Nat.sub_0_r in Hg. rewrite Hg by (simpl; lia).
  cbn [mbind result_bind app].
  by rewrite (proj2 (Z.ltb_lt _ _) Hk).
Qed.
End underflow.

(** X7. In SIM mode, for reference values that are pairwise distinct and
    differ from the sentinel, a party with at least one reference value and
    fewer than [k] records gets no index: the single group that the sweep
    forms is undersized, there is no earlier bucket to merge it into, and
    [next] raises [StopIteration]. *)
Theorem too_few_records_raise_StopIteration
    (SORTED_FIRST_VAL : string) (self : SNN.t) (refs : list string)
    (rec_dict : list (SNN.rec_id * list string)) (attr_select_list : list nat)
    (ref_ind_dict : gmap Z string) (sort_ref_val_list : list string) :
  SNN.sim_or_size self = SNN.SIM →
  refs ≠ [] →
  NoDup (SORTED_FIRST_VAL :: refs) →
  (∀ r, r ∈ rec_dict → ∃ sk, SNN.sort_key attr_select_list r.2 "" = Ok sk) →
  (Z.of_nat (length rec_dict) < SNN.k self)%Z →
  SNN.sort_ref_values SORTED_FIRST_VAL (Some refs)
    = Ok (ref_ind_dict, sort_ref_val_list) →
  SNN.generate_sorted_index SORTED_FIRST_VAL self (Some rec_dict)
    attr_select_list sort_ref_val_list (Some ref_ind_dict)
  = Raise StopIteration.
Proof.
  intros Hmode Hrefs Hnd Hsk Hk Hsort.
  pose proof (fun p => proj1 (sort_ref_values_lookup _ _ _ _ p Hsort)) as Hpos.
  pose proof (proj2 (sort_ref_values_lookup _ _ _ _ 0 Hsort)) as Hsrt.
  assert (sort_ref_val_list ≡ₚ refs) as Hperm
    by (rewrite Hsrt; apply merge_sort_Permutation).
  assert (NoDup (SORTED_FIRST_VAL :: sort_ref_val_list)) as Hnd'
    by (by rewrite Hperm).
  assert (0 < length sort_ref_val_list) as Hlen.
  { rewrite Hperm. destruct refs; [done|simpl; lia]. }
  assert (∀ p, p ≤ length sort_ref_val_list →
            ∃ v, ref_ind_dict !! Z.of_nat p = Some v ∧ v ∈ (SORTED_FIRST_VAL :: sort_ref_val_list)) as Hall.
  { intros p Hp. destruct (lookup_lt_is_Some_2 (SORTED_FIRST_VAL :: sort_ref_val_list) p) as [v Hv];
      [simpl; lia|].
    exists v. rewrite Hpos. split; [done|]. by eapply list_elem_of_lookup_2. }
  unfold SNN.generate_sorted_index.
  destruct (insert_records_Ok attr_select_list sort_ref_val_list ref_ind_dict
              rec_dict (SNN.empty_ref_val_dict SORTED_FIRST_VAL sort_ref_val_list))
    as [rvd Hins]; [done| |].
  { intros p Hp. destruct (Hall p Hp) as (v & Hv & Hin). exists v.
    split; [done|]. rewrite empty_ref_val_dict_has by done. by eexists. }
  rewrite Hins. cbn [mbind result_bind]. rewrite Hmode.
  pose proof (insert_records_filed_exactly _ _ _ _ _ _ Hins) as Hfiled.
  assert (∀ v, v ∈ (SORTED_FIRST_VAL :: sort_ref_val_list) →
            rvd !! v
            = Some ((filter
                       (fun r : SNN.rec_id * list string =>
                          match SNN.sort_key attr_select_list r.2 "" with
                          | Ok sk_val =>
                              ref_ind_dict
                                !! Z.of_nat (bisect sort_ref_val_list sk_val)
                          | _ => None
                          end = Some v) rec_dict).*1)) as Hrvd.
  { intros v Hv. rewrite Hfiled, empty_ref_val_dict_has by done. done. }
  apply sweep_underflow; [|done|].
  - intros p Hp. destruct (Hall p ltac:(lia)) as (v & Hv & Hin).
    exists v. eexists. split; [done|]. by apply Hrvd.
  - eapply Z.le_lt_trans; [|exact Hk]. apply inj_le.
    etrans; [|apply (filed_lists_total
                       (fun r : SNN.rec_id * list string =>
                          match SNN.sort_key attr_select_list r.2 "" with
                          | Ok sk_val =>
                              ref_ind_dict
                                !! Z.of_nat (bisect sort_ref_val_list sk_val)
                          | _ => None
                          end) fst rec_dict
                       (take (length sort_ref_val_list) (SORTED_FIRST_VAL :: sort_ref_val_list)))].
    2: { rewrite <- (take_drop (length sort_ref_val_list) (SORTED_FIRST_VAL :: sort_ref_val_list)) in Hnd'.
         by apply NoDup_app in Hnd' as [? _]. }
    apply Nat.eq_le_incl. do 2 f_equal. apply list_eq. intros i.
    rewrite !list_lookup_fmap.
    destruct (decide (i < length sort_ref_val_list)) as [Hi|Hi].
    + rewrite lookup_seq_lt by done. rewrite lookup_take_lt by done.
      destruct (Hall i ltac:(lia)) as (v & Hv & Hin).
      pose proof Hv as Hv'. rewrite Hpos in Hv'. rewrite Hv'.
      cbn [fmap option_fmap option_map]. rewrite Nat.add_0_l, Hv.
      by rewrite (Hrvd v Hin).
    + rewrite lookup_seq_ge by lia. by rewrite lookup_take_ge by lia.
Qed.

Lemma too_few_records_raise_StopIteration_witness :
  (Z.of_nat (length Ex.recs_alice) < 6)%Z
  ∧ SNN.generate_sorted_index "" (Ex.snn 6 1 SNN.SIM) (Some Ex.recs_alice) [0]
      ["bob"; "cat"; "rob"] (Some Ex.positions_alice) = Raise StopIteration.
Proof.
  split; [done|].
  apply (too_few_records_raise_StopIteration "" (Ex.snn 6 1 SNN.SIM)
           Ex.refs_alice Ex.recs_alice [0]).
  - reflexivity.
  - done.
  - by_eval.
  - intros r Hr. unfold Ex.recs_alice in Hr.
    repeat (apply elem_of_cons in Hr as [->|Hr]; [by eexists|]).
    by apply elem_of_nil in Hr.
  - done.
  - reflexivity.
Defined.

(** ** Bloom filters: errors and unions *)

Lemma bloom_loop_Ok int1 int2 (len : Z) range (bloom_set : gset Z) :
  len ≠ 0%Z →
  ∃ bloom_set',
    PSig.bloom_loop int1 int2 len range bloom_set = Ok bloom_set'
    ∧ bloom_set ⊆ bloom_set'.
Proof.
  intros Hlen. revert bloom_set.
  induction range as [|i range IH]; intros bloom_set; simpl.
  - by exists bloom_set.
  - rewrite (proj2 (Z.eqb_neq len 0)) by done.
    destruct (IH (bloom_set ∪ {[((int1 + Z.of_nat i * int2) `mod` len)%Z]}))
      as (bs & Hrun & Hsub).
    exists bs. split; [done|]. set_solver.
Qed.

(** X8. [ngram2bf] raises exactly when the filter length is 0 and there is
    at least one hash function, and what it raises is
    [ZeroDivisionError]; in every other case it returns a set. *)
Theorem ngram2bf_raises_only_on_zero_length
    (h1 h2 : string → Z) (self : PSig.t) (ngram : string) :
  match PSig.ngram2bf h1 h2 self ngram with
  | Ok _ => PSig.bf_len self ≠ 0%Z ∨ PSig.num_hash_funct self = 0
  | Raise e =>
      e = ZeroDivisionError
      ∧ PSig.bf_len self = 0%Z ∧ 0 < PSig.num_hash_funct self
  | Diverge => False
  end.
Proof.
  unfold PSig.ngram2bf.
  destruct (decide (PSig.bf_len self = 0%Z)) as [Hz|Hnz].
  - rewrite Hz. destruct (PSig.num_hash_funct self) as [|n]; simpl.
    + by right.
    + split; [done|]. split; [done|lia].
  - destruct (bloom_loop_Ok (h1 ngram) (h2 ngram) (PSig.bf_len self)
                (seq 0 (PSig.num_hash_funct self)) ∅ Hnz) as (bf & -> & _).
    by left.
Qed.

Section aggregate.
Variables h1 h2 : string → Z.
Variable self : PSig.t.
Hypothesis len_pos : (0 < PSig.bf_len self)%Z.

Lemma ngram2bf_Ok ngram :
  ∃ bf, PSig.ngram2bf h1 h2 self ngram = Ok bf
        ∧ ∀ x, x ∈ bf → (0 ≤ x < PSig.bf_len self)%Z.
Proof.
  unfold PSig.ngram2bf.
  destruct (bloom_loop_spec (h1 ngram) (h2 ngram) (PSig.bf_len self)
              (seq 0 (PSig.num_hash_funct self)) ∅ len_pos)
    as (bf & Hrun & Hin & _).
  exists bf. split; [done|]. intros x Hx.
  destruct (Hin x Hx) as [He|?]; [by apply elem_of_empty in He|done].
Qed.

Lemma create_fold_union (grams : list string) (acc : gset Z) :
  ∃ bloom,
    foldl (fun acc gram =>
             bloom ← acc;
             bloom_set ← PSig.ngram2bf h1 h2 self gram;
             Ok (bloom ∪ bloom_set)) (Ok acc) grams = Ok bloom
    ∧ ∀ x, x ∈ bloom ↔
        x ∈ acc ∨ ∃ gram bf, gram ∈ grams
                    ∧ PSig.ngram2bf h1 h2 self gram = Ok bf ∧ x ∈ bf.
Proof.
  revert acc. induction grams as [|g grams IH]; intros acc; simpl.
  - exists acc. split; [done|]. intros x. split; [by left|].
    intros [?|(g & bf & Hg & _)]; [done|by apply elem_of_nil in Hg].
  - destruct (ngram2bf_Ok g) as (bfg & Hg & _). rewrite Hg. simpl.
    destruct (IH (acc ∪ bfg)) as (bloom & Hrun & Hin).
    exists bloom. split; [done|]. intros x. rewrite Hin, elem_of_union. split.
    + intros [[?|Hx]|(g' & bf & Hg' & Hbf & Hx)]; [by left| |].
      * right. exists g, bfg. split; [apply list_elem_of_here|done].
      * right. exists g', bf. split; [by apply list_elem_of_further|done].
    + intros [?|(g' & bf & Hg' & Hbf & Hx)]; [by left; left|].
      apply elem_of_cons in Hg' as [->|Hg'].
      * left. right. rewrite Hg in Hbf. by injection Hbf as ->.
      * right. by exists g', bf.
Qed.
End aggregate.

(** X9. For a positive filter length, [create_bloom_filter] returns
    exactly the union of the filters of the given n-grams: a bit position
    is set if and only if [ngram2bf] sets it for one of them; all set
    positions lie in [[0, bf_len)]. *)
Theorem create_bloom_filter_is_union
    (h1 h2 : string → Z) (self : PSig.t) (ngrams : gset string) :
  (0 < PSig.bf_len self)%Z →
  ∃ bloom,
    PSig.create_bloom_filter h1 h2 self ngrams = Ok bloom
    ∧ (∀ x, x ∈ bloom ↔
         ∃ gram bf, gram ∈ ngrams
           ∧ PSig.ngram2bf h1 h2 self gram = Ok bf ∧ x ∈ bf)
    ∧ ∀ x, x ∈ bloom → (0 ≤ x < PSig.bf_len self)%Z.
Proof.
  intros Hlen. unfold PSig.create_bloom_filter.
  destruct (create_fold_union h1 h2 self Hlen (elements ngrams) ∅)
    as (bloom & Hrun & Hin).
  exists bloom. split; [done|].
  assert (∀ x, x ∈ bloom ↔
            ∃ gram bf, gram ∈ ngrams
              ∧ PSig.ngram2bf h1 h2 self gram = Ok bf ∧ x ∈ bf) as Hin'.
  { intros x. rewrite Hin. split.
    - intros [He|(g & bf & Hg & Hbf)]; [by apply elem_of_empty in He|].
      exists g, bf. by rewrite <- elem_of_elements.
    - intros (g & bf & Hg & Hbf). right. exists g, bf.
      by rewrite elem_of_elements. }
  split; [done|]. intros x Hx. apply Hin' in Hx as (g & bf & _ & Hbf & Hx).
  destruct (ngram2bf_Ok h1 h2 self Hlen g) as (bf' & Hbf' & Hrange).
  rewrite Hbf in Hbf'. injection Hbf' as <-. by apply Hrange.
Qed.

Lemma create_bloom_filter_is_union_witness :
  ∃ bloom,
    PSig.create_bloom_filter Ex.digest1 Ex.digest2 Ex.psig {[ "sm"; "th" ]}
      = Ok bloom
    ∧ ∀ x, x ∈ bloom → (0 ≤ x < 1800)%Z.
Proof.
  destruct (create_bloom_filter_is_union Ex.digest1 Ex.digest2 Ex.psig
              {[ "sm"; "th" ]}) as (bloom & Hrun & _ & Hrange); [done|].
  by exists bloom.
Defined.

(** ** n-grams of a string *)

Lemma substring_length (s : string) (i n : nat) :
  i + n ≤ String.length s → String.length (substring i n s) = n.
Proof.
  revert i n. induction s as [|c s IH]; intros i n Hlen; simpl in Hlen.
  - assert (i = 0 ∧ n = 0) as [-> ->] by lia. done.
  - destruct i as [|i]; simpl.
    + destruct n as [|n]; simpl; [done|]. rewrite IH; [done|lia].
    + apply IH. lia.
Qed.

(** X10. For a gram length [Q >= 1], the extraction used by [get_ngram]
    and [__str2bf__] yields [len(ps) + 1 - Q] grams (none when the string
    is shorter than [Q]); the [i]-th is [ps[i:i+Q]] and has exactly [Q]
    characters. *)
Theorem q_grams_count_and_length (QGRAM_LEN : nat) (ps : string) :
  1 ≤ QGRAM_LEN →
  length (PSig.q_grams QGRAM_LEN ps) = String.length ps + 1 - QGRAM_LEN
  ∧ ∀ i gram,
      PSig.q_grams QGRAM_LEN ps !! i = Some gram →
      gram = substring i QGRAM_LEN ps ∧ String.length gram = QGRAM_LEN.
Proof.
  intros HQ. unfold PSig.q_grams. split.
  - rewrite length_fmap, length_seq. lia.
  - intros i gram Hi. rewrite list_lookup_fmap in Hi.
    destruct (seq _ _ !! i) as [i'|] eqn:Hseq; [|done].
    apply lookup_seq in Hseq as [-> Hlt]. injection Hi as <-.
    split; [done|]. apply substring_length. lia.
Qed.

Lemma q_grams_count_and_length_witness :
  length (PSig.q_grams 2 "smith") = 4 ∧ length (PSig.q_grams 2 "s") = 0
  ∧ PSig.q_grams 2 "smith" !! 1 = Some "mi".
Proof.
  destruct (q_grams_count_and_length 2 "smith") as [Hlen _]; [lia|].
  destruct (q_grams_count_and_length 2 "s") as [Hlen' _]; [lia|].
  split; [exact Hlen|]. split; [exact Hlen'|reflexivity].
Defined.

(** ** The candidate table of the p-sig [generate_blocks] *)

Lemma join_loop_appends (ib : list (string * list PSig.rec_id))
    (items : list (string * list PSig.rec_id)) (key : nat)
    (bd0 : list (nat * (list PSig.rec_id * list PSig.rec_id))) :
  (∀ k v, (k, v) ∈ bd0 → k < key) →
  PSig.join_loop ib items key bd0
  = bd0 ++ zip (seq key (length (omap (fun '(g, a) =>
                                         (fun b => (a, b)) <$> dict_get ib g)
                                      items)))
               (omap (fun '(g, a) => (fun b => (a, b)) <$> dict_get ib g) items).
Proof.
  revert key bd0. induction items as [|[g a] items IH]; intros key bd0 Hkeys.
  - simpl. by rewrite app_nil_r.
  - cbn [PSig.join_loop omap list_omap]. destruct (dict_get ib g) as [b|]; simpl.
    + rewrite dict_set_fresh.
      2: { intros Hin. apply list_elem_of_fmap in Hin as ([k' v'] & -> & Hin).
           apply Hkeys in Hin. simpl in Hin. lia. }
      rewrite IH.
      * rewrite <- app_assoc. simpl. by replace (key + 1) with (S key) by lia.
      * intros k v Hin. apply elem_of_app in Hin as [Hin|Hin].
        -- apply Hkeys in Hin. lia.
        -- apply list_elem_of_singleton in Hin as [= -> ->]. lia.
    + by apply IH.
Qed.

(** X11. With both p-sig indexes assigned, [generate_blocks] never raises:
    its table has one entry for each n-gram of Alice's index that Bob's
    index also has, in the order of Alice's index, under the ids [0],
    [1], ...; the entry pairs the two id lists, and the count returned is
    the number of such n-grams. *)
Theorem psig_generate_blocks_joins_on_ngram
    (self : PSig.t) (index_alice index_bob : list (string * list PSig.rec_id)) :
  PSig.index_alice self = Some index_alice →
  PSig.index_bob self = Some index_bob →
  PSig.generate_blocks self
  = Ok (PSig.set_block_dict self
          (zip (seq 0 (length (omap (fun '(g, a) =>
                                       (fun b => (a, b))
                                         <$> dict_get index_bob g)
                                    index_alice)))
               (omap (fun '(g, a) =>
                        (fun b => (a, b)) <$> dict_get index_bob g)
                     index_alice)),
        length (omap (fun '(g, a) =>
                        (fun b => (a, b)) <$> dict_get index_bob g)
                     index_alice)).
Proof.
  intros Hia Hib. unfold PSig.generate_blocks. rewrite Hia, Hib.
  rewrite join_loop_appends by (intros k v Hin; by apply elem_of_nil in Hin).
  simpl. do 2 f_equal. rewrite length_zip, length_seq. lia.
Qed.

Lemma psig_generate_blocks_joins_on_ngram_witness :
  PSig.index_alice Ex.psig_built = Some [("sm", ["1"]); ("th", ["1"])]
  ∧ PSig.generate_blocks Ex.psig_built
    = Ok (PSig.set_block_dict Ex.psig_built
            [(0, (["1"], ["1"])); (1, (["1"], ["1"]))], 2).
Proof.
  assert (PSig.index_alice Ex.psig_built = Some [("sm", ["1"]); ("th", ["1"])])
    as Hia by (vm_compute; reflexivity).
  assert (PSig.index_bob Ex.psig_built = Some [("sm", ["1"]); ("th", ["1"])])
    as Hib by (vm_compute; reflexivity).
  split; [exact Hia|].
  exact (psig_generate_blocks_joins_on_ngram Ex.psig_built _ _ Hia Hib).
Defined.

(** ** The n-gram table built by [get_ngram] *)

Section dict_set_keys.
Context {K V : Type} `{EqDecision K}.

Lemma dict_get_is_Some (d : list (K * V)) (key : K) :
  is_Some (dict_get d key) ↔ key ∈ d.*1.
Proof.
  destruct (dict_get d key) as [v|] eqn:Hg.
  - split; [intros _|by eexists].
    destruct (decide (key ∈ d.*1)) as [|Hn]; [done|].
    apply dict_get_None in Hn. congruence.
  - split; [by intros [? ?]|]. intros Hin. by apply dict_get_None in Hg.
Qed.

Lemma dict_set_wf (d : list (K * V)) (key : K) (v : V) :
  dict_wf d → dict_wf (dict_set d key v).
Proof.
  unfold dict_wf. induction d as [|[k0 v0] d IH]; simpl.
  - intros _. apply NoDup_singleton.
  - intros Hnd. apply NoDup_cons in Hnd as [Hk0 Hnd].
    destruct (decide (key = k0)) as [->|Hne]; simpl.
    + by apply NoDup_cons.
    + apply NoDup_cons. split; [|by apply IH].
      rewrite <- dict_get_is_Some, dict_get_set, decide_False by done.
      by rewrite dict_get_is_Some.
Qed.
End dict_set_keys.

Section get_ngram.
Variable QGRAM_LEN : nat.
Variable attr_list : list nat.

(** The grams of one record: those of its selected attribute values, joined. *)
Local Abbreviation grams_of rec :=
  (match mapM (index (rec : list string)) attr_list with
   | Ok value => PSig.q_grams QGRAM_LEN (String.concat "" value)
   | _ => []
   end).

(** The ids that the occurrences of [g] in the given records contribute. *)
Local Abbreviation occurrences g items :=
  (concat ((fun r : PSig.rec_id * list string =>
              (fun _ : string => r.1) <$> filter (fun x => x = g) (grams_of r.2))
           <$> items)).

Lemma add_grams_spec key grams (ngrams : gset string)
    (d : list (string * list PSig.rec_id)) g :
  let '(ngrams', d') := PSig.add_grams key grams (ngrams, d) in
  (g ∈ ngrams' ↔ g ∈ ngrams ∨ g ∈ grams)
  ∧ (is_Some (dict_get d' g) ↔ is_Some (dict_get d g) ∨ g ∈ grams)
  ∧ default [] (dict_get d' g)
    = default [] (dict_get d g)
      ++ ((fun _ : string => key) <$> filter (fun x => x = g) grams)
  ∧ (dict_wf d → dict_wf d').
Proof.
  unfold PSig.add_grams. revert ngrams d.
  induction grams as [|gram grams IH]; intros ngrams d; simpl.
  - split; [|split; [|split]]; [| |by rewrite app_nil_r|done].
    + split; [by left|]. intros [?|Hin]; [done|by apply elem_of_nil in Hin].
    + split; [by left|]. intros [?|Hin]; [done|by apply elem_of_nil in Hin].
  - set (d1 := match dict_get d gram with
               | Some ids => dict_set d gram (ids ++ [key])
               | None => dict_set d gram [key]
               end).
    specialize (IH ({[gram]} ∪ ngrams) d1).
    destruct (foldl _ ({[gram]} ∪ ngrams, d1) grams) as [ngrams' d'].
    destruct IH as (Hn & Hs & Hl & Hwf).
    assert (dict_get d1 g
            = if decide (g = gram)
              then Some (default [] (dict_get d gram) ++ [key])
              else dict_get d g) as Hd1.
    { unfold d1. destruct (dict_get d gram) as [ids|] eqn:Hg;
        rewrite dict_get_set; by destruct (decide (g = gram)). }
    split; [|split; [|split]].
    + rewrite Hn, elem_of_union, elem_of_singleton, elem_of_cons. tauto.
    + rewrite Hs, Hd1, elem_of_cons. destruct (decide (g = gram)) as [->|Hne].
      * split; [intros _; right; by left|intros _; left; by eexists].
      * split; [intros [?|?]; [by left|right; by right]|].
        intros [?|[?|?]]; [by left|done|by right].
    + rewrite Hl, Hd1, filter_cons. destruct (decide (g = gram)) as [->|Hne].
      * rewrite decide_True by done. simpl. by rewrite <- app_assoc.
      * by rewrite decide_False by done.
    + intros Hd. apply Hwf. unfold d1.
      destruct (dict_get d gram); by apply dict_set_wf.
Qed.

Lemma get_ngram_loop_spec (items : list (PSig.rec_id * list string))
    (ngrams ngrams' : gset string) (d d' : list (string * list PSig.rec_id)) g :
  PSig.get_ngram_loop QGRAM_LEN attr_list items (ngrams, d) = Ok (ngrams', d') →
  (g ∈ ngrams' ↔ g ∈ ngrams ∨ ∃ r, r ∈ items ∧ g ∈ grams_of r.2)
  ∧ (is_Some (dict_get d' g)
     ↔ is_Some (dict_get d g) ∨ ∃ r, r ∈ items ∧ g ∈ grams_of r.2)
  ∧ default [] (dict_get d' g) = default [] (dict_get d g) ++ occurrences g items
  ∧ (dict_wf d → dict_wf d').
Proof.
  revert ngrams d. induction items as [|[key rec] items IH]; intros ngrams d.
  - intros [= <- <-]. simpl. rewrite app_nil_r.
    split; [|split; [|split]]; try done;
      (split; [by left|]; intros [?|(r & Hr & _)]; [done|by apply elem_of_nil in Hr]).
  - cbn [PSig.get_ngram_loop]. intros Hl. inv_bind Hl. rename x into value.
    pose proof (add_grams_spec key
                  (PSig.q_grams QGRAM_LEN (String.concat "" value)) ngrams d g)
      as Hadd.
    destruct (PSig.add_grams key _ (ngrams, d)) as [n1 d1].
    destruct Hadd as (Hn & Hs & Hlist & Hwf).
    destruct (IH _ _ Hl) as (Hn' & Hs' & Hlist' & Hwf').
    assert (∀ P : Prop,
              (P ∨ g ∈ PSig.q_grams QGRAM_LEN (String.concat "" value))
              ∨ (∃ r, r ∈ items ∧ g ∈ grams_of r.2)
              ↔ P ∨ ∃ r, r ∈ (key, rec) :: items ∧ g ∈ grams_of r.2) as Hex.
    { intros P. split.
      - intros [[?|Hg]|(r & Hr & Hg)]; [by left| |].
        + right. exists (key, rec). split; [apply list_elem_of_here|].
          simpl. by rewrite Hx.
        + right. exists r. split; [by apply list_elem_of_further|done].
      - intros [?|(r & Hr & Hg)]; [by left; left|].
        apply elem_of_cons in Hr as [->|Hr].
        + left. right. simpl in Hg. by rewrite Hx in Hg.
        + right. by exists r. }
    split; [|split; [|split]].
    + by rewrite Hn', Hn, Hex.
    + by rewrite Hs', Hs, Hex.
    + rewrite Hlist', Hlist, fmap_cons. cbn [concat fst snd]. rewrite Hx.
      by rewrite <- app_assoc.
    + auto.
Qed.

(** X12. On a table that starts empty, [get_ngram] returns a set and a
    table with the same n-grams: those occurring in some record. Every
    n-gram is a key once, and its list holds, record after record in table
    order, the record's id once per occurrence of the n-gram in it. *)
Theorem get_ngram_table (records : list (PSig.rec_id * list string))
    (ngrams : gset string) (ngram_dict : list (string * list PSig.rec_id)) :
  PSig.get_ngram QGRAM_LEN (Some records) [] attr_list
    = Ok (ngrams, ngram_dict) →
  dict_wf ngram_dict
  ∧ ∀ g,
      (g ∈ ngrams ↔ ∃ r, r ∈ records ∧ g ∈ grams_of r.2)
      ∧ (g ∈ ngrams ↔ is_Some (dict_get ngram_dict g))
      ∧ (∀ ids, dict_get ngram_dict g = Some ids → ids = occurrences g records).
Proof.
  unfold PSig.get_ngram. intros Hg. split.
  - destruct (get_ngram_loop_spec _ _ _ _ _ "" Hg) as (_ & _ & _ & Hwf).
    apply Hwf. apply NoDup_nil_2.
  - intros g. destruct (get_ngram_loop_spec _ _ _ _ _ g Hg) as (Hn & Hs & Hl & _).
    split; [|split].
    + rewrite Hn. split; [intros [He|?]; [by apply elem_of_empty in He|done]|by right].
    + rewrite Hn, Hs. split; (intros [He|?]; [|by right]).
      * by apply elem_of_empty in He.
      * by destruct He.
    + intros ids Hids. rewrite Hids in Hl. simpl in Hl. exact Hl.
Qed.
End get_ngram.

Lemma get_ngram_table_witness :
  ∃ ngrams d,
    PSig.get_ngram 2 (Some [("1", ["abab"]); ("2", ["ba"])]) [] [0]
      = Ok (ngrams, d)
    ∧ dict_wf d
    ∧ dict_get d "ab" = Some ["1"; "1"] ∧ dict_get d "ba" = Some ["1"; "2"].
Proof.
  destruct (PSig.get_ngram 2 (Some [("1", ["abab"]); ("2", ["ba"])]) [] [0])
    as [[ngrams d]| |] eqn:Hrun;
    [|exfalso; vm_compute in Hrun; discriminate
     |exfalso; vm_compute in Hrun; discriminate].
  destruct (get_ngram_table 2 [0] _ _ _ Hrun) as [Hwf Hall].
  exists ngrams, d. split; [done|]. split; [exact Hwf|].
  assert (∀ g, is_Some (dict_get d g) → ∃ ids, dict_get d g = Some ids)
    as Hsome by (intros g [ids ?]; by exists ids).
  split.
  - destruct (Hall "ab") as (Hin & Hkey & Hids).
    destruct (Hsome "ab") as [ids Hab].
    { apply Hkey, Hin. exists ("1", ["abab"]). split; [by_eval|by_eval]. }
    rewrite Hab. f_equal. by apply Hids.
  - destruct (Hall "ba") as (Hin & Hkey & Hids).
    destruct (Hsome "ba") as [ids Hba].
    { apply Hkey, Hin. exists ("2", ["ba"]). split; [by_eval|by_eval]. }
    rewrite Hba. f_equal. by apply Hids.
Defined.

(** ** The p-signature pipeline, end to end *)

Lemma elem_of_zip_seq {A} (l : list A) (x : A) (s : nat) :
  x ∈ l ↔ ∃ i, (i, x) ∈ zip (seq s (length l)) l.
Proof.
  split.
  - intros Hin. apply list_elem_of_lookup in Hin as [i Hi].
    exists (s + i). apply list_elem_of_lookup. exists i.
    rewrite lookup_zip_with, lookup_seq_lt, Hi; [done|].
    by apply lookup_lt_Some in Hi.
  - intros [i Hin]. by apply elem_of_zip_r in Hin.
Qed.

Section psig_pipeline.
Variable QGRAM_LEN : nat.
Variables h1 h2 : string → Z.

Lemma microblocks_loop_wf self common
    (items acc idx : list (string * list PSig.rec_id)) :
  dict_wf acc →
  PSig.microblocks_loop h1 h2 self common items acc = Ok idx → dict_wf idx.
Proof.
  revert acc. induction items as [|[ng value] items IH]; intros acc Hwf; simpl.
  - by intros [= <-].
  - intros Hl. inv_bind Hl. apply IH in Hl; [done|].
    destruct (bool_decide _); [by apply dict_set_wf|done].
Qed.

Lemma create_bloom_filter_covers self (ngrams : gset string) bloom g bf :
  (0 < PSig.bf_len self)%Z →
  PSig.create_bloom_filter h1 h2 self ngrams = Ok bloom →
  g ∈ ngrams → PSig.ngram2bf h1 h2 self g = Ok bf → bf ⊆ bloom.
Proof.
  intros Hlen Hrun Hg Hbf x Hx. unfold PSig.create_bloom_filter in Hrun.
  destruct (create_fold_union h1 h2 self Hlen (elements ngrams) ∅)
    as (bloom' & Hrun' & Hin).
  rewrite Hrun in Hrun'. injection Hrun' as <-.
  apply Hin. right. exists g, bf. by rewrite elem_of_elements.
Qed.

(** The key of an entry of a table built by [get_ngram] from the empty
    table is in the returned set. *)
Lemma get_ngram_key_in_set attr_list records (ngrams : gset string)
    (d : list (string * list PSig.rec_id)) g ids :
  PSig.get_ngram QGRAM_LEN records [] attr_list = Ok (ngrams, d) →
  dict_get d g = Some ids → g ∈ ngrams ∧ dict_wf d.
Proof.
  unfold PSig.get_ngram. destruct records as [records|]; [|done].
  intros Hrun Hg.
  destruct (get_ngram_loop_spec QGRAM_LEN attr_list _ _ _ _ _ g Hrun)
    as (Hn & Hs & _ & Hwf).
  split; [|apply Hwf, NoDup_nil_2].
  apply Hn. right.
  destruct (proj1 Hs) as [[? ?]|?]; [by rewrite Hg|done|done].
Qed.

(** X13. One full run of the p-signature blocking on an instance with no
    filters and empty n-gram tables: [common_bloom_filter], both builds,
    then [generate_blocks]. For a positive filter length, the candidate
    table holds a block with id lists [a] and [b] if and only if some n-gram
    has list [a] in Alice's n-gram table and list [b] in Bob's: filtering by
    the common signature loses no n-gram that the two parties share. *)
Theorem psig_blocks_are_the_shared_ngrams
    (self s1 s2 s3 s4 : PSig.t) (attr_list : list nat) (common : gset Z)
    (n : nat) :
  (0 < PSig.bf_len self)%Z →
  PSig.alice_bf self = None ∨ PSig.bob_bf self = None →
  PSig.ngram_alice_dict self = [] →
  PSig.ngram_bob_dict self = [] →
  PSig.common_bloom_filter QGRAM_LEN h1 h2 self attr_list = Ok (s1, common) →
  PSig.build_index_alice h1 h2 s1 = Ok s2 →
  PSig.build_index_bob h1 h2 s2 = Ok s3 →
  PSig.generate_blocks s3 = Ok (s4, n) →
  ∃ bd,
    PSig.block_dict s4 = Some bd ∧ n = length bd
    ∧ ∀ a b,
        (∃ key, (key, (a, b)) ∈ bd)
        ↔ ∃ g, dict_get (PSig.ngram_alice_dict s4) g = Some a
               ∧ dict_get (PSig.ngram_bob_dict s4) g = Some b.
Proof.
  intros Hlen Hnone HdA HdB Hcommon HbA HbB Hgen.
  unfold PSig.common_bloom_filter in Hcommon. inv_bind Hcommon.
  rename x into sB.
  assert (('(self, _) ← PSig.alice_bloom_filter QGRAM_LEN h1 h2 self attr_list;
           '(self, _) ← PSig.bob_bloom_filter QGRAM_LEN h1 h2 self attr_list;
           Ok self) = Ok sB) as Hrun.
  { destruct (PSig.alice_bf self), (PSig.bob_bf self); try done.
    by destruct Hnone. }
  clear Hx Hnone. inv_bind Hrun. destruct x as [sA bfA].
  inv_bind Hrun. destruct x as [sB' bfB]. injection Hrun as ->.
  unfold PSig.alice_bloom_filter in Hx. inv_bind Hx. destruct x as [ngA dA].
  inv_bind Hx. rename x into bfA'. injection Hx as <- <-.
  rename Hx1 into HgetA, Hx2 into HcreateA.
  unfold PSig.bob_bloom_filter in Hx0. inv_bind Hx0. destruct x as [ngB dB].
  inv_bind Hx0. rename x into bfB'. injection Hx0 as <- <-.
  rename Hx into HgetB, Hx1 into HcreateB.
  cbn [PSig.set_alice PSig.rec_dict_bob PSig.ngram_bob_dict] in HgetB.
  rewrite HdA in HgetA. rewrite HdB in HgetB.
  cbn [PSig.set_bob PSig.set_alice PSig.alice_bf PSig.bob_bf] in Hcommon.
  injection Hcommon as <- <-.
  unfold PSig.build_index_alice in HbA.
  cbn [PSig.set_common_bf PSig.set_bob PSig.set_alice PSig.rec_dict_alice
       PSig.common_bf PSig.ngram_alice_dict] in HbA.
  destruct (PSig.rec_dict_alice self) as [recsA|] eqn:HrA; [|done].
  inv_bind HbA. rename x into ia, Hx into HmA. injection HbA as <-.
  unfold PSig.build_index_bob in HbB.
  cbn [PSig.set_index_alice PSig.set_common_bf PSig.set_bob PSig.set_alice
       PSig.rec_dict_bob PSig.common_bf PSig.ngram_bob_dict] in HbB.
  destruct (PSig.rec_dict_bob self) as [recsB|] eqn:HrB; [|done].
  inv_bind HbB. rename x into ib, Hx into HmB. injection HbB as <-.
  unfold PSig.generate_blocks in Hgen.
  cbn [PSig.set_index_bob PSig.set_index_alice PSig.index_alice
       PSig.index_bob] in Hgen.
  injection Hgen as <- <-.
  rewrite join_loop_appends
    by (intros ? ? Hin; by apply elem_of_nil in Hin).
  rewrite app_nil_l.
  set (m := omap (fun '(g, a) => (fun b => (a, b)) <$> dict_get ib g) ia).
  exists (zip (seq 0 (length m)) m). split; [done|]. split; [done|].
  cbn [PSig.set_block_dict PSig.set_index_bob PSig.set_index_alice
       PSig.set_common_bf PSig.set_bob PSig.set_alice
       PSig.ngram_alice_dict PSig.ngram_bob_dict].
  (* the two indexes, entry by entry *)
  assert (∃ wfA : dict_wf dA, ∀ g ids, dict_get dA g = Some ids → g ∈ ngA)
    as [HwfA HinA].
  { assert (dict_wf dA) as Hwf.
    { unfold PSig.get_ngram in HgetA.
      destruct (get_ngram_loop_spec QGRAM_LEN attr_list _ _ _ _ _ "" HgetA)
        as (_ & _ & _ & Hwf). apply Hwf, NoDup_nil_2. }
    exists Hwf. intros g ids Hg.
    by destruct (get_ngram_key_in_set _ _ _ _ _ _ HgetA Hg). }
  assert (∃ wfB : dict_wf dB, ∀ g ids, dict_get dB g = Some ids → g ∈ ngB)
    as [HwfB HinB].
  { assert (dict_wf dB) as Hwf.
    { unfold PSig.get_ngram in HgetB.
      destruct (get_ngram_loop_spec QGRAM_LEN attr_list _ _ _ _ _ "" HgetB)
        as (_ & _ & _ & Hwf). apply Hwf, NoDup_nil_2. }
    exists Hwf. intros g ids Hg.
    by destruct (get_ngram_key_in_set _ _ _ _ _ _ HgetB Hg). }
  unfold PSig.microblocks in HmA, HmB.
  pose proof (microblocks_loop_kept h1 h2 _ _ dA [] ia HwfA
                (fun _ _ => eq_refl) HmA) as HkA.
  pose proof (microblocks_loop_kept h1 h2 _ _ dB [] ib HwfB
                (fun _ _ => eq_refl) HmB) as HkB.
  pose proof (microblocks_loop_wf _ _ _ _ _ (NoDup_nil_2 : dict_wf []) HmA)
    as Hwfia.
  intros a b. rewrite <- elem_of_zip_seq. unfold m.
  rewrite list_elem_of_omap. split.
  - intros ([g a'] & Hin & Hf).
    destruct (dict_get ib g) as [b'|] eqn:Hib; [|done].
    simpl in Hf. injection Hf as -> ->.
    exists g. split.
    + apply (dict_get_wf _ _ _ Hwfia) in Hin.
      apply HkA in Hin as [?|[? _]]; done.
    + apply HkB in Hib as [?|[? _]]; done.
  - intros (g & Ha & Hb).
    destruct (ngram2bf_Ok h1 h2 self Hlen g) as (bf & Hbf & _).
    assert (bf ⊆ bfA' ∩ bfB') as Hsub.
    { apply intersection_greatest.
      - exact (create_bloom_filter_covers self ngA bfA' g bf Hlen HcreateA
                 (HinA _ _ Ha) Hbf).
      - exact (create_bloom_filter_covers (PSig.set_alice self bfA' dA) ngB bfB'
                 g bf Hlen HcreateB (HinB _ _ Hb) Hbf). }
    exists (g, a). split.
    + apply dict_get_elem_of, HkA. right. split; [done|]. by exists bf.
    + assert (dict_get ib g = Some b) as ->; [|done].
      apply HkB. right. split; [done|]. by exists bf.
Qed.
End psig_pipeline.

Lemma psig_blocks_are_the_shared_ngrams_witness :
  ∃ key,
    (key, (["1"], ["1"]))
    ∈ default [] (PSig.block_dict
                    (match PSig.generate_blocks Ex.psig_built with
                     | Ok (self, _) => self
                     | _ => Ex.psig_built
                     end)).
Proof.
  destruct (psig_blocks_are_the_shared_ngrams 2 Ex.digest1 Ex.digest2
              Ex.psig Ex.psig_common
              (match PSig.build_index_alice Ex.digest1 Ex.digest2
                       Ex.psig_common with
               | Ok self => self
               | _ => Ex.psig_common
               end)
              Ex.psig_built
              (match PSig.generate_blocks Ex.psig_built with
               | Ok (self, _) => self
               | _ => Ex.psig_built
               end)
              [0] Ex.common 2)
    as (bd & Hbd & _ & Hiff);
    [done|by left|done|done
     |vm_compute; reflexivity|vm_compute; reflexivity
     |vm_compute; reflexivity|vm_compute; reflexivity|].
  rewrite Hbd. simpl. apply Hiff. exists "sm".
  split; vm_compute; reflexivity.
Defined.

(** ** The order on strings, [sorted] and [bisect] *)

Section string_order.

Lemma compare_lt_trans (x y z : string) :
  String.compare x y = Lt → String.compare y z = Lt → String.compare x z = Lt.
Proof.
  intros Hxy Hyz. apply OrderedTypeEx.String_as_OT.cmp_lt.
  eapply OrderedTypeEx.String_as_OT.lt_trans;
    by apply OrderedTypeEx.String_as_OT.cmp_lt.
Qed.

Lemma ltb_leb_trans (x y z : string) :
  String.ltb x y = true → String.leb y z = true → String.ltb x z = true.
Proof.
  unfold String.ltb, String.leb.
  destruct (String.compare x y) eqn:Hxy; [done| |done].
  destruct (String.compare y z) eqn:Hyz; [| |done]; intros _ _.
  - apply String.compare_eq_iff in Hyz as <-. by rewrite Hxy.
  - by rewrite (compare_lt_trans x y z).
Qed.

Lemma ltb_false_leb (x y : string) :
  String.ltb x y = false ↔ String.leb y x = true.
Proof.
  unfold String.ltb, String.leb. rewrite (String.compare_antisym x y).
  by destruct (String.compare y x).
Qed.

Lemma leb_refl (x : string) : String.leb x x = true.
Proof. by destruct (String.leb_total x x). Qed.

#[local] Instance str_le_total : Total str_le.
Proof. intros x y. apply String.leb_total. Qed.

#[local] Instance str_le_trans : Transitive str_le.
Proof.
  intros x y z Hxy Hyz. unfold str_le in *.
  apply ltb_false_leb. destruct (String.ltb z x) eqn:Hzx; [|done].
  pose proof (ltb_leb_trans z x y Hzx Hxy) as Hzy.
  apply ltb_false_leb in Hyz. congruence.
Qed.

Lemma sorted_StronglySorted (l : list string) : StronglySorted str_le (sorted l).
Proof. apply (StronglySorted_merge_sort str_le). Qed.

Lemma sorted_Permutation (l : list string) : sorted l ≡ₚ l.
Proof. apply (merge_sort_Permutation str_le). Qed.

Lemma StronglySorted_lookup_le (a : list string) (i j : nat) (y y' : string) :
  StronglySorted str_le a → i ≤ j →
  a !! i = Some y → a !! j = Some y' → str_le y y'.
Proof.
  intros Hs. revert i j. induction Hs as [|v a Hs IH Hall]; intros i j Hij Hi Hj.
  - done.
  - destruct i as [|i], j as [|j]; simpl in Hi, Hj.
    + injection Hi as <-. injection Hj as <-. apply leb_refl.
    + injection Hi as <-. rewrite Forall_forall in Hall.
      apply Hall. by eapply list_elem_of_lookup_2.
    + lia.
    + apply (IH i j); [lia|done|done].
Qed.

Lemma bisect_loop_partition (a : list string) (x : string) fuel lo hi :
  StronglySorted str_le a →
  lo ≤ hi ≤ length a → hi - lo ≤ fuel →
  (∀ i y, a !! i = Some y → i < lo → String.ltb x y = false) →
  (∀ i y, a !! i = Some y → hi ≤ i → String.ltb x y = true) →
  ∀ i y, a !! i = Some y →
    (i < bisect_loop fuel a x lo hi → String.ltb x y = false)
    ∧ (bisect_loop fuel a x lo hi ≤ i → String.ltb x y = true).
Proof.
  intros Hs. revert lo hi.
  induction fuel as [|fuel IH]; intros lo hi Hb Hfuel Hlo Hhi i y Hi;
    cbn [bisect_loop].
  - split; [by apply Hlo|]. intros ?. apply (Hhi i); [done|lia].
  - destruct (lo <? hi) eqn:Hlt.
    2:{ apply Nat.ltb_ge in Hlt. split; [by apply Hlo|].
        intros ?. apply (Hhi i); [done|lia]. }
    apply Nat.ltb_lt in Hlt.
    assert (lo ≤ (lo + hi) `div` 2 < hi) as Hmid.
    { pose proof (Nat.div_mod_eq (lo + hi) 2).
      pose proof (Nat.mod_upper_bound (lo + hi) 2). lia. }
    destruct (lookup_lt_is_Some_2 a ((lo + hi) `div` 2)) as [ym Hym]; [lia|].
    rewrite Hym. destruct (String.ltb x ym) eqn:Hx.
    + apply IH; [lia|lia|done| |done].
      intros i' y' Hi' Hge.
      apply (ltb_leb_trans x ym y' Hx).
      by apply (StronglySorted_lookup_le a ((lo + hi) `div` 2) i').
    + apply IH; [lia|lia| |done|done].
      intros i' y' Hi' Hle.
      destruct (String.ltb x y') eqn:Hx'; [|done].
      rewrite <- Hx. symmetry. apply (ltb_leb_trans x y' ym Hx').
      apply (StronglySorted_lookup_le a i' ((lo + hi) `div` 2));
        [done|lia|done|done].
Qed.

Lemma bisect_partition (a : list string) (x : string) (i : nat) (y : string) :
  StronglySorted str_le a → a !! i = Some y → i < bisect a x ↔ str_le y x.
Proof.
  intros Hs Hi.
  destruct (bisect_loop_partition a x (length a) 0 (length a) Hs) with i y
    as [Hbelow Habove]; [lia|lia|lia| |done|].
  { intros i' y' Hi' Hge. apply lookup_lt_Some in Hi'. lia. }
  fold (bisect a x) in Hbelow, Habove. unfold str_le. split.
  - intros Hlt. by apply ltb_false_leb, Hbelow.
  - intros Hle. apply ltb_false_leb in Hle.
    destruct (decide (i < bisect a x)) as [|Hn]; [done|].
    rewrite Habove in Hle by lia. done.
Qed.
End string_order.

(** X14. [__sort_ref_values_alice__] (and its Bob twin) with a reference
    list assigned never raises: the sorted list is a rearrangement of the
    reference values in non-decreasing order, and the position table holds
    exactly the positions [0 .. N]: the sentinel at 0 and the [i]-th sorted
    value at [i + 1]. *)
Theorem sort_ref_values_layout (SORTED_FIRST_VAL : string)
    (ref_val_list : list string) :
  ∃ ref_ind_dict sort_ref_val_list,
    SNN.sort_ref_values SORTED_FIRST_VAL (Some ref_val_list)
      = Ok (ref_ind_dict, sort_ref_val_list)
    ∧ sort_ref_val_list ≡ₚ ref_val_list
    ∧ StronglySorted str_le sort_ref_val_list
    ∧ ∀ z : Z,
        ref_ind_dict !! z
        = if decide (0 ≤ z ≤ Z.of_nat (length ref_val_list))%Z
          then (SORTED_FIRST_VAL :: sort_ref_val_list) !! Z.to_nat z
          else None.
Proof.
  eexists _, _. split; [reflexivity|].
  split; [apply sorted_Permutation|]. split; [apply sorted_StronglySorted|].
  intros z. rewrite assign_positions_lookup.
  rewrite (Permutation_length (sorted_Permutation ref_val_list)).
  destruct (decide (1 ≤ z < 1 + Z.of_nat (length ref_val_list))%Z) as [Hin|Hout].
  - rewrite decide_True by lia.
    replace (Z.to_nat z) with (S (Z.to_nat (z - 1))) by lia. done.
  - destruct (decide (z = 0%Z)) as [->|Hz].
    + rewrite decide_True by lia. by rewrite lookup_singleton_eq.
    + rewrite decide_False by lia. by rewrite lookup_singleton_ne.
Qed.

(** X15. On a list in non-decreasing order, [bisect] returns the number of
    elements that are at most [x]: the element at position [i] is at most
    [x] exactly when [i] is below the returned position. *)
Theorem bisect_counts_not_greater (a : list string) (x : string) :
  StronglySorted str_le a →
  bisect a x ≤ length a
  ∧ ∀ i y, a !! i = Some y → (i < bisect a x ↔ str_le y x).
Proof.
  intros Hs. split; [apply bisect_le_length|]. intros i y Hi.
  by apply bisect_partition.
Qed.

Lemma bisect_counts_not_greater_witness :
  bisect ["bob"; "cat"; "rob"] "cat" = 2
  ∧ (1 < bisect ["bob"; "cat"; "rob"] "cat" ↔ str_le "cat" "cat").
Proof.
  assert (StronglySorted str_le ["bob"; "cat"; "rob"]) as Hs.
  { repeat (apply SSorted_cons; [|repeat (apply Forall_cons; split; [by_eval|]);
                                   apply Forall_nil_2]).
    apply SSorted_nil. }
  split; [reflexivity|].
  exact (proj2 (bisect_counts_not_greater ["bob"; "cat"; "rob"] "cat" Hs)
           1 "cat" eq_refl).
Defined.

(** ** Where a record is filed *)

(** X16. With the position table and sorted list of
    [__sort_ref_values_*__], the insertion loop of
    [__generate_sorted_index__] files every record under the greatest
    reference value that is at most the record's sort key, and under the
    sentinel when every reference value is greater than the key. *)
Theorem record_filed_under_greatest_ref_value_not_above
    (SORTED_FIRST_VAL : string) (ref_val_list : list string)
    (attr_select_list : list nat) (items : list (SNN.rec_id * list string))
    (ref_ind_dict : gmap Z string) (sort_ref_val_list : list string)
    (ref_val_dict : gmap string (list SNN.rec_id)) :
  SNN.sort_ref_values SORTED_FIRST_VAL (Some ref_val_list)
    = Ok (ref_ind_dict, sort_ref_val_list) →
  SNN.insert_records attr_select_list sort_ref_val_list ref_ind_dict items
    (SNN.empty_ref_val_dict SORTED_FIRST_VAL sort_ref_val_list)
    = Ok ref_val_dict →
  ∀ rid rec_list sk_val,
    (rid, rec_list) ∈ items →
    SNN.sort_key attr_select_list rec_list "" = Ok sk_val →
    ∃ ref_val ids,
      ref_val_dict !! ref_val = Some ids ∧ rid ∈ ids
      ∧ ((ref_val = SORTED_FIRST_VAL
          ∧ ∀ y, y ∈ ref_val_list → ¬ str_le y sk_val)
         ∨ (ref_val ∈ ref_val_list ∧ str_le ref_val sk_val
            ∧ ∀ y, y ∈ ref_val_list → str_le y sk_val → str_le y ref_val)).
Proof.
  intros Hsort Hins rid rec_list sk_val Hin Hsk.
  destruct (sort_ref_values_lookup _ _ _ _ (bisect sort_ref_val_list sk_val)
              Hsort) as [Hd Hsrt].
  pose proof (bisect_le_length sort_ref_val_list sk_val) as Hle.
  destruct (lookup_lt_is_Some_2 (SORTED_FIRST_VAL :: sort_ref_val_list)
              (bisect sort_ref_val_list sk_val)) as [ref_val Hv];
    [simpl; lia|].
  exists ref_val.
  rewrite (insert_records_filed_exactly _ _ _ _ _ _ Hins ref_val).
  rewrite (empty_ref_val_dict_has SORTED_FIRST_VAL sort_ref_val_list ref_val)
    by (by eapply list_elem_of_lookup_2).
  eexists. split; [reflexivity|]. split.
  { simpl. apply list_elem_of_fmap. exists (rid, rec_list). split; [done|].
    apply list_elem_of_filter. split; [|done].
    simpl. by rewrite Hsk, Hd. }
  assert (StronglySorted str_le sort_ref_val_list) as Hs
    by (rewrite Hsrt; apply sorted_StronglySorted).
  assert (∀ y, y ∈ ref_val_list →
            ∃ i, sort_ref_val_list !! i = Some y) as Hpos.
  { intros y Hy. apply list_elem_of_lookup.
    by rewrite Hsrt, (sorted_Permutation ref_val_list). }
  destruct (bisect sort_ref_val_list sk_val) as [|p] eqn:Hp.
  - left. injection Hv as <-. split; [done|].
    intros y Hy Hle'. destruct (Hpos y Hy) as [i Hi].
    apply (bisect_partition _ sk_val i y Hs Hi) in Hle'. lia.
  - right. simpl in Hv. split; [|split].
    + rewrite <- (sorted_Permutation ref_val_list), <- Hsrt.
      by eapply list_elem_of_lookup_2.
    + apply (bisect_partition _ sk_val p ref_val Hs Hv). lia.
    + intros y Hy Hle'. destruct (Hpos y Hy) as [i Hi].
      apply (bisect_partition _ sk_val i y Hs Hi) in Hle'.
      apply (StronglySorted_lookup_le sort_ref_val_list i p);
        [done|lia|done|done].
Qed.

Lemma record_filed_under_greatest_ref_value_not_above_witness :
  ∃ ref_val_dict ref_val ids,
    SNN.insert_records [0] ["bob"; "cat"; "rob"] Ex.positions_alice
      Ex.recs_alice (SNN.empty_ref_val_dict "" ["bob"; "cat"; "rob"])
      = Ok ref_val_dict
    ∧ ref_val_dict !! ref_val = Some ids ∧ "a5" ∈ ids.
Proof.
  destruct (SNN.insert_records [0] ["bob"; "cat"; "rob"] Ex.positions_alice
              Ex.recs_alice (SNN.empty_ref_val_dict "" ["bob"; "cat"; "rob"]))
    as [rvd| |] eqn:Hrun;
    [|exfalso; vm_compute in Hrun; discriminate
     |exfalso; vm_compute in Hrun; discriminate].
  destruct (record_filed_under_greatest_ref_value_not_above ""
              Ex.refs_alice [0] Ex.recs_alice Ex.positions_alice
              ["bob"; "cat"; "rob"] rvd)
    with "a5" ["bz"] "bz" as (ref_val & ids & Hids & Hin & _);
    [vm_compute; reflexivity|exact Hrun|by_eval|reflexivity|].
  by exists rvd, ref_val, ids.
Defined.

(** ** Bucket keys *)

Section bucket_keys.

(** The key that holds the positions [ns], as the sweep builds it. *)
Local Abbreviation add_pos :=
  (fun (id : string) (n : nat) => id +:+ str (Z.of_nat n) +:+ "_").
Local Abbreviation key_of ns := (foldl add_pos "b_" ns).
Local Abbreviation key_body ns :=
  (foldr (fun (n : nat) acc => str (Z.of_nat n) +:+ String "_" acc) "" ns).

Lemma str_app_assoc (a b c : string) : (a +:+ b) +:+ c = a +:+ (b +:+ c).
Proof.
  induction a as [|x a IH]; [done|].
  change (String x ((a +:+ b) +:+ c) = String x (a +:+ b +:+ c)). by f_equal.
Qed.

Lemma split_sep (c : ascii) (s rest : string) :
  Forall (fun a => a ≠ c) (list_ascii_of_string s) →
  split c (s +:+ String c rest) = s :: split c rest.
Proof.
  induction s as [|a s IH].
  - intros _. change (split c (String c rest) = "" :: split c rest).
    cbn [split]. by rewrite decide_True.
  - intros Hall. apply Forall_cons in Hall as [Ha Hall].
    change (split c (String a (s +:+ String c rest))
            = String a s :: split c rest).
    cbn [split]. rewrite decide_False by done. by rewrite IH.
Qed.

Lemma uint_no_sep (d : Decimal.uint) :
  Forall (fun a => a ≠ "_"%char)
         (list_ascii_of_string (NilEmpty.string_of_uint d)).
Proof. induction d; simpl; constructor; done. Qed.

Lemma str_no_sep (z : Z) :
  Forall (fun a => a ≠ "_"%char) (list_ascii_of_string (str z)).
Proof.
  assert (∀ d, Forall (fun a => a ≠ "_"%char)
                 (list_ascii_of_string (NilZero.string_of_uint d))) as Hu.
  { intros d. destruct d; try apply (uint_no_sep (_ _)).
    simpl. by repeat constructor. }
  unfold str. destruct (Z.to_int z) as [d|d]; simpl; [apply Hu|].
  constructor; [done|apply Hu].
Qed.

Lemma int_str (z : Z) : int (str z) = Ok z.
Proof.
  unfold int, str. rewrite NilZero.isi.
  - by rewrite DecimalZ.of_to.
  - destruct z as [|p|p]; simpl; [done| |done].
    intros [= Hp]. by apply DecimalPos.Unsigned.to_uint_nonnil in Hp.
  - destruct z as [|p|p]; simpl; [done|done|].
    intros [= Hp]. by apply DecimalPos.Unsigned.to_uint_nonnil in Hp.
Qed.

Lemma foldl_add_pos (id : string) (ns : list nat) :
  foldl add_pos id ns = id +:+ key_body ns.
Proof.
  revert id. induction ns as [|n ns IH]; intros id; cbn [foldl foldr].
  - induction id as [|x id IHid]; [done|].
    change (String x id = String x (id +:+ "")). by f_equal.
  - rewrite IH, !str_app_assoc. done.
Qed.

Lemma split_key_body (ns : list nat) :
  split "_" (key_body ns) = ((fun n => str (Z.of_nat n)) <$> ns) ++ [""].
Proof.
  induction ns as [|n ns IH]; [done|]. cbn [foldr fmap list_fmap app].
  rewrite split_sep by apply str_no_sep. by rewrite IH.
Qed.

Lemma ref_nums_of_key_of (ns : list nat) :
  SNN.ref_nums_of_key (key_of ns) = Ok (Z.of_nat <$> ns).
Proof.
  unfold SNN.ref_nums_of_key. rewrite foldl_add_pos.
  change ("b_" +:+ key_body ns) with ("b" +:+ String "_" (key_body ns)).
  rewrite split_sep by (by repeat constructor).
  rewrite split_key_body. cbn [tail]. rewrite removelast_last.
  induction ns as [|n ns IH]; [done|]. cbn [fmap list_fmap mapM].
  rewrite int_str. cbn [mbind result_bind]. fold (@fmap list _ nat string).
  by rewrite IH.
Qed.

Lemma key_of_inj (ns ms : list nat) : key_of ns = key_of ms → ns = ms.
Proof.
  intros Hk. pose proof (ref_nums_of_key_of ns) as Hn.
  rewrite Hk, ref_nums_of_key_of in Hn. injection Hn as Hn.
  by apply (inj (fmap Z.of_nat)) in Hn.
Qed.

Lemma extend_block_id_positions (id : string) (i j : nat) :
  SNN.extend_block_id id i j = foldl add_pos id (seq i j).
Proof.
  unfold SNN.extend_block_id.
  replace (seq i j) with (Nat.add i <$> seq 0 j)
    by (by rewrite fmap_add_seq, Nat.add_0_r).
  by rewrite foldl_fmap.
Qed.

Lemma extend_key_of (ns : list nat) (i j : nat) :
  SNN.extend_block_id (key_of ns) i j = key_of (ns ++ seq i j).
Proof. by rewrite extend_block_id_positions, foldl_app. Qed.
End bucket_keys.

(** X17. Encoding and decoding of bucket keys agree: a key that starts as
    ['b_'] and is extended, any number of times, by the positions
    [i .. i+j-1] of a group (as the sweep does for a fresh and for a merged
    bucket) is split by [__select_rep_ref_vals__] into exactly those
    positions, in the order in which they were appended. *)
Theorem ref_nums_of_extended_key (groups : list (nat * nat)) :
  SNN.ref_nums_of_key
    (foldl (fun id '(i, j) => SNN.extend_block_id id i j) "b_" groups)
  = Ok (Z.of_nat <$> concat ((fun '(i, j) => seq i j) <$> groups)).
Proof.
  assert (∀ ns,
            foldl (fun id '(i, j) => SNN.extend_block_id id i j)
                  (foldl (fun (id : string) (n : nat) =>
                            id +:+ str (Z.of_nat n) +:+ "_") "b_" ns) groups
            = foldl (fun (id : string) (n : nat) =>
                       id +:+ str (Z.of_nat n) +:+ "_") "b_"
                    (ns ++ concat ((fun '(i, j) => seq i j) <$> groups)))
    as Hkey.
  { induction groups as [|[i j] groups IH]; intros ns; simpl.
    - by rewrite app_nil_r.
    - rewrite extend_key_of, IH. by rewrite <- app_assoc. }
  etrans; [exact (f_equal SNN.ref_nums_of_key (Hkey []))|].
  apply ref_nums_of_key_of.
Qed.

(** ** What [__select_rep_ref_vals__] exposes *)

Lemma elem_of_concat {A} (x : A) (ls : list (list A)) :
  x ∈ concat ls ↔ ∃ l, l ∈ ls ∧ x ∈ l.
Proof.
  induction ls as [|l ls IH]; simpl.
  - split; [intros Hx; by apply elem_of_nil in Hx|].
    intros (l & Hl & _). by apply elem_of_nil in Hl.
  - rewrite elem_of_app, IH. split.
    + intros [Hx|(l' & Hl' & Hx)].
      * exists l. split; [apply list_elem_of_here|done].
      * exists l'. split; [by apply list_elem_of_further|done].
    + intros (l' & Hl' & Hx). apply elem_of_cons in Hl' as [->|Hl'].
      * by left.
      * right. by exists l'.
Qed.

Lemma next_key_elem {K V} (p : K → bool) (d : list (K * V)) (key : K) :
  next_key p d = Ok key → key ∈ d.*1.
Proof.
  induction d as [|[k0 v0] d IH]; simpl; [done|].
  destruct (p k0).
  - intros [= ->]. apply list_elem_of_here.
  - intros Hn. apply list_elem_of_further. auto.
Qed.

Section exposure.
Variable self : SNN.t.
Variable ref_ind_dict : gmap Z string.
Variable ref_val_dict : gmap string (list SNN.rec_id).
Variable len : nat.
Hypothesis k_nonneg : (0 ≤ SNN.k self)%Z.

Local Abbreviation key_of :=
  (fun ns : list nat =>
     foldl (fun (id : string) (n : nat) => id +:+ str (Z.of_nat n) +:+ "_")
           "b_" ns).

Lemma grow_within fuel i j num blk sim j' blk' :
  i + j ≤ len →
  SNN.grow self ref_ind_dict ref_val_dict len fuel i j num blk sim
    = Ok (j', blk') → i + j' ≤ len.
Proof.
  revert j num blk sim. induction fuel as [|fuel IH]; intros j num blk sim Hj;
    cbn [SNN.grow]; [done|].
  destruct (_ || _) eqn:Hc; [|by intros [= <- _]].
  assert (i + j < len) as Hlt.
  { apply orb_true_iff in Hc as [Hc|Hc];
      apply andb_true_iff in Hc as [_ Hc]; by apply Nat.ltb_lt in Hc. }
  intros Hg. inv_bind Hg. inv_bind Hg. inv_bind Hg.
  apply IH in Hg; lia.
Qed.

Lemma dict_del_groups (gs : list (list nat))
    (bd : list (string * list SNN.rec_id)) (g0 : list nat) :
  bd.*1 = key_of <$> gs → key_of g0 ∈ bd.*1 →
  ∃ gs', (dict_del bd (key_of g0)).*1 = key_of <$> gs'
         ∧ concat gs ≡ₚ g0 ++ concat gs'.
Proof.
  revert gs. induction bd as [|[k0 v0] bd IH]; intros gs Hkeys Hin.
  - by apply elem_of_nil in Hin.
  - destruct gs as [|g gs]; [done|]. injection Hkeys as Hk0 Hkeys.
    cbn [dict_del]. destruct (decide (key_of g0 = k0)) as [Heq|Hne].
    + exists gs. split; [done|]. rewrite Hk0 in Heq.
      apply key_of_inj in Heq as ->. done.
    + cbn [fmap list_fmap fst] in Hin.
      apply elem_of_cons in Hin as [Hin|Hin]; [done|].
      destruct (IH gs Hkeys Hin) as (gs' & Hdel & Hperm).
      exists (g :: gs'). split.
      * cbn [fmap list_fmap fst]. by rewrite Hk0, <- Hdel.
      * cbn [concat]. rewrite Hperm. apply Permutation_app_swap_app.
Qed.

Lemma sweep_keys_cover fuel i (bd : list (string * list SNN.rec_id))
    keys (idx : list (string * list SNN.rec_id)) :
  i ≤ len →
  (∃ gs, bd.*1 = key_of <$> gs ∧ concat gs ≡ₚ seq 0 i) →
  SNN.sweep self ref_ind_dict ref_val_dict len fuel i bd keys = Ok idx →
  ∃ gs, idx.*1 = key_of <$> gs ∧ concat gs ≡ₚ seq 0 len.
Proof.
  revert i bd keys.
  induction fuel as [|fuel IH]; intros i bd keys Hi (gs & Hkeys & Hperm) Hs;
    [done|].
  cbn [SNN.sweep] in Hs. destruct (i <? len) eqn:Hlt.
  2:{ injection Hs as <-. apply Nat.ltb_ge in Hlt.
      assert (i = len) as <- by lia. by exists gs. }
  apply Nat.ltb_lt in Hlt. inv_bind Hs. destruct x as [j blk].
  pose proof (grow_takes_one _ _ _ _ _ _ _ _ _ _ k_nonneg Hlt Hx) as Hj1.
  assert (i + j ≤ len) as Hj2
    by (refine (grow_within _ _ 0 _ _ _ _ _ _ Hx); lia).
  inv_bind Hs. destruct x as [[[block_id blk'] bd0] keys0].
  assert (∃ g0 gs0, block_id = key_of g0 ∧ bd0.*1 = key_of <$> gs0
                    ∧ g0 ++ concat gs0 ≡ₚ seq 0 i)
    as (g0 & gs0 & -> & Hk0 & Hp0).
  { destruct (_ <? _)%Z.
    - unfold SNN.merge_with_previous in Hx0.
      inv_bind Hx0. inv_bind Hx0. inv_bind Hx0.
      injection Hx0 as <- <- <- <-.
      apply next_key_elem in Hx1. pose proof Hx1 as Hin.
      rewrite Hkeys in Hin. apply list_elem_of_fmap in Hin as (g0 & -> & _).
      destruct (dict_del_groups gs bd g0 Hkeys Hx1) as (gs' & Hdel & Hp).
      exists g0, gs'. split; [done|]. split; [done|]. by rewrite <- Hp.
    - injection Hx0 as <- <- <- <-. by exists [], gs. }
  rewrite extend_key_of in Hs. apply IH in Hs; [done|lia|].
  exists (gs0 ++ [g0 ++ seq i j]). split.
  - rewrite dict_set_fresh.
    + by rewrite !fmap_app, Hk0.
    + rewrite Hk0. intros Hin.
      apply list_elem_of_fmap in Hin as (g' & Heq & Hg').
      apply key_of_inj in Heq as <-.
      assert (i ∈ seq 0 i) as Habs.
      { rewrite <- Hp0. apply elem_of_app. right.
        apply elem_of_concat. exists (g0 ++ seq i j). split; [done|].
        apply elem_of_app. right. apply elem_of_seq. lia. }
      apply elem_of_seq in Habs. lia.
  - rewrite concat_app. cbn [concat]. rewrite app_nil_r.
    rewrite seq_app, <- Hp0. cbn [Nat.add].
    rewrite (app_assoc (concat gs0)).
    rewrite (Permutation_app_comm (concat gs0) g0). done.
Qed.

Lemma register_refs_spec key (rep_refs : list Z)
    (rep_index : gmap string string) :
  (∀ z, z ∈ rep_refs → is_Some (ref_ind_dict !! z)) →
  ∃ rep_index',
    SNN.register_refs ref_ind_dict key rep_refs rep_index = Ok rep_index'
    ∧ (∀ v k', rep_index !! v = Some k' → rep_index' !! v = Some k')
    ∧ (∀ z v, z ∈ rep_refs → ref_ind_dict !! z = Some v →
         is_Some (rep_index' !! v))
    ∧ (∀ v k', rep_index' !! v = Some k' →
         rep_index !! v = Some k' ∨ k' = key).
Proof.
  revert rep_index.
  induction rep_refs as [|z rep_refs IH]; intros rep_index Hdom.
  - exists rep_index. split; [done|]. split; [done|]. split; [|by left].
    intros z v Hz. by apply elem_of_nil in Hz.
  - cbn [SNN.register_refs].
    destruct (Hdom z) as [v Hv]; [apply list_elem_of_here|].
    unfold getitem. rewrite Hv. cbn [mbind result_bind].
    set (ri1 := match rep_index !! v with
                | Some _ => rep_index
                | None => <[v := key]> rep_index
                end).
    destruct (IH ri1) as (ri' & Hrun & Hkeep & Hnew & Hfrom).
    { intros z' Hz'. apply Hdom. by apply list_elem_of_further. }
    assert (∀ v0 k', rep_index !! v0 = Some k' → ri1 !! v0 = Some k') as Hk1.
    { intros v0 k' H0. unfold ri1.
      destruct (rep_index !! v) eqn:Hrv; [done|].
      rewrite lookup_insert_ne; [done|]. intros <-. congruence. }
    assert (is_Some (ri1 !! v)) as Hv1.
    { unfold ri1. destruct (rep_index !! v) eqn:Hrv; [by rewrite Hrv|].
      by rewrite lookup_insert_eq. }
    exists ri'. split; [done|]. split; [auto|]. split.
    + intros z' v' Hz' Hv'. apply elem_of_cons in Hz' as [->|Hz'].
      * rewrite Hv in Hv'. injection Hv' as <-.
        destruct Hv1 as [k1 Hk1']. exists k1. by apply Hkeep.
      * by apply (Hnew z').
    + intros v0 k' H0. destruct (Hfrom v0 k' H0) as [H1|?]; [|by right].
      unfold ri1 in H1. destruct (rep_index !! v) eqn:Hrv; [by left|].
      destruct (decide (v0 = v)) as [->|Hne].
      * rewrite lookup_insert_eq in H1. injection H1 as <-. by right.
      * rewrite lookup_insert_ne in H1 by done. by left.
Qed.

Lemma select_loop_spec (gs : list (list nat)) (rep_ref_vals : list Z)
    (rep_index : gmap string string) :
  (∀ g n, g ∈ gs → n ∈ g → is_Some (ref_ind_dict !! Z.of_nat n)) →
  ∃ rep_index',
    SNN.select_loop ref_ind_dict (key_of <$> gs) rep_ref_vals rep_index
      = Ok (rep_ref_vals ++ (Z.of_nat <$> concat gs), rep_index')
    ∧ (∀ v k', rep_index !! v = Some k' → rep_index' !! v = Some k')
    ∧ (∀ g n v, g ∈ gs → n ∈ g → ref_ind_dict !! Z.of_nat n = Some v →
         is_Some (rep_index' !! v))
    ∧ (∀ v k', rep_index' !! v = Some k' →
         rep_index !! v = Some k' ∨ k' ∈ key_of <$> gs).
Proof.
  revert rep_ref_vals rep_index.
  induction gs as [|g gs IH]; intros rep_ref_vals rep_index Hdom.
  - exists rep_index. cbn [fmap list_fmap concat SNN.select_loop].
    rewrite app_nil_r. split; [done|]. split; [done|]. split; [|by left].
    intros g n v Hg. by apply elem_of_nil in Hg.
  - cbn [fmap list_fmap SNN.select_loop].
    rewrite ref_nums_of_key_of. cbn [mbind result_bind].
    destruct (register_refs_spec (key_of g) (Z.of_nat <$> g) rep_index)
      as (ri1 & Hreg & Hkeep1 & Hnew1 & Hfrom1).
    { intros z Hz. apply list_elem_of_fmap in Hz as (n & -> & Hn).
      apply (Hdom g n); [apply list_elem_of_here|done]. }
    rewrite Hreg. cbn [mbind result_bind].
    destruct (IH (rep_ref_vals ++ (Z.of_nat <$> g)) ri1)
      as (ri' & Hrun & Hkeep & Hnew & Hfrom).
    { intros g' n Hg'. apply Hdom. by apply list_elem_of_further. }
    exists ri'. split.
    { fold (@fmap list _ (list nat) string). rewrite Hrun.
      cbn [concat]. by rewrite fmap_app, app_assoc. }
    split; [auto|]. split.
    + intros g' n v Hg' Hn Hv. apply elem_of_cons in Hg' as [->|Hg'].
      * destruct (Hnew1 (Z.of_nat n) v) as [k1 Hk1]; [|done|].
        { apply list_elem_of_fmap. by exists n. }
        exists k1. by apply Hkeep.
      * by apply (Hnew g' n).
    + intros v k' Hv. destruct (Hfrom v k' Hv) as [H1|H1].
      * destruct (Hfrom1 v k' H1) as [?| ->]; [by left|].
        right. apply list_elem_of_here.
      * right. by apply list_elem_of_further.
Qed.
End exposure.

(** X18. With [k >= 0] in SIM mode, on the index that
    [__generate_sorted_index__] returns for the position table of
    [__sort_ref_values_*__], [__select_rep_ref_vals__] never raises and
    exposes every position [0 .. N-1] exactly once ([N] the number of
    reference values; position [N] is in no bucket). The reference value
    at each of these positions gets an entry in the representative index,
    and every entry names a bucket of the index. *)
Theorem select_rep_ref_vals_exposes_every_bucketed_position
    (SORTED_FIRST_VAL : string) (self : SNN.t)
    (rec_dict : option SNN.RecordTable) (attr_select_list : list nat)
    (ref_val_list : list string) (ref_ind_dict : gmap Z string)
    (sort_ref_val_list : list string) (idx : list (string * list SNN.rec_id)) :
  (0 ≤ SNN.k self)%Z →
  SNN.sim_or_size self = SNN.SIM →
  SNN.sort_ref_values SORTED_FIRST_VAL (Some ref_val_list)
    = Ok (ref_ind_dict, sort_ref_val_list) →
  SNN.generate_sorted_index SORTED_FIRST_VAL self rec_dict attr_select_list
    sort_ref_val_list (Some ref_ind_dict) = Ok idx →
  ∃ rep_ref_vals rep_index,
    SNN.select_rep_ref_vals idx ref_ind_dict = Ok (rep_ref_vals, rep_index)
    ∧ rep_ref_vals ≡ₚ Z.of_nat <$> seq 0 (length ref_val_list)
    ∧ (∀ p, p < length ref_val_list →
         ∃ v key, ref_ind_dict !! Z.of_nat p = Some v
                  ∧ rep_index !! v = Some key)
    ∧ ∀ v key, rep_index !! v = Some key → key ∈ idx.*1.
Proof.
  intros Hk Hsim Hsort Hgen.
  assert (length sort_ref_val_list = length ref_val_list) as Hlen.
  { destruct (sort_ref_values_lookup _ _ _ _ 0 Hsort) as [_ ->].
    apply Permutation_length, sorted_Permutation. }
  unfold SNN.generate_sorted_index in Hgen.
  destruct rec_dict as [rec_dict|]; [|done].
  inv_bind Hgen. rename x into ref_val_dict. rewrite Hsim in Hgen.
  destruct (sweep_keys_cover self ref_ind_dict ref_val_dict
              (length sort_ref_val_list) Hk
              (S (length sort_ref_val_list)) 0 [] [] idx)
    as (gs & Hkeys & Hperm);
    [lia|by exists []|done|].
  rewrite Hlen in Hperm.
  assert (∀ p, p < length ref_val_list →
            is_Some (ref_ind_dict !! Z.of_nat p)) as Hdom.
  { intros p Hp.
    destruct (sort_ref_values_lookup _ _ _ _ p Hsort) as [-> _].
    apply lookup_lt_is_Some_2. simpl. lia. }
  assert (∀ g n, g ∈ gs → n ∈ g → n < length ref_val_list) as Hin.
  { intros g n Hg Hn.
    assert (n ∈ seq 0 (length ref_val_list)) as Hs.
    { rewrite <- Hperm. apply elem_of_concat. by exists g. }
    apply elem_of_seq in Hs. lia. }
  destruct (select_loop_spec ref_ind_dict gs [] ∅)
    as (ri & Hrun & _ & Hnew & Hfrom).
  { intros g n Hg Hn. apply Hdom. by apply (Hin g). }
  exists (Z.of_nat <$> concat gs), ri. split.
  { unfold SNN.select_rep_ref_vals. by rewrite Hkeys, Hrun. }
  split; [by rewrite Hperm|]. split.
  - intros p Hp. destruct (Hdom p Hp) as [v Hv].
    assert (p ∈ concat gs) as Hpc by (rewrite Hperm; apply elem_of_seq; lia).
    apply elem_of_concat in Hpc as (g & Hg & Hpg).
    destruct (Hnew g p v Hg Hpg Hv) as [key Hkey]. by exists v, key.
  - intros v key Hv. rewrite Hkeys.
    destruct (Hfrom v key Hv) as [He|?]; [|done].
    by rewrite lookup_empty in He.
Qed.

Lemma select_rep_ref_vals_exposes_every_bucketed_position_witness :
  ∃ idx rep_ref_vals rep_index,
    SNN.generate_sorted_index "" (Ex.snn 2 1 SNN.SIM) (Some Ex.recs_alice) [0]
      (sorted Ex.refs_alice) (Some Ex.positions_alice) = Ok idx
    ∧ SNN.select_rep_ref_vals idx Ex.positions_alice
      = Ok (rep_ref_vals, rep_index)
    ∧ rep_ref_vals ≡ₚ [0%Z; 1%Z; 2%Z].
Proof.
  destruct (SNN.generate_sorted_index "" (Ex.snn 2 1 SNN.SIM)
              (Some Ex.recs_alice) [0] (sorted Ex.refs_alice)
              (Some Ex.positions_alice)) as [idx| |] eqn:Hrun;
    [|exfalso; vm_compute in Hrun; discriminate
     |exfalso; vm_compute in Hrun; discriminate].
  destruct (select_rep_ref_vals_exposes_every_bucketed_position ""
              (Ex.snn 2 1 SNN.SIM) (Some Ex.recs_alice) [0] Ex.refs_alice
              Ex.positions_alice (sorted Ex.refs_alice) idx)
    as (rep_ref_vals & rep_index & Hsel & Hperm & _);
    [done|reflexivity|reflexivity|exact Hrun|].
  by exists idx, rep_ref_vals, rep_index.
Defined.

(** ** [generate_blocks] after the two builds *)

Section candidate_values.
Variable SORTED_FIRST_VAL : string.
Variable w0 : Z.
Variable alice_rep_vals bob_rep_vals : list string.

Lemma emit_pairs_from wa wb (cand : list (string * string)) a b :
  (a, b) ∈ SNN.emit_pairs wa wb cand → (a, b) ∈ cand ∨ (a ∈ wa ∧ b ∈ wb).
Proof.
  unfold SNN.emit_pairs. revert cand.
  induction wa as [|x wa IH]; intros cand; cbn [foldl]; [by left|].
  intros Hin. apply IH in Hin as [Hin|[Ha Hb]].
  2:{ right. split; [by apply list_elem_of_further|done]. }
  assert (∀ wb' cand',
            (a, b) ∈ foldl (fun cand this_bob_ref =>
                              if bool_decide ((x, this_bob_ref) ∈ cand)
                              then cand else cand ++ [(x, this_bob_ref)])
                           cand' wb' →
            (a, b) ∈ cand' ∨ (a = x ∧ b ∈ wb')) as Hinner.
  { induction wb' as [|y wb' IHb]; intros cand'; cbn [foldl]; [by left|].
    intros Hab. apply IHb in Hab as [Hab|[-> Hb]].
    - destruct (bool_decide _); [by left|].
      apply elem_of_app in Hab as [?|Hab]; [by left|].
      apply list_elem_of_singleton in Hab as [= -> ->].
      right. split; [done|apply list_elem_of_here].
    - right. split; [done|by apply list_elem_of_further]. }
  apply Hinner in Hin as [?|[-> Hb]]; [by left|].
  right. split; [apply list_elem_of_here|done].
Qed.

Lemma window_loop_Ok (rep_val_list : list string)
    (windows : list (list string)) (cand : list (string * string)) :
  NoDup rep_val_list →
  (∀ each, each ∈ windows →
     ∃ t n, each = take (S n) (drop t rep_val_list)
            ∧ t + S n ≤ length rep_val_list) →
  ∃ cand',
    SNN.window_loop w0 alice_rep_vals bob_rep_vals rep_val_list windows cand
      = Ok cand'
    ∧ ∀ a b, (a, b) ∈ cand' →
        (a, b) ∈ cand ∨ (a ∈ alice_rep_vals ∧ b ∈ bob_rep_vals).
Proof.
  intros Hnd. revert cand.
  induction windows as [|each windows IH]; intros cand Hseg;
    cbn [SNN.window_loop].
  - exists cand. split; [done|]. by left.
  - destruct (Hseg each) as (t & n & -> & Htn); [apply list_elem_of_here|].
    unfold SNN.process_window.
    destruct (extend_window_result w0 alice_rep_vals bob_rep_vals rep_val_list
                Hnd (length rep_val_list) t (S n)
                (foldl (SNN.classify alice_rep_vals bob_rep_vals)
                       (0, 0, [], []) (take (S n) (drop t rep_val_list))))
      as (m' & [[[na nb] wa] wb] & Hrun & _ & _ & Hcl & _); [lia|lia|lia| |].
    { apply (classify_fold alice_rep_vals bob_rep_vals [] _ (0, 0, [], [])).
      - split; [done|]. split; [done|].
        split; [apply NoDup_nil_2|]. split; [apply NoDup_nil_2|].
        split; intros y;
          (split; [intros Hy|intros [Hy _]]; by apply elem_of_nil in Hy).
      - apply NoDup_segment, Hnd. }
    rewrite Hrun. cbn [mbind result_bind].
    destruct Hcl as (_ & _ & _ & _ & Ha & Hb).
    destruct (IH (SNN.emit_pairs wa wb cand)) as (cand' & Hloop & Hfrom).
    { intros each' Hin. apply Hseg. by apply list_elem_of_further. }
    exists cand'. split; [done|]. intros a b Hab.
    destruct (Hfrom a b Hab) as [Hem|?]; [|by right].
    apply emit_pairs_from in Hem as [?|[Hwa Hwb]]; [by left|].
    right. split; [by apply Ha in Hwa as [_ ?]|by apply Hb in Hwb as [_ ?]].
Qed.

Lemma candidate_pairs_Ok :
  (0 ≤ w0)%Z →
  ∃ cand,
    SNN.candidate_pairs SORTED_FIRST_VAL w0 alice_rep_vals bob_rep_vals
      = Ok cand
    ∧ ∀ a b, (a, b) ∈ cand → a ∈ alice_rep_vals ∧ b ∈ bob_rep_vals.
Proof.
  intros Hw. unfold SNN.candidate_pairs.
  destruct (rep_val_union_Ok SORTED_FIRST_VAL alice_rep_vals bob_rep_vals)
    as [rep Hrep].
  rewrite Hrep. cbn [mbind result_bind].
  rewrite (proj2 (Z.ltb_ge (w0 * 2) 0)) by lia.
  destruct (window_loop_Ok rep (SNN.window rep (Z.to_nat (w0 * 2))) [])
    as (cand & Hrun & Hfrom).
  - by apply rep_val_union_NoDup in Hrep.
  - intros each Hin.
    apply window_segments in Hin as (t & n & _ & -> & Htn). by exists t, n.
  - exists cand. split; [done|]. intros a b Hab.
    destruct (Hfrom a b Hab) as [Hnil|?]; [by apply elem_of_nil in Hnil|done].
Qed.
End candidate_values.

Lemma assemble_Ok (ia ib : list (string * list SNN.rec_id))
    (ai bi : gmap string string) (cand : list (string * string)) (key0 : nat)
    (bd0 : list (nat * (list SNN.rec_id * list SNN.rec_id))) :
  (∀ a b, (a, b) ∈ cand →
     (∃ ka, ai !! a = Some ka ∧ ka ∈ ia.*1)
     ∧ (∃ kb, bi !! b = Some kb ∧ kb ∈ ib.*1)) →
  ∃ bd, SNN.assemble ia ib ai bi cand key0 bd0 = Ok bd.
Proof.
  revert key0 bd0. induction cand as [|[a b] cand IH]; intros key0 bd0 Hall;
    cbn [SNN.assemble]; [by exists bd0|].
  destruct (Hall a b) as [(ka & Hka & Hia) (kb & Hkb & Hib)];
    [apply list_elem_of_here|].
  apply dict_get_is_Some in Hia as [ra Hra].
  apply dict_get_is_Some in Hib as [rb Hrb].
  unfold getitem, dict_getitem. rewrite Hka. cbn [mbind result_bind].
  rewrite Hra. cbn [mbind result_bind]. rewrite Hkb. cbn [mbind result_bind].
  rewrite Hrb. cbn [mbind result_bind].
  apply IH. intros a' b' Hin. apply Hall. by apply list_elem_of_further.
Qed.

Lemma generate_blocks_Ok (SORTED_FIRST_VAL : string) (self : SNN.t)
    (ia ib : list (string * list SNN.rec_id)) :
  (0 ≤ SNN.w self)%Z →
  SNN.index_alice self = Some ia → SNN.index_bob self = Some ib →
  (∀ v, v ∈ SNN.alice_rep_vals self →
     ∃ key, SNN.alice_rep_index self !! v = Some key ∧ key ∈ ia.*1) →
  (∀ v, v ∈ SNN.bob_rep_vals self →
     ∃ key, SNN.bob_rep_index self !! v = Some key ∧ key ∈ ib.*1) →
  ∃ bd,
    SNN.generate_blocks SORTED_FIRST_VAL self
    = Ok (SNN.set_block_dict self bd, length bd).
Proof.
  intros Hw Hia Hib Ha Hb. unfold SNN.generate_blocks. rewrite Hia, Hib.
  destruct (candidate_pairs_Ok SORTED_FIRST_VAL (SNN.w self)
              (SNN.alice_rep_vals self) (SNN.bob_rep_vals self) Hw)
    as (cand & -> & Hfrom).
  cbn [mbind result_bind].
  destruct (assemble_Ok ia ib (SNN.alice_rep_index self)
              (SNN.bob_rep_index self) cand 0 []) as [bd ->].
  { intros a b Hab. destruct (Hfrom a b Hab). split; auto. }
  by exists bd.
Qed.

(** X19. [generate_blocks] returns, and raises nothing, whenever [w >= 0],
    both indexes are assigned, and every exposed value of a party has an
    entry in that party's representative index that names a bucket of its
    index. *)
Theorem generate_blocks_returns_when_exposed_values_are_indexed
    (SORTED_FIRST_VAL : string) (self : SNN.t)
    (index_alice index_bob : list (string * list SNN.rec_id)) :
  (0 ≤ SNN.w self)%Z →
  SNN.index_alice self = Some index_alice →
  SNN.index_bob self = Some index_bob →
  (∀ v, v ∈ SNN.alice_rep_vals self →
     ∃ key, SNN.alice_rep_index self !! v = Some key
            ∧ key ∈ index_alice.*1) →
  (∀ v, v ∈ SNN.bob_rep_vals self →
     ∃ key, SNN.bob_rep_index self !! v = Some key ∧ key ∈ index_bob.*1) →
  ∃ block_dict,
    SNN.generate_blocks SORTED_FIRST_VAL self
    = Ok (SNN.set_block_dict self block_dict, length block_dict).
Proof. apply generate_blocks_Ok. Qed.

Lemma generate_blocks_returns_when_exposed_values_are_indexed_witness :
  ∃ block_dict,
    SNN.generate_blocks "" Ex.built
    = Ok (SNN.set_block_dict Ex.built block_dict, length block_dict).
Proof.
  assert (∀ (vals : list string) (ri : gmap string string) (keys : list string),
            bool_decide
              (Forall (fun v => Exists (fun key => ri !! v = Some key) keys)
                      vals) →
            ∀ v, v ∈ vals → ∃ key, ri !! v = Some key ∧ key ∈ keys) as Hchk.
  { intros vals ri keys Hall v Hv. apply bool_decide_unpack in Hall.
    rewrite Forall_forall in Hall. specialize (Hall v Hv).
    apply Exists_exists in Hall as (key & Hin & Hkey). by exists key. }
  apply (generate_blocks_returns_when_exposed_values_are_indexed "" Ex.built
           (default [] (SNN.index_alice Ex.built))
           (default [] (SNN.index_bob Ex.built)));
    [done|vm_compute; reflexivity|vm_compute; reflexivity
     |apply Hchk; vm_compute; exact I|apply Hchk; vm_compute; exact I].
Defined.

Section exposed_values.
Variable SORTED_FIRST_VAL : string.

Local Abbreviation key_of :=
  (fun ns : list nat =>
     foldl (fun (id : string) (n : nat) => id +:+ str (Z.of_nat n) +:+ "_")
           "b_" ns).

(** The keys of a returned index hold positions of the position table. *)
Lemma generate_sorted_index_keys (self : SNN.t)
    (rec_dict : option SNN.RecordTable) (attr_select_list : list nat)
    (ref_val_list : list string) (ref_ind_dict : gmap Z string)
    (sort_ref_val_list : list string) (idx : list (string * list SNN.rec_id)) :
  (0 ≤ SNN.k self)%Z →
  SNN.sort_ref_values SORTED_FIRST_VAL (Some ref_val_list)
    = Ok (ref_ind_dict, sort_ref_val_list) →
  SNN.generate_sorted_index SORTED_FIRST_VAL self rec_dict attr_select_list
    sort_ref_val_list (Some ref_ind_dict) = Ok idx →
  ∃ gs, idx.*1 = key_of <$> gs
        ∧ ∀ g n, g ∈ gs → n ∈ g → is_Some (ref_ind_dict !! Z.of_nat n).
Proof.
  intros Hk Hsort Hgen. unfold SNN.generate_sorted_index in Hgen.
  destruct rec_dict as [rec_dict|]; [|done].
  inv_bind Hgen. rename x into ref_val_dict.
  destruct (SNN.sim_or_size self).
  - destruct (sweep_keys_cover self ref_ind_dict ref_val_dict
                (length sort_ref_val_list) Hk
                (S (length sort_ref_val_list)) 0 [] [] idx)
      as (gs & Hkeys & Hperm); [lia|by exists []|done|].
    exists gs. split; [done|]. intros g n Hg Hn.
    assert (n ∈ seq 0 (length sort_ref_val_list)) as Hs.
    { rewrite <- Hperm. apply elem_of_concat. by exists g. }
    apply elem_of_seq in Hs.
    destruct (sort_ref_values_lookup _ _ _ _ n Hsort) as [-> _].
    apply lookup_lt_is_Some_2. simpl. lia.
  - injection Hgen as <-. exists []. split; [done|].
    intros g n Hg. by apply elem_of_nil in Hg.
Qed.

Lemma append_rep_vals_values (d : gmap Z string) (rep_refs : list Z)
    (rep_vals rep_vals' : list string) :
  SNN.append_rep_vals d rep_refs rep_vals = Ok rep_vals' →
  ∀ v, v ∈ rep_vals' → v ∈ rep_vals ∨ ∃ z, z ∈ rep_refs ∧ d !! z = Some v.
Proof.
  revert rep_vals. induction rep_refs as [|z rep_refs IH]; intros rep_vals;
    cbn [SNN.append_rep_vals].
  - intros [= <-] v Hv. by left.
  - intros Hrun v Hv. inv_bind Hrun. apply getitem_Ok in Hx.
    destruct (IH _ Hrun v Hv) as [Hin|(z' & Hz' & Hd)].
    + apply elem_of_app in Hin as [?|Hin]; [by left|].
      apply list_elem_of_singleton in Hin as ->.
      right. exists z. split; [apply list_elem_of_here|done].
    + right. exists z'. split; [by apply list_elem_of_further|done].
Qed.

(** What one build leaves behind: every exposed value has an entry in the
    representative index, and the entry names a bucket of the index. *)
Lemma exposed_values_indexed (self : SNN.t)
    (rec_dict : option SNN.RecordTable) (attr_select_list : list nat)
    (ref_val_list : option (list string)) (ref_ind_dict : gmap Z string)
    (sort_ref_val_list : list string) (idx : list (string * list SNN.rec_id))
    (rep_ref_vals : list Z) (rep_index : gmap string string)
    (rep_vals : list string) :
  (0 ≤ SNN.k self)%Z →
  SNN.sort_ref_values SORTED_FIRST_VAL ref_val_list
    = Ok (ref_ind_dict, sort_ref_val_list) →
  SNN.generate_sorted_index SORTED_FIRST_VAL self rec_dict attr_select_list
    sort_ref_val_list (Some ref_ind_dict) = Ok idx →
  SNN.select_rep_ref_vals idx ref_ind_dict = Ok (rep_ref_vals, rep_index) →
  SNN.append_rep_vals ref_ind_dict rep_ref_vals [] = Ok rep_vals →
  ∀ v, v ∈ rep_vals → ∃ key, rep_index !! v = Some key ∧ key ∈ idx.*1.
Proof.
  intros Hk Hsort Hgen Hsel Happ v Hv.
  destruct ref_val_list as [ref_val_list|]; [|done].
  destruct (generate_sorted_index_keys _ _ _ _ _ _ _ Hk Hsort Hgen)
    as (gs & Hkeys & Hdom).
  destruct (select_loop_spec ref_ind_dict gs [] ∅ Hdom)
    as (ri & Hrun & _ & Hnew & Hfrom).
  unfold SNN.select_rep_ref_vals in Hsel. rewrite Hkeys, Hrun in Hsel.
  injection Hsel as <- <-.
  destruct (append_rep_vals_values _ _ _ _ Happ v Hv) as [Hnil|(z & Hz & Hd)];
    [by apply elem_of_nil in Hnil|].
  cbn [app] in Hz. apply list_elem_of_fmap in Hz as (n & -> & Hn).
  apply elem_of_concat in Hn as (g & Hg & Hn).
  destruct (Hnew g n v Hg Hn Hd) as [key Hkey].
  exists key. split; [done|]. rewrite Hkeys.
  destruct (Hfrom v key Hkey) as [He|?]; [|done].
  by rewrite lookup_empty in He.
Qed.
End exposed_values.

(** X20. On an instance whose two exposed-value lists are still empty, with
    [k >= 0] and [w >= 0]: once [build_index_alice] and [build_index_bob]
    have returned, [generate_blocks] returns too. No lookup of a
    representative value or of a bucket key fails, and no window loop runs
    on. *)
Theorem generate_blocks_returns_after_first_builds
    (SORTED_FIRST_VAL : string) (self self1 self2 : SNN.t)
    (attr_select_list_alice attr_select_list_bob : list nat) :
  (0 ≤ SNN.k self)%Z → (0 ≤ SNN.w self)%Z →
  SNN.alice_rep_vals self = [] → SNN.bob_rep_vals self = [] →
  SNN.build_index_alice SORTED_FIRST_VAL self attr_select_list_alice
    = Ok self1 →
  SNN.build_index_bob SORTED_FIRST_VAL self1 attr_select_list_bob
    = Ok self2 →
  ∃ block_dict,
    SNN.generate_blocks SORTED_FIRST_VAL self2
    = Ok (SNN.set_block_dict self2 block_dict, length block_dict).
Proof.
  intros Hk Hw HrA HrB HbA HbB.
  unfold SNN.build_index_alice in HbA. inv_bind HbA.
  destruct x as [dA srtA]. rename Hx into HsortA.
  destruct (SNN.rec_dict_alice self) as [recsA|] eqn:HrecA; [|done].
  inv_bind HbA. rename x into idxA, Hx into HgenA.
  inv_bind HbA. destruct x as [rvA riA]. rename Hx into HselA.
  inv_bind HbA. rename x into valsA, Hx into HappA.
  injection HbA as <-. rewrite HrA in HappA.
  unfold SNN.build_index_bob in HbB.
  cbn [SNN.ref_val_list_bob SNN.rec_dict_bob SNN.bob_rep_vals] in HbB.
  inv_bind HbB. destruct x as [dB srtB]. rename Hx into HsortB.
  destruct (SNN.rec_dict_bob self) as [recsB|] eqn:HrecB; [|done].
  inv_bind HbB. rename x into idxB, Hx into HgenB.
  inv_bind HbB. destruct x as [rvB riB]. rename Hx into HselB.
  inv_bind HbB. rename x into valsB, Hx into HappB.
  injection HbB as <-. rewrite HrB in HappB.
  apply (generate_blocks_Ok SORTED_FIRST_VAL _ idxA idxB);
    [done|done|done| |].
  - exact (exposed_values_indexed SORTED_FIRST_VAL _ _ _ _ _ _ _ _ _ _
             Hk HsortA HgenA HselA HappA).
  - refine (exposed_values_indexed SORTED_FIRST_VAL _ _ _ _ _ _ _ _ _ _
              _ HsortB HgenB HselB HappB).
    exact Hk.
Qed.

Lemma generate_blocks_returns_after_first_builds_witness :
  ∃ block_dict,
    SNN.generate_blocks "" (Ex.built_with 2 1)
    = Ok (SNN.set_block_dict (Ex.built_with 2 1) block_dict,
          length block_dict).
Proof.
  apply (generate_blocks_returns_after_first_builds "" (Ex.snn 2 1 SNN.SIM)
           (match SNN.build_index_alice "" (Ex.snn 2 1 SNN.SIM) [0] with
            | Ok self1 => self1
            | _ => Ex.snn 2 1 SNN.SIM
            end)
           (Ex.built_with 2 1) [0] [0]);
    [done|done|reflexivity|reflexivity
     |vm_compute; reflexivity|vm_compute; reflexivity].
Defined.

(** ** [__str2bf__] *)

Section str2bf.
Variable QGRAM_LEN : nat.
Variable QGRAM_PADDING : bool.
Variables PADDING_START_CHAR PADDING_END_CHAR : string.
Variables h1 h2 : string → Z.

Lemma bloom_loop_acc int1 int2 (len : Z) range (acc acc1 bs : gset Z) :
  PSig.bloom_loop int1 int2 len range acc1 = Ok bs →
  PSig.bloom_loop int1 int2 len range (acc ∪ acc1) = Ok (acc ∪ bs).
Proof.
  revert acc1. induction range as [|i range IH]; intros acc1;
    cbn [PSig.bloom_loop].
  - by intros [= <-].
  - destruct (len =? 0)%Z; [done|]. intros Hrun.
    rewrite <- (assoc_L (∪)). by apply IH.
Qed.

Lemma str2bf_fold_union (self : PSig.t) (grams : list string) (acc : gset Z) :
  (0 < PSig.bf_len self)%Z →
  foldl (fun acc q =>
           bloom_set ← acc;
           PSig.bloom_loop (h1 q) (h2 q) (PSig.bf_len self)
             (seq 0 (PSig.num_hash_funct self)) bloom_set)
        (Ok acc) grams
  = foldl (fun acc gram =>
             bloom ← acc;
             bloom_set ← PSig.ngram2bf h1 h2 self gram;
             Ok (bloom ∪ bloom_set))
          (Ok acc) grams.
Proof.
  intros Hlen. revert acc.
  induction grams as [|g grams IH]; intros acc; cbn [foldl]; [done|].
  destruct (ngram2bf_Ok h1 h2 self Hlen g) as (bfg & Hg & _).
  rewrite Hg. cbn [mbind result_bind].
  unfold PSig.ngram2bf in Hg.
  pose proof (bloom_loop_acc _ _ _ _ acc _ _ Hg) as Hacc.
  rewrite (right_id_L ∅ (∪)) in Hacc. rewrite Hacc. apply IH.
Qed.

(** X21. On a cache miss with a positive filter length, [__str2bf__]
    returns what [create_bloom_filter] returns for the set of q-grams of
    the (padded) string: the union of the [ngram2bf] filters of its grams.
    The cache is extended by this filter exactly when [do_cache] is set. *)
Theorem str2bf_is_create_bloom_filter_of_grams
    (self : PSig.t) (s : string) (do_cache : bool) :
  (0 < PSig.bf_len self)%Z →
  PSig.bf_cache self !! s = None →
  ∃ bf,
    PSig.str2bf QGRAM_LEN QGRAM_PADDING PADDING_START_CHAR PADDING_END_CHAR
      h1 h2 self s do_cache
    = Ok (bf, if do_cache then <[s := bf]> (PSig.bf_cache self)
              else PSig.bf_cache self)
    ∧ PSig.create_bloom_filter h1 h2 self
        (list_to_set
           (PSig.q_grams QGRAM_LEN
              (PSig.pad QGRAM_LEN QGRAM_PADDING PADDING_START_CHAR
                 PADDING_END_CHAR s)))
      = Ok bf.
Proof.
  intros Hlen Hmiss. unfold PSig.str2bf, PSig.create_bloom_filter.
  rewrite Hmiss. cbv zeta.
  set (grams := PSig.q_grams QGRAM_LEN _).
  rewrite str2bf_fold_union by done.
  destruct (create_fold_union h1 h2 self Hlen grams ∅) as (bf & Hrun & Hin).
  destruct (create_fold_union h1 h2 self Hlen
              (elements (list_to_set grams : gset string)) ∅)
    as (bf' & Hrun' & Hin').
  rewrite Hrun, Hrun'. cbn [mbind result_bind].
  exists bf. split; [done|]. f_equal. apply set_eq. intros x.
  rewrite Hin, Hin'. split; (intros [?|(g & b & Hg & Hb)]; [by left|]);
    right; exists g, b; (split; [|done]).
  - by apply elem_of_elements, elem_of_list_to_set in Hg.
  - by apply elem_of_elements, elem_of_list_to_set.
Qed.

(** X22. The cache of [__str2bf__] is never checked against the
    parameters: once a call with [do_cache] set has returned a filter for
    [s], every later call for [s] on an instance that holds the resulting
    cache returns that same filter and leaves the cache as it is, whatever
    the instance's filter length and number of hash functions are by then. *)
Theorem str2bf_cached_filter_is_returned
    (self self' : PSig.t) (s : string) (do_cache' : bool)
    (bf : gset Z) (cache : gmap string (gset Z)) :
  PSig.str2bf QGRAM_LEN QGRAM_PADDING PADDING_START_CHAR PADDING_END_CHAR
    h1 h2 self s true = Ok (bf, cache) →
  PSig.bf_cache self' = cache →
  PSig.str2bf QGRAM_LEN QGRAM_PADDING PADDING_START_CHAR PADDING_END_CHAR
    h1 h2 self' s do_cache' = Ok (bf, cache).
Proof.
  unfold PSig.str2bf. intros Hrun ->.
  destruct (PSig.bf_cache self !! s) as [bf0|] eqn:Hc.
  - injection Hrun as <- <-. by rewrite Hc.
  - cbv zeta in Hrun. inv_bind Hrun. injection Hrun as <- <-.
    by rewrite lookup_insert_eq.
Qed.
End str2bf.

Lemma str2bf_is_create_bloom_filter_of_grams_witness :
  ∃ bf,
    PSig.str2bf 2 true "^" "$" Ex.digest1 Ex.digest2 Ex.psig "ab" false
    = Ok (bf, ∅)
    ∧ PSig.create_bloom_filter Ex.digest1 Ex.digest2 Ex.psig
        (list_to_set ["^a"; "ab"; "b$"]) = Ok bf.
Proof.
  destruct (str2bf_is_create_bloom_filter_of_grams 2 true "^" "$"
              Ex.digest1 Ex.digest2 Ex.psig "ab" false)
    as (bf & Hrun & Hcreate); [done|done|].
  exists bf. split; [exact Hrun|exact Hcreate].
Defined.

Lemma str2bf_cached_filter_is_returned_witness :
  ∃ bf cache,
    PSig.str2bf 2 true "^" "$" Ex.digest1 Ex.digest2 Ex.psig "ab" true
    = Ok (bf, cache)
    ∧ PSig.str2bf 2 true "^" "$" Ex.digest1 Ex.digest2
        (PSig.mk 5 7 cache None None None [] [] None None None None None)
        "ab" false
      = Ok (bf, cache).
Proof.
  destruct (PSig.str2bf 2 true "^" "$" Ex.digest1 Ex.digest2 Ex.psig "ab" true)
    as [[bf cache]| |] eqn:Hrun;
    [|exfalso; vm_compute in Hrun; discriminate
     |exfalso; vm_compute in Hrun; discriminate].
  exists bf, cache. split; [done|].
  by apply (str2bf_cached_filter_is_returned 2 true "^" "$" Ex.digest1
              Ex.digest2 Ex.psig).
Defined.

(** ** Padding *)

Lemma length_str_app (a b : string) :
  String.length (a +:+ b) = String.length a + String.length b.
Proof.
  induction a as [|x a IH]; [done|].
  change (S (String.length (a +:+ b)) = S (String.length a + String.length b)).
  by rewrite IH.
Qed.

Lemma length_repeat_str (c : string) (n : nat) :
  String.length (repeat_str c n) = n * String.length c.
Proof.
  induction n as [|n IH]; [done|]. cbn [repeat_str].
  rewrite length_str_app, IH. lia.
Qed.

(** X23. For [QGRAM_LEN >= 1], [__str2bf__] cuts a string [s] into
    [len(s) + 1 - QGRAM_LEN] grams without padding and, with padding, into
    that many grams of the string lengthened by [QGRAM_LEN - 1] copies of
    each padding string: [len(s) + QGRAM_LEN - 1] grams for one-character
    padding, so that a padded string always yields at least one gram per
    character. *)
Theorem str2bf_gram_count (QGRAM_LEN : nat) (QGRAM_PADDING : bool)
    (PADDING_START_CHAR PADDING_END_CHAR s : string) :
  1 ≤ QGRAM_LEN →
  length (PSig.q_grams QGRAM_LEN
            (PSig.pad QGRAM_LEN QGRAM_PADDING PADDING_START_CHAR
               PADDING_END_CHAR s))
  = String.length s
    + (if QGRAM_PADDING
       then (QGRAM_LEN - 1)
            * (String.length PADDING_START_CHAR
               + String.length PADDING_END_CHAR)
       else 0)
    + 1 - QGRAM_LEN.
Proof.
  intros Hq. unfold PSig.q_grams, PSig.pad.
  rewrite length_fmap, length_seq.
  destruct QGRAM_PADDING.
  - rewrite !length_str_app, !length_repeat_str. nia.
  - lia.
Qed.

Lemma str2bf_gram_count_witness :
  length (PSig.q_grams 2 (PSig.pad 2 true "^" "$" "smith")) = 6
  ∧ length (PSig.q_grams 2 (PSig.pad 2 false "^" "$" "smith")) = 4.
Proof.
  split.
  - by rewrite (str2bf_gram_count 2 true "^" "$" "smith") by lia.
  - by rewrite (str2bf_gram_count 2 false "^" "$" "smith") by lia.
Defined.
